(** * qfit samplers: a shallow embedding of [src/qfit/samplers.py]

    The geometric conformation samplers of qfit (axis alignment, torsion and
    bond rotators, the ligand translator and the random rotation sets) are
    embedded as Rocq functions and the properties the specification states
    about them are proved.

    Numbers.  The program computes with NumPy [float64] values.  They are
    embedded as [npfloat]: a finite value is an exact real number, and the
    three IEEE-754 special values (the two infinities and NaN) are kept,
    because NumPy does not raise on a division by zero but continues with
    them.  Rounding error of finite operations, overflow and the sign of zero
    are not modelled. *)

From Stdlib Require Import Reals Lra Lia ZArith List String Bool RNsatz.
From stdpp Require Import base list.
Import ListNotations.

Open Scope R_scope.

(* ================================================================= *)
(** ** NumPy scalars *)

Inductive npfloat : Type :=
| Fin (r : R)
| PInf
| NInf
| NaN.

Definition f0 : npfloat := Fin 0.
Definition f1 : npfloat := Fin 1.

Definition is_finite (a : npfloat) : bool :=
  match a with Fin _ => true | _ => false end.

(** [r * inf] for a finite [r]; [pos] tells the sign of the infinity. *)
Definition inf_times (r : R) (pos : bool) : npfloat :=
  if Rlt_dec 0 r then (if pos then PInf else NInf)
  else if Rlt_dec r 0 then (if pos then NInf else PInf)
  else NaN.

Definition fneg (a : npfloat) : npfloat :=
  match a with
  | Fin x => Fin (- x)
  | PInf => NInf
  | NInf => PInf
  | NaN => NaN
  end.

Definition fadd (a b : npfloat) : npfloat :=
  match a, b with
  | Fin x, Fin y => Fin (x + y)
  | NaN, _ | _, NaN => NaN
  | PInf, NInf | NInf, PInf => NaN
  | PInf, _ | _, PInf => PInf
  | NInf, _ | _, NInf => NInf
  end.

Definition fsub (a b : npfloat) : npfloat := fadd a (fneg b).

Definition fmul (a b : npfloat) : npfloat :=
  match a, b with
  | Fin x, Fin y => Fin (x * y)
  | NaN, _ | _, NaN => NaN
  | Fin x, PInf | PInf, Fin x => inf_times x true
  | Fin x, NInf | NInf, Fin x => inf_times x false
  | PInf, PInf | NInf, NInf => PInf
  | PInf, NInf | NInf, PInf => NInf
  end.

(** NumPy division: a finite value over zero is a signed infinity, [0/0] is
    NaN, and no exception is raised. *)
Definition fdiv (a b : npfloat) : npfloat :=
  match a, b with
  | Fin x, Fin y => if Req_dec_T y 0 then inf_times x true else Fin (x / y)
  | NaN, _ | _, NaN => NaN
  | Fin _, _ => Fin 0
  | PInf, Fin y => if Rlt_dec y 0 then NInf else PInf
  | NInf, Fin y => if Rlt_dec y 0 then PInf else NInf
  | _, _ => NaN
  end.

(** [x ** 2] *)
Definition fsquare (a : npfloat) : npfloat := fmul a a.

Definition fabs (a : npfloat) : npfloat :=
  match a with
  | Fin x => Fin (Rabs x)
  | PInf | NInf => PInf
  | NaN => NaN
  end.

Definition fsqrt (a : npfloat) : npfloat :=
  match a with
  | Fin x => if Rlt_dec x 0 then NaN else Fin (sqrt x)
  | PInf => PInf
  | _ => NaN
  end.

Definition fcos (a : npfloat) : npfloat :=
  match a with Fin x => Fin (cos x) | _ => NaN end.

Definition fsin (a : npfloat) : npfloat :=
  match a with Fin x => Fin (sin x) | _ => NaN end.

(** [np.arccos]: NaN outside [-1, 1]. *)
Definition farccos (a : npfloat) : npfloat :=
  match a with
  | Fin x => if Rle_dec (-1) x then (if Rle_dec x 1 then Fin (acos x) else NaN) else NaN
  | _ => NaN
  end.

(** [np.deg2rad] *)
Definition deg2rad (a : npfloat) : npfloat := fmul a (Fin (PI / 180)).

(** Comparisons; every comparison with NaN is false. *)
Definition flt (a b : npfloat) : bool :=
  match a, b with
  | Fin x, Fin y => if Rlt_dec x y then true else false
  | NaN, _ | _, NaN => false
  | NInf, NInf | PInf, _ => false
  | _, _ => true
  end.

Definition fle (a b : npfloat) : bool :=
  match a, b with
  | Fin x, Fin y => if Rle_dec x y then true else false
  | NaN, _ | _, NaN => false
  | NInf, _ | _, PInf => true
  | _, _ => false
  end.

Definition feqb (a b : npfloat) : bool :=
  match a, b with
  | Fin x, Fin y => if Req_dec_T x y then true else false
  | PInf, PInf | NInf, NInf => true
  | _, _ => false
  end.

(** [np.isclose(a, b)] with NumPy's default tolerances. *)
Definition rtol : R := 1 / 100000.
Definition atol : R := 1 / 100000000.

Definition isclose (a b : npfloat) : bool :=
  match a, b with
  | Fin x, Fin y => if Rle_dec (Rabs (x - y)) (atol + rtol * Rabs y) then true else false
  | _, _ => feqb a b
  end.

(** Round half to even, [np.rint]. *)
Definition rint (x : R) : Z :=
  let n := Int_part x in
  let d := x - IZR n in
  if Rlt_dec d (1 / 2) then n
  else if Rlt_dec (1 / 2) d then (n + 1)%Z
  else if Z.even n then n else (n + 1)%Z.

(** [ndarray.round(decimals=8)]: scale, round to the nearest integer, scale back. *)
Definition round8 (x : R) : R := IZR (rint (x * 100000000)) / 100000000.

Definition fround8 (a : npfloat) : npfloat :=
  match a with Fin x => Fin (round8 x) | _ => a end.

(* ================================================================= *)
(** ** Vectors and matrices of shape (3,) and (3, 3) *)

Record vec3 : Type := V3 { vx : npfloat; vy : npfloat; vz : npfloat }.
Record mat3 : Type := M3 { row0 : vec3; row1 : vec3; row2 : vec3 }.

Definition vmap (f : npfloat -> npfloat) (v : vec3) : vec3 :=
  V3 (f (vx v)) (f (vy v)) (f (vz v)).

Definition vadd (u v : vec3) : vec3 :=
  V3 (fadd (vx u) (vx v)) (fadd (vy u) (vy v)) (fadd (vz u) (vz v)).

Definition vsub (u v : vec3) : vec3 :=
  V3 (fsub (vx u) (vx v)) (fsub (vy u) (vy v)) (fsub (vz u) (vz v)).

(** [v / s] for a scalar [s] *)
Definition vdiv (v : vec3) (s : npfloat) : vec3 := vmap (fun a => fdiv a s) v.

Definition dot3 (u v : vec3) : npfloat :=
  fadd (fadd (fmul (vx u) (vx v)) (fmul (vy u) (vy v))) (fmul (vz u) (vz v)).

(** [np.linalg.norm] of a vector of 3 and of 2 components *)
Definition norm (v : vec3) : npfloat := fsqrt (dot3 v v).
Definition norm2 (a b : npfloat) : npfloat := fsqrt (fadd (fmul a a) (fmul b b)).

(** [np.cross] *)
Definition cross (u v : vec3) : vec3 :=
  V3 (fsub (fmul (vy u) (vz v)) (fmul (vz u) (vy v)))
     (fsub (fmul (vz u) (vx v)) (fmul (vx u) (vz v)))
     (fsub (fmul (vx u) (vy v)) (fmul (vy u) (vx v))).

Definition col0 (m : mat3) : vec3 := V3 (vx (row0 m)) (vx (row1 m)) (vx (row2 m)).
Definition col1 (m : mat3) : vec3 := V3 (vy (row0 m)) (vy (row1 m)) (vy (row2 m)).
Definition col2 (m : mat3) : vec3 := V3 (vz (row0 m)) (vz (row1 m)) (vz (row2 m)).

(** [m.T] *)
Definition transpose (m : mat3) : mat3 := M3 (col0 m) (col1 m) (col2 m).

(** [m @ v] for a column vector [v] *)
Definition matvec (m : mat3) (v : vec3) : vec3 :=
  V3 (dot3 (row0 m) v) (dot3 (row1 m) v) (dot3 (row2 m) v).

(** [v @ m] for a row vector [v]: one row of [np.dot(coor, m)] *)
Definition vecmat (v : vec3) (m : mat3) : vec3 :=
  V3 (dot3 v (col0 m)) (dot3 v (col1 m)) (dot3 v (col2 m)).

(** [a @ b] *)
Definition matmul (a b : mat3) : mat3 :=
  M3 (vecmat (row0 a) b) (vecmat (row1 a) b) (vecmat (row2 a) b).

Definition identity3 : mat3 :=
  M3 (V3 f1 f0 f0) (V3 f0 f1 f0) (V3 f0 f0 f1).

Definition zaxis : vec3 := V3 f0 f0 f1.

(** [np.allclose(v, w)] *)
Definition allclose (v w : vec3) : bool :=
  isclose (vx v) (vx w) && isclose (vy v) (vy w) && isclose (vz v) (vz w).

(** Modelled from the spec: [qfit.structure.math] is not among the sources.
    The specification gives [RotateZ] and [RotateY] as the standard
    right-handed rotations about the Z and the Y axis, built from the sine
    and the cosine of the angle in radians. *)
Definition Rz (theta : npfloat) : mat3 :=
  let c := fcos theta in
  let s := fsin theta in
  M3 (V3 c (fneg s) f0)
     (V3 s c f0)
     (V3 f0 f0 f1).

Definition Ry (theta : npfloat) : mat3 :=
  let c := fcos theta in
  let s := fsin theta in
  M3 (V3 c f0 s)
     (V3 f0 f1 f0)
     (V3 (fneg s) f0 c).

(* ================================================================= *)
(** ** Exceptions *)

Inductive exn : Type :=
| ValueError_axis (axis : vec3)   (* "Axis ... is not aligned to z-axis." *)
| ValueError_index                (* [list.index]: the name is not in the list *)
| ValueError_broadcast            (* operands could not be broadcast together *)
| RuntimeError                    (* "Residue does not have CA, CB and xG atom for rotation." *)
| AssertionError                  (* "Number of torsions should equal degrees of freedom" *)
| IndexError.

(* ================================================================= *)
(** ** ZAxisAligner *)

Module ZAxisAligner.

Record t : Type := Build {
  _Rz : mat3;
  _Ry : mat3;
  backward_rotation : mat3;
  forward_rotation : mat3
}.

(** [ZAxisAligner.__init__] *)
Definition init (axis : vec3) : exn + t :=
  (* Find angle between rotation axis and x-axis *)
  let axis := vdiv axis (norm2 (vx axis) (vy axis)) in
  let xaxis_angle := farccos (vx axis) in
  let xaxis_angle :=
    if flt (vy axis) f0 then fmul xaxis_angle (Fin (-1)) else xaxis_angle in
  (* Rotate around Z-axis *)
  let _Rz := Rz xaxis_angle in
  let axis := matvec (transpose _Rz) axis in
  (* Find angle between rotation axis and z-axis *)
  let zaxis_angle := farccos (fdiv (vz axis) (norm axis)) in
  let zaxis_angle :=
    if flt (vx axis) f0 then fmul zaxis_angle (Fin (-1)) else zaxis_angle in
  let _Ry := Ry zaxis_angle in
  (* Check whether the transformation is correct. *)
  let axis := vdiv (matvec (transpose _Ry) axis) (norm axis) in
  if negb (allclose axis zaxis) then inl (ValueError_axis axis)
  else inr {| _Rz := _Rz;
              _Ry := _Ry;
              backward_rotation := matmul (transpose _Ry) (transpose _Rz);
              forward_rotation := matmul _Rz _Ry |}.

(** The intermediate values of [init], named for the statements below:
    the two angles, the axis after the rotation about Z, and the vector
    that is compared with (0, 0, 1). *)
Definition planar_normalised (axis : vec3) : vec3 :=
  vdiv axis (norm2 (vx axis) (vy axis)).

Definition xaxis_angle (axis : vec3) : npfloat :=
  let axis := planar_normalised axis in
  if flt (vy axis) f0 then fmul (farccos (vx axis)) (Fin (-1)) else farccos (vx axis).

Definition axis_after_Rz (axis : vec3) : vec3 :=
  matvec (transpose (Rz (xaxis_angle axis))) (planar_normalised axis).

Definition zaxis_angle (axis : vec3) : npfloat :=
  let axis := axis_after_Rz axis in
  if flt (vx axis) f0 then fmul (farccos (fdiv (vz axis) (norm axis))) (Fin (-1))
  else farccos (fdiv (vz axis) (norm axis)).

Definition checked_axis (axis : vec3) : vec3 :=
  let a := axis_after_Rz axis in
  vdiv (matvec (transpose (Ry (zaxis_angle axis))) a) (norm a).

End ZAxisAligner.


(* ================================================================= *)
(** ** Tolerances of the specification *)

(** [a] is finite and within [tol] of the finite value [b]. *)
Definition fwithin (tol : R) (a b : npfloat) : Prop :=
  match a, b with
  | Fin x, Fin y => Rabs (x - y) <= tol
  | _, _ => False
  end.

Definition vwithin (tol : R) (v w : vec3) : Prop :=
  fwithin tol (vx v) (vx w) /\ fwithin tol (vy v) (vy w) /\ fwithin tol (vz v) (vz w).

Definition mwithin (tol : R) (a b : mat3) : Prop :=
  vwithin tol (row0 a) (row0 b) /\ vwithin tol (row1 a) (row1 b) /\
  vwithin tol (row2 a) (row2 b).

(** The determinant of a matrix of finite entries is computed by [np.linalg.det]
    in the tests of the specification; here it is the cofactor expansion. *)
Definition det3 (m : mat3) : npfloat :=
  dot3 (row0 m) (cross (row1 m) (row2 m)).

(* ================================================================= *)
(** ** Exceptions and the mutable structure *)

(** A computation that reads and writes a state [S] and either raises or
    returns; the state written before a raise is kept, as in Python. *)
Definition M (S A : Type) : Type := S -> (exn + A) * S.

Definition ret {S A : Type} (a : A) : M S A := fun s => (inr a, s).
Definition raise {S A : Type} (e : exn) : M S A := fun s => (inl e, s).
Definition lift {S A : Type} (r : exn + A) : M S A := fun s => (r, s).
Definition get {S : Type} : M S S := fun s => (inr s, s).
Definition put {S : Type} (s : S) : M S unit := fun _ => (inr tt, s).

Definition bind {S A B : Type} (m : M S A) (k : A -> M S B) : M S B :=
  fun s =>
    match m s with
    | (inr a, s') => k a s'
    | (inl e, s') => (inl e, s')
    end.

Notation "x <- c1 ;; c2" := (bind c1 (fun x => c2))
  (at level 100, c1 at next level, right associativity).
Notation "c1 ;; c2" := (bind c1 (fun _ => c2))
  (at level 100, right associativity).

Fixpoint for_each {S A : Type} (l : list A) (body : A -> M S unit) : M S unit :=
  match l with
  | [] => ret tt
  | x :: l => body x ;; for_each l body
  end.

(** The same for code that only raises. *)
Definition ebind {A B : Type} (r : exn + A) (k : A -> exn + B) : exn + B :=
  match r with
  | inl e => inl e
  | inr a => k a
  end.

Notation "x <-- r ; k" := (ebind r (fun x => k))
  (at level 100, r at next level, right associativity).

Definition or_raise {A : Type} (e : exn) (o : option A) : exn + A :=
  match o with
  | Some a => inr a
  | None => inl e
  end.

(** The coordinate array of a structure, of shape (n, 3). *)
Definition coords : Type := list vec3.

(** [arr[sel]] for a list of indices: a new array of the selected rows. *)
Definition np_take (arr : coords) (sel : list nat) : exn + coords :=
  or_raise IndexError (mapM (fun i => arr !! i) sel).

(** [arr[sel] = rows] on a copy of [arr]: the rows are written in the order
    of [sel]; a single row is broadcast to every index. *)
Definition np_put (arr : coords) (sel : list nat) (rows : coords) : exn + coords :=
  let rows :=
    match rows with
    | [r] => replicate (length sel) r
    | _ => rows
    end in
  if negb (length rows =? length sel)%nat then inl ValueError_broadcast
  else if negb (forallb (fun i => i <? length arr)%nat sel) then inl IndexError
  else inr (fold_left (fun acc (iv : nat * vec3) => <[iv.1 := iv.2]> acc) (zip sel rows) arr).

(** Modelled from the spec: the Structure Accessor ([qfit.structure]) is not
    among the sources.  The specification gives [get_coordinates(selection)]
    as returning the selected rows as a copy the sampler may change freely,
    and [set_coordinates(new_coords, selection)] as writing them back while
    every atom outside [selection] keeps its coordinates; reading [coor]
    gives a copy of the whole array and assigning it replaces the whole
    array. *)
Definition get_xyz (selection : list nat) : M coords coords :=
  fun s => (np_take s selection, s).

Definition set_xyz (coor : coords) (selection : list nat) : M coords unit :=
  fun s =>
    match np_put s selection coor with
    | inr s' => (inr tt, s')
    | inl e => (inl e, s)
    end.

(** The indices of the elements that satisfy [p], counted from [i]. *)
Fixpoint indices_where {A : Type} (p : A -> bool) (l : list A) (i : nat) : list nat :=
  match l with
  | [] => []
  | x :: l => if p x then i :: indices_where p l (S i) else indices_where p l (S i)
  end.

(** Modelled from the spec: [select(attribute, values, comparator)] of the
    Structure Accessor, for the attribute "name": the indices of the atoms
    whose name is among [values] (comparator "==", [eq = true]) or is not
    among them (comparator "!=", [eq = false]). *)
Definition select_name (names : list string) (values : list string) (eq : bool) : list nat :=
  indices_where (fun n => Bool.eqb (existsb (String.eqb n) values) eq) names 0.

(** Modelled from the spec: [extract("name", values).coor], the coordinates
    of the atoms with one of the names, in the order of the structure. *)
Definition extract_coor (names : list string) (values : list string) : M coords coords :=
  get_xyz (select_name names values true).

(** [np.unique] of an array of indices: sorted, without repeats. *)
Fixpoint insert_unique (x : nat) (l : list nat) : list nat :=
  match l with
  | [] => [x]
  | y :: l' =>
      if (x <? y)%nat then x :: l
      else if (x =? y)%nat then l
      else y :: insert_unique x l'
  end.

Definition np_unique (l : list nat) : list nat := fold_right insert_unique [] l.

(** [zip] of four sequences; it stops with the shortest. *)
Fixpoint zip4 {A B C D : Type} (la : list A) (lb : list B) (lc : list C) (ld : list D)
  : list (A * B * C * D) :=
  match la, lb, lc, ld with
  | a :: la, b :: lb, c :: lc, d :: ld => (a, b, c, d) :: zip4 la lb lc ld
  | _, _, _, _ => []
  end.

(* ================================================================= *)
(** ** BackboneRotator *)

Module BackboneRotator.

(** One item of [segment.get_psi_phi_angles()]. *)
Record psi_phi : Type := PsiPhi {
  psi_sel : list nat; psi_axis : vec3; psi_origin : vec3;
  phi_sel : list nat; phi_axis : vec3; phi_origin : vec3
}.

Record t : Type := Build {
  ndofs : nat;
  _starting_coor : coords;
  _aligners : list ZAxisAligner.t;
  _origins : list vec3;
  _atoms_to_rotate : list (list nat)
}.

(** The first loop of [__init__]: selections, aligners and origins. *)
Fixpoint collect (angles : list psi_phi)
  : exn + (list (list nat) * list ZAxisAligner.t * list vec3) :=
  match angles with
  | [] => inr ([], [], [])
  | a :: angles =>
      psi_aligner <-- ZAxisAligner.init (psi_axis a) ;
      phi_aligner <-- ZAxisAligner.init (phi_axis a) ;
      rest <-- collect angles ;
      inr ([psi_sel a; phi_sel a] ++ rest.1.1,
           [psi_aligner; phi_aligner] ++ rest.1.2,
           [psi_origin a; phi_origin a] ++ rest.2)
  end.

(** The second loop: each rotation moves its own atoms and those of every
    rotation before it. *)
Definition cumulative (selections : list (list nat)) : list (list nat) :=
  fold_left (fun acc selection => acc ++ [np_unique (concat acc ++ selection)])
            selections [].

(** [BackboneRotator.__init__]; [n_residues] is [len(segment.residues)] and
    [angles] is what [segment.get_psi_phi_angles()] yields. *)
Definition init (n_residues : nat) (angles : list psi_phi) : M coords t :=
  starting_coor <- get ;;
  c <- lift (collect angles) ;;
  ret {| ndofs := 2 * n_residues;
         _starting_coor := starting_coor;
         _aligners := c.1.2;
         _origins := c.2;
         _atoms_to_rotate := cumulative c.1.1 |}.

(** The matrix of one rotation of [__call__]; [torsion] is in radians. *)
Definition rotation (aligner : ZAxisAligner.t) (torsion : npfloat) : mat3 :=
  matmul (matmul (ZAxisAligner.forward_rotation aligner) (Rz torsion))
         (ZAxisAligner.backward_rotation aligner).

(** The body of the loop of [__call__]. *)
Definition rotate_one (item : npfloat * vec3 * ZAxisAligner.t * list nat) : M coords unit :=
  let '(torsion, origin, aligner, atoms_to_rotate) := item in
  if feqb torsion f0 then ret tt
  else
    coor <- get_xyz atoms_to_rotate ;;
    let coor := map (fun v => vsub v origin) coor in
    let R := rotation aligner torsion in
    let coor := map (fun v => vecmat v (transpose R)) coor in
    let coor := map (fun v => vadd v origin) coor in
    set_xyz coor atoms_to_rotate.

(** [BackboneRotator.__call__] *)
Definition call (self : t) (torsions : list npfloat) : M coords unit :=
  if negb (length torsions =? ndofs self)%nat then raise AssertionError
  else
    (* We start with the last torsion as this is more efficient *)
    let torsions := map deg2rad (rev torsions) in
    put (_starting_coor self) ;;
    for_each (zip4 torsions (_origins self) (_aligners self) (_atoms_to_rotate self))
             rotate_one.

End BackboneRotator.

(* ================================================================= *)
(** ** Translator *)

(** [coor + trans] for [coor] of shape (n, 3) and a vector [trans]: NumPy
    broadcasts a vector of length 3 over the rows and a vector of length 1
    over every entry, and raises for any other length. *)
Definition broadcast_add (coor : coords) (trans : list npfloat) : exn + coords :=
  match trans with
  | [a] => inr (map (fun v => vadd v (V3 a a a)) coor)
  | [a; b; c] => inr (map (fun v => vadd v (V3 a b c)) coor)
  | _ => inl ValueError_broadcast
  end.

Module Translator.

Record t : Type := Build { coor_to_translate : coords }.

Definition init : M coords t :=
  coor <- get ;;
  ret {| coor_to_translate := coor |}.

(** [Translator.__call__] *)
Definition call (self : t) (trans : list npfloat) : M coords unit :=
  coor <- lift (broadcast_add (coor_to_translate self) trans) ;;
  put coor.

End Translator.

(* ================================================================= *)
(** ** CBAngleRotator, BisectingAngleRotator and ChiRotator *)

Definition backbone_and_CB : list string :=
  ["N"; "CA"; "C"; "O"; "CB"; "H"; "HA"; "HB2"; "HB3"]%string.

Module CBAngleRotator.

Record t : Type := Build {
  atoms_to_rotate : list nat;
  _origin : vec3;
  _coor_to_rotate : coords;
  _forward : mat3
}.

(** [CBAngleRotator.__init__]; [names] are the atom names of the residue
    and the state its coordinates. *)
Definition init (names : list string) : M coords t :=
  (* These atoms define the angle *)
  let angle_selection := select_name names ["CA"; "CB"; "CG"]%string true in
  if negb (length angle_selection =? 3)%nat then raise RuntimeError
  else
    (* Only atoms after CB can be moved *)
    let atoms_to_rotate := select_name names backbone_and_CB false in
    (* Define rotation unit vector *)
    cb <- extract_coor names ["CB"]%string ;;
    origin <- lift (or_raise IndexError (cb !! 0%nat)) ;;
    coor_to_rotate <- get_xyz atoms_to_rotate ;;
    let coor_to_rotate := map (fun v => vsub v origin) coor_to_rotate in
    axis_coor <- extract_coor names ["CA"; "CG"]%string ;;
    let axis_coor := map (fun v => vsub v origin) axis_coor in
    a0 <- lift (or_raise IndexError (axis_coor !! 0%nat)) ;;
    a1 <- lift (or_raise IndexError (axis_coor !! 1%nat)) ;;
    let axis := cross a0 a1 in
    let axis := vdiv axis (norm axis) in
    (* Align rotation unit vector to Z-axis *)
    aligner <- lift (ZAxisAligner.init axis) ;;
    ret {| atoms_to_rotate := atoms_to_rotate;
           _origin := origin;
           _coor_to_rotate :=
             map (matvec (ZAxisAligner.backward_rotation aligner)) coor_to_rotate;
           _forward := ZAxisAligner.forward_rotation aligner |}.

(** [rot_mat] of [__call__]; [angle] is in degrees. *)
Definition rotation (self : t) (angle : npfloat) : mat3 :=
  matmul (_forward self) (Rz (deg2rad angle)).

(** [CBAngleRotator.__call__] *)
Definition call (self : t) (angle : npfloat) : M coords unit :=
  let rot_mat := rotation self angle in
  let new_coor :=
    map (fun v => vadd (matvec rot_mat v) (_origin self)) (_coor_to_rotate self) in
  set_xyz new_coor (atoms_to_rotate self).

End CBAngleRotator.

Module BisectingAngleRotator.

(** The state that [__init__] leaves for [__call__]. *)
Record t : Type := Build {
  atoms_to_rotate : list nat;
  _origin : vec3;
  _coor_to_rotate : coords;
  _forward : mat3
}.

(** [BisectingAngleRotator.__init__]; [names] are the atom names of the
    residue and the state its coordinates.  [new_axis] is also kept as an
    attribute, which [__call__] does not read. *)
Definition init (names : list string) : M coords t :=
  (* These atoms define the angle *)
  let angle_selection := select_name names ["CA"; "CB"; "CG"]%string true in
  if negb (length angle_selection =? 3)%nat then raise RuntimeError
  else
    (* Only atoms after CB can be moved *)
    let atoms_to_rotate := select_name names backbone_and_CB false in
    (* Define the origin of rotation as the coordinates of the CB atom *)
    cb <- extract_coor names ["CB"]%string ;;
    origin <- lift (or_raise IndexError (cb !! 0%nat)) ;;
    (* Get the coordinates of the atoms to rotate *)
    coor_to_rotate <- get_xyz atoms_to_rotate ;;
    let coor_to_rotate := map (fun v => vsub v origin) coor_to_rotate in
    axis_coor <- extract_coor names ["CA"; "CG"]%string ;;
    let axis_coor := map (fun v => vsub v origin) axis_coor in
    (* Normalize the vectors pointing from CB to CA and from CB to CG *)
    vec_CA <- lift (or_raise IndexError (axis_coor !! 0%nat)) ;;
    vec_CG <- lift (or_raise IndexError (axis_coor !! 1%nat)) ;;
    let vec_CA := vdiv vec_CA (norm vec_CA) in
    let vec_CG := vdiv vec_CG (norm vec_CG) in
    let new_axis := vadd vec_CA vec_CG in
    let new_axis := vdiv new_axis (norm new_axis) in
    (* Align the new rotation axis to the Z-axis *)
    aligner <- lift (ZAxisAligner.init new_axis) ;;
    ret {| atoms_to_rotate := atoms_to_rotate;
           _origin := origin;
           _coor_to_rotate :=
             map (matvec (ZAxisAligner.backward_rotation aligner)) coor_to_rotate;
           _forward := ZAxisAligner.forward_rotation aligner |}.

Definition rotation (self : t) (angle : npfloat) : mat3 :=
  matmul (_forward self) (Rz (deg2rad angle)).

(** [BisectingAngleRotator.__call__] *)
Definition call (self : t) (angle : npfloat) : M coords unit :=
  let R := rotation self angle in
  let new_coor :=
    map (fun v => vadd (matvec R v) (_origin self)) (_coor_to_rotate self) in
  set_xyz new_coor (atoms_to_rotate self).

End BisectingAngleRotator.

Module ChiRotator.

(** The state that [__init__] leaves for [__call__]. *)
Record t : Type := Build {
  _atom_selection : list nat;
  _origin : vec3;
  _coor_to_rotate : coords;
  _forward : mat3
}.

Definition rotation (self : t) (angle : npfloat) : mat3 :=
  matmul (_forward self) (Rz (deg2rad angle)).

(** [ChiRotator.__call__] *)
Definition call (self : t) (angle : npfloat) : M coords unit :=
  let R := rotation self angle in
  let tmp := map (fun v => vecmat v (transpose R)) (_coor_to_rotate self) in
  let tmp := map (fun v => vadd v (_origin self)) tmp in
  set_xyz tmp (_atom_selection self).

End ChiRotator.

(* ================================================================= *)
(** ** GlobalRotator *)

Module GlobalRotator.

(** [_intermediate], the array of zeros of [__init__], is left out: every
  call overwrites it before it is read. *)
Record t : Type := Build {
_center : vec3;
_coor_to_rotate : coords
}.

(** [coor.mean(axis=0)]: the sum of the rows over their number; for an
  array without rows NumPy divides 0 by 0. *)
Definition mean0 (coor : coords) : vec3 :=
vdiv (fold_left vadd coor (V3 f0 f0 f0)) (Fin (INR (length coor))).

(** [GlobalRotator.__init__]; the state is [ligand.coor]. *)
Definition init (center : option vec3) : M coords t :=
ligand_coor <- get ;;
let center :=
  match center with
  | None => mean0 ligand_coor
  | Some c => c
  end in
ret {| _center := center;
       _coor_to_rotate := map (fun v => vsub v center) ligand_coor |}.

(** [GlobalRotator.__call__] *)
Definition call (self : t) (rotmat : mat3) : M coords unit :=
let intermediate := map (matvec rotmat) (_coor_to_rotate self) in
let intermediate := map (fun v => vadd v (_center self)) intermediate in
put intermediate.

End GlobalRotator.

(* ================================================================= *)
(** ** BondRotator *)

(** [list.index] *)
Fixpoint index_of (names : list string) (a : string) : option nat :=
  match names with
  | [] => None
  | n :: names => if String.eqb n a then Some 0%nat else option_map S (index_of names a)
  end.

(** [np.flatnonzero] of a row of the connectivity matrix *)
Definition flatnonzero (row : list bool) : list nat :=
  indices_where (fun b : bool => b) row 0.

(** [b in atoms] *)
Definition mem (b : nat) (atoms : list nat) : bool := existsb (Nat.eqb b) atoms.

(** [u] and [v] are bonded: the entry of the connectivity matrix is not zero. *)
Definition bonded (conn : list (list bool)) (u v : nat) : Prop :=
  exists row, conn !! u = Some row /\ row !! v = Some true.

(** The atoms that a walk along bonds reaches from [start] without entering
    [root]. *)
Inductive reachable (conn : list (list bool)) (root start : nat) : nat -> Prop :=
| reach_start : reachable conn root start start
| reach_step (u v : nat) :
    reachable conn root start u -> bonded conn u v -> v <> root ->
    reachable conn root start v.

Module BondRotator.

Record t : Type := Build {
  atom1 : string;
  atom2 : string;
  _root : nat;
  _conn : list (list bool);
  atoms_to_rotate : list nat;
  _foundroot : nat;
  _coor_to_rotate : coords;
  _t : vec3;
  _forward : mat3
}.

(** [BondRotator._find_neighbours_recursively]; the state is
    [(self.atoms_to_rotate, self._foundroot)] and [fuel] bounds the depth
    of the recursion ([None] when it is used up). *)
Fixpoint _find_neighbours_recursively (fuel : nat) (conn : list (list bool))
    (root curr : nat) (st : list nat * nat) : option (exn + list nat * nat) :=
  match fuel with
  | O => None
  | S fuel =>
      let atoms := st.1 ++ [curr] in
      match conn !! curr with
      | None => Some (inl IndexError)
      | Some row =>
          fold_left
            (fun acc b =>
               match acc with
               | Some (inr (atoms, found)) =>
                   let found := if (b =? root)%nat then S found else found in
                   if mem b atoms then Some (inr (atoms, found))
                   else _find_neighbours_recursively fuel conn root b (atoms, found)
               | _ => acc
               end)
            (flatnonzero row) (Some (inr (atoms, st.2)))
      end
  end.

(** The rest of [__init__], once the atoms to rotate are known. *)
Definition align (a1 a2 : string) (root : nat) (conn : list (list bool))
    (atoms : list nat) (found : nat) (coor : coords) : exn + t :=
  (* Find the rigid motion that aligns the axis of rotation onto the z-axis. *)
  coor_to_rotate <-- np_take coor atoms ;
  (* Move root to origin *)
  t <-- or_raise IndexError (coor !! root) ;
  let coor_to_rotate := map (fun v => vsub v t) coor_to_rotate in
  (* Find angle between rotation axis and x-axis *)
  c1 <-- or_raise IndexError (coor_to_rotate !! 1%nat) ;
  let axis := vdiv c1 (norm2 (vx c1) (vy c1)) in
  aligner <-- ZAxisAligner.init axis ;
  (* Align the rotation axis to the z-axis for the coordinates *)
  inr {| atom1 := a1; atom2 := a2; _root := root; _conn := conn;
         atoms_to_rotate := atoms; _foundroot := found;
         _coor_to_rotate :=
           map (matvec (ZAxisAligner.backward_rotation aligner)) coor_to_rotate;
         _t := t;
         _forward := ZAxisAligner.forward_rotation aligner |}.

(** [BondRotator.__init__]; [names], [conn] and [coor] are [ligand.name],
    [ligand.connectivity] and [ligand.coor]. *)
Definition init (fuel : nat) (names : list string) (conn : list (list bool))
    (coor : coords) (a1 a2 : string) : option (exn + t) :=
  (* Determine which atoms will be moved by the rotation. *)
  match index_of names a1 with
  | None => Some (inl ValueError_index)
  | Some root =>
      match index_of names a2 with
      | None => Some (inl ValueError_index)
      | Some curr =>
          match _find_neighbours_recursively fuel conn root curr ([root], 0%nat) with
          | None => None
          | Some (inl e) => Some (inl e)
          | Some (inr (atoms, found)) => Some (align a1 a2 root conn atoms found coor)
          end
      end
  end.

(** [R] of [__call__]; [angle] is passed to [Rz] as it is. *)
Definition rotation (self : t) (angle : npfloat) : mat3 :=
  matmul (_forward self) (Rz angle).

(** [BondRotator.__call__]: the state is [ligand.coor], the result the
    array that is returned. *)
Definition call (self : t) (angle : npfloat) : M coords coords :=
  let R := rotation self angle in
  let rotated :=
    map (fun v => vadd (matvec R v) (_t self)) (_coor_to_rotate self) in
  coor <- get ;;
  lift (np_put coor (atoms_to_rotate self) rotated).

(** The atoms the specification calls the moved set. *)
Definition moved (conn : list (list bool)) (root start : nat) (i : nat) : Prop :=
  i = root \/ reachable conn root start i.

End BondRotator.

(* ================================================================= *)
(** ** RotationSets *)

Record quat : Type := Quat { qw : npfloat; qx : npfloat; qy : npfloat; qz : npfloat }.

Definition quat_identity : quat := Quat (Fin 1) (Fin 0) (Fin 0) (Fin 0).

(** The Euclidean norm of the four components. *)
Definition quat_norm (q : quat) : npfloat :=
  fsqrt (fadd (fadd (fadd (fsquare (qw q)) (fsquare (qx q))) (fsquare (qy q)))
              (fsquare (qz q))).

Module RotationSets.

(** One row of the arrays of [quats_to_rotmats] before the rounding: NumPy
    computes every line of the function on whole columns, entry by entry. *)
Definition fill_rotmat (q : quat) : mat3 :=
  let '(w, x, y, z) := (qw q, qx q, qy q, qz q) in
  (* Calculate the magnitude of the quats *)
  let Nq := fadd (fadd (fadd (fsquare w) (fsquare x)) (fsquare y)) (fsquare z) in
  (* Determine values of scalars required to make unit quats *)
  let s := fdiv (Fin 1) Nq in
  (* Calculate scaled X, Y, Z *)
  let X := fmul (fmul x s) (Fin 2) in
  let Y := fmul (fmul y s) (Fin 2) in
  let Z := fmul (fmul z s) (Fin 2) in
  (* Fill rotmats array *)
  M3 (V3 (fsub (Fin 1) (fadd (fmul y Y) (fmul z Z)))
         (fsub (fmul x Y) (fmul w Z))
         (fadd (fmul x Z) (fmul w Y)))
     (V3 (fadd (fmul x Y) (fmul w Z))
         (fsub (Fin 1) (fadd (fmul x X) (fmul z Z)))
         (fsub (fmul y Z) (fmul w X)))
     (V3 (fsub (fmul x Z) (fmul w Y))
         (fadd (fmul y Z) (fmul w X))
         (fsub (Fin 1) (fadd (fmul x X) (fmul y Y)))).

(** In place round to 8dp *)
Definition round_rotmat (m : mat3) : mat3 :=
  M3 (vmap fround8 (row0 m)) (vmap fround8 (row1 m)) (vmap fround8 (row2 m)).

Definition rotmat_of_quat (q : quat) : mat3 := round_rotmat (fill_rotmat q).

(** [RotationSets.quats_to_rotmats] *)
Definition quats_to_rotmats (quaternions : list quat) : list mat3 :=
  map rotmat_of_quat quaternions.

(** The random generator: [u i] is the [i]-th variate that
    [np.random.uniform(-1, 1)] hands out, and the state is the number of
    variates used so far. *)
Definition stream : Type := nat -> R.

(** The squared norm of the pair of variates at [i] and [i + 1]. *)
Definition sqnorm_at (u : stream) (i : nat) : R :=
  u i * u i + u (S i) * u (S i).

(** Choose two variates until their squared norm is below 1; [fuel] bounds
    the number of rounds ([None] when it is used up). *)
Fixpoint choose_pair (fuel : nat) (u : stream) (pos : nat)
  : option (npfloat * npfloat * npfloat * nat) :=
  match fuel with
  | O => None
  | S fuel =>
      let e1 := Fin (u pos) in
      let e2 := Fin (u (S pos)) in
      let s := fadd (fsquare e1) (fsquare e2) in
      if fle (Fin 1) s then choose_pair fuel u (pos + 2)
      else Some (e1, e2, s, (pos + 2)%nat)
  end.

(** Then construct point on surface of 4-sphere *)
Definition point_on_sphere (e1 e2 s1 e3 e4 s2 : npfloat) : quat :=
  let root := fsqrt (fdiv (fsub (Fin 1) s1) s2) in
  Quat e1 e2 (fmul e3 root) (fmul e4 root).

(** [RotationSets.random_rotation] *)
Definition random_rotation (fuel : nat) (u : stream) (pos : nat) : option (quat * nat) :=
  match choose_pair fuel u pos with
  | None => None
  | Some (e1, e2, s1, pos) =>
      match choose_pair fuel u pos with
      | None => None
      | Some (e3, e4, s2, pos) => Some (point_on_sphere e1 e2 s1 e3 e4 s2, pos)
      end
  end.

(** The loop of [local]. *)
Fixpoint local_loop (fuel : nat) (u : stream) (pos : nat)
    (radian_max_angle : npfloat) (nrots : Z) (quats : list quat) : option (list quat) :=
  if (Z.of_nat (length quats) <? nrots - 1)%Z then
    match fuel with
    | O => None
    | S fuel' =>
        match random_rotation fuel u pos with
        | None => None
        | Some (quat, pos) =>
            let angle := fmul (Fin 2) (farccos (qw quat)) in
            if fle angle radian_max_angle
            then local_loop fuel' u pos radian_max_angle nrots (quats ++ [quat])
            else local_loop fuel' u pos radian_max_angle nrots quats
        end
    end
  else Some (quats ++ [quat_identity]).

(** [RotationSets.local] *)
Definition local (fuel : nat) (u : stream) (max_angle : npfloat) (nrots : Z)
  : option (list quat) :=
  let radian_max_angle := deg2rad max_angle in
  local_loop fuel u 0 radian_max_angle nrots [].


(** The tolerance of the rounding to 8 decimal places and the matrix of a
    finite quaternion before the rounding, in exact arithmetic. *)
Definition round8_tol : R := 1 / 200000000.

Definition exact_rotmat (w x y z : R) : mat3 :=
  let s := 1 / (w * w + x * x + y * y + z * z) in
  M3 (V3 (Fin (1 - (y * (y * s * 2) + z * (z * s * 2))))
         (Fin (x * (y * s * 2) - w * (z * s * 2)))
         (Fin (x * (z * s * 2) + w * (y * s * 2))))
     (V3 (Fin (x * (y * s * 2) + w * (z * s * 2)))
         (Fin (1 - (x * (x * s * 2) + z * (z * s * 2))))
         (Fin (y * (z * s * 2) - w * (x * s * 2))))
     (V3 (Fin (x * (z * s * 2) - w * (y * s * 2)))
         (Fin (y * (z * s * 2) + w * (x * s * 2)))
         (Fin (1 - (x * (x * s * 2) + y * (y * s * 2))))).

End RotationSets.

(* ================================================================= *)
(** ** Definitions used by the statements *)

Definition angle_names : list string := ["CA"; "CB"; "CG"]%string.

Definition count_name (names : list string) (n : string) : nat :=
  length (List.filter (String.eqb n) names).

Definition dfs_step (fuel : nat) (conn : list (list bool)) (root : nat)
    (acc : option (exn + list nat * nat)) (b : nat) : option (exn + list nat * nat) :=
  match acc with
  | Some (inr (atoms, found)) =>
      let found := if (b =? root)%nat then S found else found in
      if mem b atoms then Some (inr (atoms, found))
      else BondRotator._find_neighbours_recursively fuel conn root b (atoms, found)
  | _ => acc
  end.

(** Every atom collected so far is the root or is reached from [start]. *)
Definition sound (conn : list (list bool)) (root start : nat) (atoms : list nat) : Prop :=
  root ∈ atoms /\ forall a : nat, a ∈ atoms -> BondRotator.moved conn root start a.

(** The atoms below [n] that are not yet collected. *)
Definition unvisited (n : nat) (atoms : list nat) : nat :=
  length (List.filter (fun i => negb (mem i atoms)) (seq 0 n)).

(** The connectivity matrix is square of size [n]. *)
Definition square (n : nat) (conn : list (list bool)) : Prop :=
  length conn = n /\ Forall (fun row => length row = n) conn.


(* ================================================================= *)
(** ** Example inputs *)

(** A residue whose CA, CB and CG lie in the XY plane, and a residue with two
    atoms named CA and none named CG. *)
Definition planar_names : list string := ["CA"; "CB"; "CG"]%string.
Definition planar_coor : coords :=
  [V3 (Fin 1) (Fin 0) (Fin 0); V3 (Fin 0) (Fin 0) (Fin 0); V3 (Fin 0) (Fin 1) (Fin 0)].

Definition doubled_names : list string := ["CA"; "CA"; "CB"]%string.

(** A chain A-B-C with a fourth atom D bonded to A; the bond A-B is rotated. *)
Definition chain_names : list string := ["A"; "B"; "C"; "D"]%string.
Definition chain_conn : list (list bool) :=
  [[false; true; false; true];
   [true; false; true; false];
   [false; true; false; false];
   [true; false; false; false]].
Definition chain_coor : coords :=
  [V3 (Fin 0) (Fin 0) (Fin 0); V3 (Fin 1) (Fin 0) (Fin 0);
   V3 (Fin 1) (Fin 1) (Fin 0); V3 (Fin (-1)) (Fin 0) (Fin 0)].


(* ================================================================= *)
(** ** Definitions used by the further statements *)

(** All three components are finite. *)
Definition vfinite (v : vec3) : bool :=
  is_finite (vx v) && is_finite (vy v) && is_finite (vz v).

Definition mfinite (m : mat3) : bool :=
  vfinite (row0 m) && vfinite (row1 m) && vfinite (row2 m).

(** The sum of one component over the rows of an array of finite entries. *)
Definition real_of (a : npfloat) : R :=
  match a with Fin r => r | _ => 0 end.

Definition column_sum (f : vec3 -> npfloat) (coor : coords) : R :=
  fold_right (fun v acc => real_of (f v) + acc) 0 coor.

(** Every atom bonded to [u] is among [atoms]. *)
Definition closed_in (conn : list (list bool)) (atoms : list nat) (u : nat) : Prop :=
  forall b : nat, bonded conn u b -> b ∈ atoms.

(** The selections of [BackboneRotator.__init__] in the order of its first
    loop: psi before phi for every item. *)
Definition backbone_selections (angles : list BackboneRotator.psi_phi) : list (list nat) :=
  concat (map (fun a => [BackboneRotator.psi_sel a; BackboneRotator.phi_sel a]) angles).

(** Both axes of an item are accepted by [ZAxisAligner]. *)
Definition axes_align (a : BackboneRotator.psi_phi) : Prop :=
  (exists al, ZAxisAligner.init (BackboneRotator.psi_axis a) = inr al) /\
  (exists al, ZAxisAligner.init (BackboneRotator.phi_axis a) = inr al).

(** The indices are strictly increasing, as [np.unique] returns them. *)
Fixpoint increasing (l : list nat) : bool :=
  match l with
  | x :: (y :: _) as rest => (x <? y)%nat && increasing rest
  | _ => true
  end.

(** A residue whose side chain is bent at CB: CA lies on the Y axis and CG on
    the Z axis, so that neither the normal of the CA-CB-CG plane nor the
    bisector of the angle is parallel to Z. *)
Definition bent_names : list string := ["N"; "CA"; "CB"; "CG"; "CD"]%string.
Definition bent_coor : coords :=
  [V3 (Fin 1) (Fin 1) (Fin 0); V3 (Fin 0) (Fin 1) (Fin 0); V3 (Fin 0) (Fin 0) (Fin 0);
   V3 (Fin 0) (Fin 0) (Fin 1); V3 (Fin 0) (Fin 1) (Fin 1)].

(** One residue of a segment: psi turns the atoms 2 and 3 about the X axis,
    phi the atoms 1 and 2 about the Y axis. *)
Definition turn_angles : list BackboneRotator.psi_phi :=
  [BackboneRotator.PsiPhi [2; 3]%nat (V3 (Fin 1) (Fin 0) (Fin 0)) (V3 (Fin 0) (Fin 0) (Fin 0))
                          [1; 2]%nat (V3 (Fin 0) (Fin 1) (Fin 0)) (V3 (Fin 1) (Fin 0) (Fin 0))].
(* ================================================================= *)
(** * Proofs *)

(** ** Real-number facts *)

Lemma sumsq_zero (a b : R) : a * a + b * b = 0 -> a = 0 /\ b = 0.
Proof. intros H. split; nra. Qed.

Lemma sqrt_sumsq_pos (a b : R) : a * a + b * b <> 0 -> 0 < sqrt (a * a + b * b).
Proof. intros H. apply sqrt_lt_R0. nra. Qed.

(** ** The scalar operations on finite values *)

Lemma fsqrt_fin (x : R) : 0 <= x -> fsqrt (Fin x) = Fin (sqrt x).
Proof. intros H. unfold fsqrt. destruct (Rlt_dec x 0); [lra | reflexivity]. Qed.

Lemma fdiv_fin (x y : R) : y <> 0 -> fdiv (Fin x) (Fin y) = Fin (x / y).
Proof. intros H. unfold fdiv. destruct (Req_dec_T y 0); [contradiction | reflexivity]. Qed.

Lemma fdiv_zero_zero : fdiv (Fin 0) (Fin 0) = NaN.
Proof.
  unfold fdiv, inf_times.
  destruct (Req_dec_T 0 0) as [_ | H]; [| lra].
  destruct (Rlt_dec 0 0); [lra | reflexivity].
Qed.

Lemma farccos_fin (x : R) : -1 <= x <= 1 -> farccos (Fin x) = Fin (acos x).
Proof.
  intros [H1 H2]. unfold farccos.
  destruct (Rle_dec (-1) x); [| lra]. destruct (Rle_dec x 1); [reflexivity | lra].
Qed.

Lemma flt_fin_true (x y : R) : x < y -> flt (Fin x) (Fin y) = true.
Proof. intros H. unfold flt. destruct (Rlt_dec x y); [reflexivity | lra]. Qed.

Lemma flt_fin_false (x y : R) : y <= x -> flt (Fin x) (Fin y) = false.
Proof. intros H. unfold flt. destruct (Rlt_dec x y); [lra | reflexivity]. Qed.

Lemma isclose_refl_fin (x : R) : isclose (Fin x) (Fin x) = true.
Proof.
  unfold isclose, atol, rtol.
  destruct (Rle_dec _ _) as [_ | H]; [reflexivity |].
  exfalso. apply H. replace (x - x) with 0 by ring. rewrite Rabs_R0.
  pose proof (Rabs_pos x). lra.
Qed.

Lemma fmul_nan_l (a : npfloat) : fmul NaN a = NaN.
Proof. destruct a; reflexivity. Qed.

Lemma fmul_nan_r (a : npfloat) : fmul a NaN = NaN.
Proof. destruct a; reflexivity. Qed.

Lemma fadd_nan_l (a : npfloat) : fadd NaN a = NaN.
Proof. destruct a; reflexivity. Qed.

Lemma fadd_nan_r (a : npfloat) : fadd a NaN = NaN.
Proof. destruct a; reflexivity. Qed.

Lemma isclose_nan (b : npfloat) : isclose NaN b = false.
Proof. destruct b; reflexivity. Qed.

Lemma fsub_fin (a b : R) : fsub (Fin a) (Fin b) = Fin (a - b).
Proof. unfold fsub. cbn. reflexivity. Qed.

Lemma Rabs_le_between (a b : R) : Rabs a <= b -> - b <= a <= b.
Proof. unfold Rabs. destruct (Rcase_abs a); lra. Qed.

(* ================================================================= *)
(** ** ZAxisAligner *)


Lemma ZAxisAligner_init_eq (axis : vec3) :
  ZAxisAligner.init axis =
  let rz := Rz (ZAxisAligner.xaxis_angle axis) in
  let ry := Ry (ZAxisAligner.zaxis_angle axis) in
  if negb (allclose (ZAxisAligner.checked_axis axis) zaxis)
  then inl (ValueError_axis (ZAxisAligner.checked_axis axis))
  else inr (ZAxisAligner.Build rz ry (matmul (transpose ry) (transpose rz)) (matmul rz ry)).
Proof. reflexivity. Qed.

Lemma norm2_zero : norm2 f0 f0 = Fin 0.
Proof.
  unfold norm2, f0. cbn [fmul fadd].
  rewrite fsqrt_fin by lra.
  replace (0 * 0 + 0 * 0) with 0 by ring. now rewrite sqrt_0.
Qed.

Lemma fdiv_any_zero_not_finite (z : npfloat) : is_finite (fdiv z (Fin 0)) = false.
Proof.
  destruct z as [r | | |]; cbn; try reflexivity.
  - destruct (Req_dec_T 0 0) as [_ | H]; [| lra].
    unfold inf_times. destruct (Rlt_dec 0 r); [reflexivity |].
    destruct (Rlt_dec r 0); reflexivity.
  - destruct (Rlt_dec 0 0); reflexivity.
  - destruct (Rlt_dec 0 0); reflexivity.
Qed.

Lemma fmul_zero_not_finite (a : npfloat) : is_finite a = false -> fmul f0 a = NaN.
Proof.
  destruct a; cbn; try discriminate; intros _; try reflexivity;
  unfold inf_times; destruct (Rlt_dec 0 0); try lra; reflexivity.
Qed.

Lemma planar_normalised_z_parallel (z : npfloat) :
  exists zz, is_finite zz = false /\
    ZAxisAligner.planar_normalised (V3 f0 f0 z) = V3 NaN NaN zz.
Proof.
  exists (fdiv z (Fin 0)). split; [apply fdiv_any_zero_not_finite |].
  unfold ZAxisAligner.planar_normalised, vdiv, vmap. cbn [vx vy vz].
  rewrite norm2_zero. unfold f0. now rewrite fdiv_zero_zero.
Qed.

Lemma xaxis_angle_z_parallel (z : npfloat) :
  ZAxisAligner.xaxis_angle (V3 f0 f0 z) = NaN.
Proof.
  unfold ZAxisAligner.xaxis_angle.
  destruct (planar_normalised_z_parallel z) as (zz & _ & ->). reflexivity.
Qed.

Lemma axis_after_Rz_z_parallel (z : npfloat) :
  ZAxisAligner.axis_after_Rz (V3 f0 f0 z) = V3 NaN NaN NaN.
Proof.
  unfold ZAxisAligner.axis_after_Rz. rewrite xaxis_angle_z_parallel.
  destruct (planar_normalised_z_parallel z) as (zz & Hz & ->).
  unfold matvec, dot3. cbn [Rz transpose col0 col1 col2 row0 row1 row2 vx vy vz fcos fsin fneg].
  rewrite (fmul_zero_not_finite zz Hz).
  rewrite !fmul_nan_l, !fmul_nan_r, !fadd_nan_r. reflexivity.
Qed.

Lemma zaxis_angle_z_parallel (z : npfloat) :
  ZAxisAligner.zaxis_angle (V3 f0 f0 z) = NaN.
Proof.
  unfold ZAxisAligner.zaxis_angle. rewrite axis_after_Rz_z_parallel. reflexivity.
Qed.

Lemma checked_axis_z_parallel (z : npfloat) :
  ZAxisAligner.checked_axis (V3 f0 f0 z) = V3 NaN NaN NaN.
Proof.
  unfold ZAxisAligner.checked_axis.
  rewrite zaxis_angle_z_parallel, axis_after_Rz_z_parallel. reflexivity.
Qed.

Lemma ZAxisAligner_init_z_parallel (z : npfloat) :
  ZAxisAligner.init (V3 f0 f0 z) = inl (ValueError_axis (V3 NaN NaN NaN)).
Proof.
  rewrite ZAxisAligner_init_eq. cbv zeta.
  rewrite checked_axis_z_parallel. reflexivity.
Qed.

(** cos and sin of the signed arccos *)
Lemma signed_acos (c s : R) :
  c * c + s * s = 1 ->
  let theta := if Rlt_dec s 0 then acos c * -1 else acos c in
  cos theta = c /\ sin theta = s.
Proof.
  intros H theta.
  assert (Hc : -1 <= c <= 1) by (split; nra).
  assert (Hs : sin (acos c) = Rabs s).
  { rewrite sin_acos by exact Hc. rewrite <- sqrt_Rsqr_abs. f_equal.
    unfold Rsqr. lra. }
  subst theta. destruct (Rlt_dec s 0) as [Hneg | Hpos].
  - replace (acos c * -1) with (- acos c) by ring.
    rewrite cos_neg, sin_neg, Hs, cos_acos by exact Hc.
    rewrite Rabs_left by exact Hneg. split; lra.
  - rewrite Hs, cos_acos by exact Hc.
    rewrite Rabs_right by lra. split; reflexivity.
Qed.

Section FiniteAxis.
Variables a0 a1 a2 : R.
Hypothesis Hp : a0 * a0 + a1 * a1 <> 0.

Let p := sqrt (a0 * a0 + a1 * a1).
Let axis := V3 (Fin a0) (Fin a1) (Fin a2).

Lemma planar_pos : 0 < p.
Proof. apply sqrt_sumsq_pos, Hp. Qed.

Lemma planar_sq : p * p = a0 * a0 + a1 * a1.
Proof. unfold p. apply sqrt_sqrt. nra. Qed.

Lemma planar_normalised_fin :
  ZAxisAligner.planar_normalised axis = V3 (Fin (a0 / p)) (Fin (a1 / p)) (Fin (a2 / p)).
Proof.
  pose proof planar_pos as Hpos.
  unfold ZAxisAligner.planar_normalised, axis, vdiv, vmap, norm2. cbn [vx vy vz fmul fadd].
  rewrite fsqrt_fin by nra. fold p.
  rewrite !fdiv_fin by lra. reflexivity.
Qed.

Lemma planar_unit : (a0 / p) * (a0 / p) + (a1 / p) * (a1 / p) = 1.
Proof.
  pose proof planar_pos. pose proof planar_sq as Hsq.
  field_simplify_eq; [| lra]. nra.
Qed.

Lemma xaxis_angle_fin :
  exists theta, ZAxisAligner.xaxis_angle axis = Fin theta /\
                cos theta = a0 / p /\ sin theta = a1 / p.
Proof.
  pose proof planar_unit as Hu.
  pose proof (signed_acos _ _ Hu) as Hsa. cbv zeta in Hsa.
  unfold ZAxisAligner.xaxis_angle. rewrite planar_normalised_fin. cbn [vx vy vz].
  rewrite farccos_fin by (split; nra).
  unfold flt, f0. destruct (Rlt_dec (a1 / p) 0); cbn [fmul]; eexists; (split; [reflexivity | exact Hsa]).
Qed.

Lemma axis_after_Rz_fin :
  ZAxisAligner.axis_after_Rz axis = V3 (Fin 1) (Fin 0) (Fin (a2 / p)).
Proof.
  unfold ZAxisAligner.axis_after_Rz.
  destruct xaxis_angle_fin as (theta & -> & Hc & Hs).
  rewrite planar_normalised_fin.
  pose proof planar_unit as Hu.
  unfold matvec, dot3, f0, f1.
  cbn [Rz transpose col0 col1 col2 row0 row1 row2 vx vy vz fcos fsin fneg fmul fadd f0 f1].
  rewrite Hc, Hs. f_equal; f_equal; lra.
Qed.

Let t := a2 / p.
Let n := sqrt (1 + t * t).

Lemma polar_pos : 0 < n.
Proof. apply sqrt_lt_R0. nra. Qed.

Lemma polar_sq : n * n = 1 + t * t.
Proof. unfold n. apply sqrt_sqrt. nra. Qed.

Lemma norm_after_Rz : norm (V3 (Fin 1) (Fin 0) (Fin t)) = Fin n.
Proof.
  unfold norm, dot3. cbn [vx vy vz fmul fadd].
  rewrite fsqrt_fin by nra. unfold n. do 2 f_equal. ring.
Qed.

Lemma zaxis_angle_fin :
  exists phi, ZAxisAligner.zaxis_angle axis = Fin phi /\
              cos phi = t / n /\ sin phi = 1 / n.
Proof.
  pose proof polar_pos as Hn. pose proof polar_sq as Hsq.
  unfold ZAxisAligner.zaxis_angle. rewrite axis_after_Rz_fin. fold t.
  cbn [vx vy vz]. rewrite norm_after_Rz.
  unfold f0. rewrite flt_fin_false by lra.
  rewrite fdiv_fin by lra.
  assert (Hb : (t / n) * (t / n) + (1 / n) * (1 / n) = 1).
  { field_simplify_eq; [| lra]. nra. }
  assert (Hr : -1 <= t / n <= 1) by (split; nra).
  rewrite farccos_fin by exact Hr.
  exists (acos (t / n)). split; [reflexivity |]. split; [apply cos_acos, Hr |].
  rewrite sin_acos by exact Hr.
  replace (1 - (t / n)²) with ((1 / n) * (1 / n)) by (unfold Rsqr; lra).
  apply sqrt_square. apply Rlt_le. apply Rdiv_lt_0_compat; lra.
Qed.

Lemma checked_axis_fin : ZAxisAligner.checked_axis axis = V3 (Fin 0) (Fin 0) (Fin 1).
Proof.
  pose proof polar_pos as Hn. pose proof polar_sq as Hsq.
  unfold ZAxisAligner.checked_axis.
  destruct zaxis_angle_fin as (phi & -> & Hc & Hs).
  rewrite axis_after_Rz_fin. fold t. rewrite norm_after_Rz.
  unfold vdiv, vmap, matvec, dot3.
  cbn [Ry transpose col0 col1 col2 row0 row1 row2 vx vy vz fcos fsin fneg fmul fadd f0 f1].
  rewrite !fdiv_fin by lra. rewrite Hc, Hs.
  f_equal; f_equal; field_simplify_eq; try lra; nra.
Qed.

End FiniteAxis.




Lemma forward_backward_identity (theta phi : R) :
  let rz := Rz (Fin theta) in
  let ry := Ry (Fin phi) in
  matmul (matmul rz ry) (matmul (transpose ry) (transpose rz)) = identity3.
Proof.
  cbv zeta.
  pose proof (sin2_cos2 theta) as Ht. pose proof (sin2_cos2 phi) as Hp.
  unfold Rsqr in Ht, Hp.
  unfold matmul, vecmat, dot3, identity3, f0, f1.
  cbn [Rz Ry transpose col0 col1 col2 row0 row1 row2 vx vy vz fcos fsin fneg fmul fadd f0 f1].
  set (c := cos theta) in *. set (s := sin theta) in *.
  set (C := cos phi) in *. set (S := sin phi) in *.
  f_equal; f_equal; f_equal; nsatz.
Qed.

Section FiniteAxisBackward.
Variables a0 a1 a2 : R.
Hypothesis Hp : a0 * a0 + a1 * a1 <> 0.

Let p := sqrt (a0 * a0 + a1 * a1).
Let t := a2 / p.
Let n := sqrt (1 + t * t).
Let N := sqrt (a0 * a0 + a1 * a1 + a2 * a2).
Let axis := V3 (Fin a0) (Fin a1) (Fin a2).

Lemma full_norm_factor : N = p * n.
Proof.
  pose proof (planar_pos a0 a1 Hp) as Hpos. pose proof (planar_sq a0 a1 Hp) as Hsq.
  fold p in Hpos, Hsq.
  unfold N, n. rewrite <- (sqrt_square p) at 1 by lra.
  rewrite <- sqrt_mult by nra. f_equal.
  unfold t. field_simplify_eq; [| lra]. nra.
Qed.

Lemma unit_axis_fin :
  vdiv axis (norm axis) = V3 (Fin (a0 / N)) (Fin (a1 / N)) (Fin (a2 / N)).
Proof.
  assert (0 < N) by (apply sqrt_lt_R0; nra).
  unfold vdiv, vmap, norm, dot3, axis. cbn [vx vy vz fmul fadd].
  rewrite fsqrt_fin by nra. fold N. rewrite !fdiv_fin by lra. reflexivity.
Qed.

Lemma backward_aligns_unit_axis (theta phi : R) :
  cos theta = a0 / p -> sin theta = a1 / p ->
  cos phi = t / n -> sin phi = 1 / n ->
  matvec (matmul (transpose (Ry (Fin phi))) (transpose (Rz (Fin theta))))
         (V3 (Fin (a0 / N)) (Fin (a1 / N)) (Fin (a2 / N)))
  = V3 (Fin 0) (Fin 0) (Fin 1).
Proof.
  intros Hc Hs HC HS.
  pose proof (planar_pos a0 a1 Hp) as Hpos. pose proof (planar_sq a0 a1 Hp) as Hsq.
  pose proof (polar_pos a0 a1 a2) as Hn. pose proof (polar_sq a0 a1 a2) as Hnsq.
  fold p in Hpos, Hsq, Hn, Hnsq. fold t in Hn, Hnsq. fold n in Hn, Hnsq.
  rewrite full_norm_factor.
  unfold matvec, matmul, vecmat, dot3.
  cbn [Rz Ry transpose col0 col1 col2 row0 row1 row2 vx vy vz fcos fsin fneg fmul fadd f0 f1].
  rewrite Hc, Hs, HC, HS.
  assert (Ht : a2 = t * p) by (unfold t; field; lra).
  rewrite Ht. clear Hc Hs HC HS Ht. clearbody t n p.
  assert (Hsq2 : a0 ^ 2 + a1 ^ 2 = p ^ 2) by (simpl; lra).
  assert (Hnsq2 : n ^ 2 = 1 + t ^ 2) by (simpl; lra).
  f_equal; f_equal; field_simplify_eq; try lra.
  - replace (a0 ^ 2) with (p ^ 2 - a1 ^ 2) by lra. ring.
  - rewrite Hnsq2. replace (a0 ^ 2) with (p ^ 2 - a1 ^ 2) by lra. ring.
Qed.

End FiniteAxisBackward.



Lemma fdiv_nan_r (a : npfloat) : fdiv a NaN = NaN.
Proof. destruct a; reflexivity. Qed.

Lemma fsquare_not_finite (a : npfloat) :
  is_finite a = false -> fmul a a = PInf \/ fmul a a = NaN.
Proof. destruct a; cbn; try discriminate; auto. Qed.

Lemma fsquare_cases (a : npfloat) :
  (exists r, fmul a a = Fin r /\ 0 <= r) \/ fmul a a = PInf \/ fmul a a = NaN.
Proof.
  destruct a as [r | | |]; cbn; auto.
  left. exists (r * r). split; [reflexivity | nra].
Qed.

(** A planar magnitude with a non-finite component is [inf] or NaN. *)
Lemma norm2_not_finite (a b : npfloat) :
  is_finite a && is_finite b = false -> norm2 a b = PInf \/ norm2 a b = NaN.
Proof.
  intros H. unfold norm2.
  destruct a as [x | | |], b as [y | | |]; cbn in H; try discriminate; cbn; auto.
Qed.

Lemma fdiv_not_finite_by_inf_or_nan (a p : npfloat) :
  is_finite a = false -> p = PInf \/ p = NaN -> fdiv a p = NaN.
Proof. intros Ha [-> | ->]; destruct a; cbn in *; try discriminate; reflexivity. Qed.

Lemma fdiv_not_finite_by_fin (a : npfloat) (p : R) :
  is_finite a = false -> is_finite (fdiv a (Fin p)) = false.
Proof.
  destruct a; cbn; try discriminate; intros _; try reflexivity;
    destruct (Rlt_dec p 0); reflexivity.
Qed.

Lemma norm2_fin (x y : R) : norm2 (Fin x) (Fin y) = Fin (sqrt (x * x + y * y)).
Proof. unfold norm2. cbn [fmul fadd]. apply fsqrt_fin. nra. Qed.

Lemma xaxis_angle_nan (a : vec3) :
  vx (ZAxisAligner.planar_normalised a) = NaN -> ZAxisAligner.xaxis_angle a = NaN.
Proof.
  unfold ZAxisAligner.xaxis_angle. cbv zeta. intros ->. cbn.
  destruct (flt _ _); reflexivity.
Qed.

Lemma axis_after_Rz_not_finite (a : vec3) :
  is_finite (vx a) && is_finite (vy a) && is_finite (vz a) = false ->
  vx (ZAxisAligner.axis_after_Rz a) = NaN.
Proof.
  intros H. unfold ZAxisAligner.axis_after_Rz, matvec, dot3.
  cbn [vx vy vz transpose row0 row1 row2 col0 col1 col2 Rz].
  destruct (is_finite (vx a)) eqn:H0; [destruct (is_finite (vy a)) eqn:H1 |].
  - (* only the third component is not finite *)
    cbn in H.
    assert (Ht : fmul f0 (vz (ZAxisAligner.planar_normalised a)) = NaN).
    { apply fmul_zero_not_finite.
      unfold ZAxisAligner.planar_normalised, vdiv, vmap. cbn [vz].
      destruct a as [[x| | |] [y| | |] z]; cbn in H0, H1; try discriminate.
      cbn [vx vy vz]. rewrite norm2_fin. now apply fdiv_not_finite_by_fin. }
    rewrite Ht. apply fadd_nan_r.
  - (* the second component is not finite *)
    assert (Hs : vy (ZAxisAligner.planar_normalised a) = NaN).
    { unfold ZAxisAligner.planar_normalised, vdiv, vmap. cbn [vy].
      apply fdiv_not_finite_by_inf_or_nan; [exact H1 |].
      apply norm2_not_finite. rewrite H1. apply andb_false_r. }
    rewrite Hs, fmul_nan_r, fadd_nan_r. apply fadd_nan_l.
  - (* the first component is not finite *)
    assert (Hc : vx (ZAxisAligner.planar_normalised a) = NaN).
    { unfold ZAxisAligner.planar_normalised, vdiv, vmap. cbn [vx].
      apply fdiv_not_finite_by_inf_or_nan; [exact H0 |].
      apply norm2_not_finite. now rewrite H0. }
    rewrite (xaxis_angle_nan a Hc), Hc. cbn [fcos fmul].
    rewrite !fadd_nan_l. reflexivity.
Qed.

Lemma checked_axis_nan (a : vec3) :
  vx (ZAxisAligner.axis_after_Rz a) = NaN -> vx (ZAxisAligner.checked_axis a) = NaN.
Proof.
  intros H. unfold ZAxisAligner.checked_axis. cbv zeta.
  unfold vdiv, vmap. cbn [vx].
  assert (Hn : norm (ZAxisAligner.axis_after_Rz a) = NaN).
  { unfold norm, dot3. rewrite H. cbn [fmul]. rewrite !fadd_nan_l. reflexivity. }
  rewrite Hn. apply fdiv_nan_r.
Qed.

Lemma allclose_nan_x (v w : vec3) : vx v = NaN -> allclose v w = false.
Proof. intros H. unfold allclose. rewrite H, isclose_nan. reflexivity. Qed.

(** In exact arithmetic the check passes exactly for the finite axes that
    are not parallel to Z. *)
Lemma checked_axis_cases (a : vec3) :
  (exists a0 a1 a2, a = V3 (Fin a0) (Fin a1) (Fin a2) /\ a0 * a0 + a1 * a1 <> 0 /\
                    ZAxisAligner.checked_axis a = V3 (Fin 0) (Fin 0) (Fin 1))
  \/ vx (ZAxisAligner.checked_axis a) = NaN.
Proof.
  destruct (is_finite (vx a) && is_finite (vy a) && is_finite (vz a)) eqn:Hf.
  - destruct a as [[a0| | |] [a1| | |] [a2| | |]]; cbn in Hf; try discriminate.
    destruct (Req_dec_T (a0 * a0 + a1 * a1) 0) as [Hz | Hnz].
    + right. apply sumsq_zero in Hz as [-> ->].
      fold f0. now rewrite checked_axis_z_parallel.
    + left. exists a0, a1, a2. split; [reflexivity |]. split; [exact Hnz |].
      now apply checked_axis_fin.
  - right. now apply checked_axis_nan, axis_after_Rz_not_finite.
Qed.



Lemma vwithin_refl_fin (tol x y z : R) :
  0 <= tol -> vwithin tol (V3 (Fin x) (Fin y) (Fin z)) (V3 (Fin x) (Fin y) (Fin z)).
Proof.
  intros H. unfold vwithin, fwithin. cbn [vx vy vz].
  repeat split; (replace (_ - _) with 0 by ring); rewrite Rabs_R0; exact H.
Qed.

Lemma allclose_zaxis : allclose (V3 (Fin 0) (Fin 0) (Fin 1)) zaxis = true.
Proof. unfold allclose, zaxis, f0, f1. cbn [vx vy vz]. now rewrite !isclose_refl_fin. Qed.

(** C1: for every axis, [ZAxisAligner.__init__] either raises the ValueError
    that names the computed axis, or returns an aligner whose
    [backward_rotation] maps the normalised axis onto (0, 0, 1) within 1e-6
    and whose [forward_rotation @ backward_rotation] is the identity; it
    raises exactly when [np.allclose] of the computed axis and (0, 0, 1) is
    false. *)
Theorem ZAxisAligner_init_raises_or_aligns (axis : vec3) :
  let checked := ZAxisAligner.checked_axis axis in
  (allclose checked zaxis = false /\
   ZAxisAligner.init axis = inl (ValueError_axis checked))
  \/
  (allclose checked zaxis = true /\
   exists al, ZAxisAligner.init axis = inr al /\
     vwithin (1 / 1000000)
       (matvec (ZAxisAligner.backward_rotation al) (vdiv axis (norm axis))) zaxis /\
     matmul (ZAxisAligner.forward_rotation al) (ZAxisAligner.backward_rotation al)
       = identity3).
Proof.
  cbv zeta. rewrite ZAxisAligner_init_eq. cbv zeta.
  destruct (checked_axis_cases axis) as [(a0 & a1 & a2 & -> & Hp & Hc) | Hnan].
  - right. rewrite Hc, allclose_zaxis. split; [reflexivity |]. cbn [negb].
    eexists. split; [reflexivity |]. cbn [ZAxisAligner.backward_rotation ZAxisAligner.forward_rotation].
    destruct (xaxis_angle_fin a0 a1 a2 Hp) as (theta & -> & Hct & Hst).
    destruct (zaxis_angle_fin a0 a1 a2 Hp) as (phi & -> & Hcp & Hsp).
    split.
    + rewrite unit_axis_fin by exact Hp.
      rewrite (backward_aligns_unit_axis a0 a1 a2 Hp theta phi Hct Hst Hcp Hsp).
      apply vwithin_refl_fin. lra.
    + apply forward_backward_identity.
  - left. rewrite (allclose_nan_x _ _ Hnan). split; reflexivity.
Qed.

(** C10: for every axis whose x and y components are both zero the planar
    magnitude is zero, the normalisation divides by it (the first component
    becomes 0/0, which is NaN), and the construction fails with the
    ValueError although the axis is already parallel to Z. *)
Theorem ZAxisAligner_init_z_parallel_fails (z : npfloat) :
  norm2 f0 f0 = Fin 0 /\
  vx (ZAxisAligner.planar_normalised (V3 f0 f0 z)) = fdiv f0 (Fin 0) /\
  fdiv f0 (Fin 0) = NaN /\
  ZAxisAligner.init (V3 f0 f0 z) = inl (ValueError_axis (V3 NaN NaN NaN)).
Proof.
  split; [apply norm2_zero |].
  split; [| split; [apply fdiv_zero_zero | apply ZAxisAligner_init_z_parallel]].
  unfold ZAxisAligner.planar_normalised, vdiv, vmap. cbn [vx vy].
  now rewrite norm2_zero.
Qed.

(* ================================================================= *)
(** ** RotationSets.quats_to_rotmats *)



Lemma rint_close (x : R) : Rabs (IZR (rint x) - x) <= 1 / 2.
Proof.
  unfold rint. destruct (base_Int_part x) as [Hlo Hhi].
  set (n := Int_part x) in *.
  destruct (Rlt_dec (x - IZR n) (1 / 2)) as [H1 | H1].
  - apply Rabs_le. lra.
  - destruct (Rlt_dec (1 / 2) (x - IZR n)) as [H2 | H2].
    + rewrite plus_IZR. apply Rabs_le. lra.
    + destruct (Z.even n); [| rewrite plus_IZR]; apply Rabs_le; lra.
Qed.

Lemma round8_close (x : R) : Rabs (round8 x - x) <= RotationSets.round8_tol.
Proof.
  unfold round8, RotationSets.round8_tol. pose proof (rint_close (x * 100000000)) as H.
  apply Rabs_le_between in H. apply Rabs_le. lra.
Qed.


Section UnitQuaternion.
Variables w x y z : R.
Hypothesis Hnz : w * w + x * x + y * y + z * z <> 0.

Let q := Quat (Fin w) (Fin x) (Fin y) (Fin z).

Lemma fill_rotmat_fin : RotationSets.fill_rotmat q = RotationSets.exact_rotmat w x y z.
Proof.
  unfold RotationSets.fill_rotmat, q, RotationSets.exact_rotmat.
  cbn [qw qx qy qz fsquare fmul fadd].
  rewrite fdiv_fin by exact Hnz. cbv zeta.
  cbn [fmul fadd]. rewrite !fsub_fin. reflexivity.
Qed.

Lemma exact_rotmat_orthogonal :
  matmul (transpose (RotationSets.exact_rotmat w x y z)) (RotationSets.exact_rotmat w x y z)
  = identity3.
Proof.
  unfold RotationSets.exact_rotmat, matmul, vecmat, dot3, identity3, f0, f1.
  cbn [transpose col0 col1 col2 row0 row1 row2 vx vy vz fmul fadd].
  f_equal; f_equal; f_equal; field; exact Hnz.
Qed.

Lemma exact_rotmat_det : det3 (RotationSets.exact_rotmat w x y z) = Fin 1.
Proof.
  unfold RotationSets.exact_rotmat, det3, dot3, cross.
  cbn [row0 row1 row2 vx vy vz fmul fadd]. rewrite !fsub_fin. cbn [fmul fadd].
  f_equal; field; exact Hnz.
Qed.
End UnitQuaternion.


Lemma mul_bound (a q d : R) : -1 <= a <= 1 -> - d <= q <= d -> - d <= a * q <= d.
Proof. intros Ha Hq. nra. Qed.

Lemma mul_bound2 (p q d : R) : - d <= p <= d -> - d <= q <= d -> - (d * d) <= p * q <= d * d.
Proof. intros Hp Hq. nra. Qed.

Lemma prod_perturb (d a b x y : R) :
  -1 <= a <= 1 -> -1 <= b <= 1 -> - d <= x - a <= d -> - d <= y - b <= d ->
  - (2 * d + d * d) <= x * y - a * b <= 2 * d + d * d.
Proof.
  intros Ha Hb Hx Hy.
  pose proof (mul_bound a (y - b) d Ha Hy).
  pose proof (mul_bound b (x - a) d Hb Hx).
  pose proof (mul_bound2 (x - a) (y - b) d Hx Hy).
  replace (x * y - a * b) with (a * (y - b) + b * (x - a) + (x - a) * (y - b)) by ring.
  lra.
Qed.

Lemma triple_perturb (d a b c x y z : R) :
  0 <= d ->
  -1 <= a <= 1 -> -1 <= b <= 1 -> -1 <= c <= 1 ->
  - d <= x - a <= d -> - d <= y - b <= d -> - d <= z - c <= d ->
  - (3 * d + 3 * (d * d) + d * d * d) <= x * y * z - a * b * c
    <= 3 * d + 3 * (d * d) + d * d * d.
Proof.
  intros Hd Ha Hb Hc Hx Hy Hz.
  pose proof (prod_perturb d a b x y Ha Hb Hx Hy) as Hxy.
  assert (Hab : -1 <= a * b <= 1) by nra.
  set (e := 2 * d + d * d) in *.
  assert (He : 0 <= e) by (unfold e; nra).
  replace (x * y * z - a * b * c)
    with ((a * b) * (z - c) + c * (x * y - a * b) + (x * y - a * b) * (z - c)) by ring.
  pose proof (mul_bound (a * b) (z - c) d Hab Hz).
  pose proof (mul_bound c (x * y - a * b) e Hc Hxy).
  assert (- (e * d) <= (x * y - a * b) * (z - c) <= e * d) by nra.
  unfold e in *. nra.
Qed.

Section PerturbedRotation.
Variables e00 e01 e02 e10 e11 e12 e20 e21 e22 : R.
Variables m00 m01 m02 m10 m11 m12 m20 m21 m22 : R.
Variable d : R.

Let E := M3 (V3 (Fin e00) (Fin e01) (Fin e02))
            (V3 (Fin e10) (Fin e11) (Fin e12))
            (V3 (Fin e20) (Fin e21) (Fin e22)).
Let A := M3 (V3 (Fin m00) (Fin m01) (Fin m02))
            (V3 (Fin m10) (Fin m11) (Fin m12))
            (V3 (Fin m20) (Fin m21) (Fin m22)).

Hypothesis Horth : matmul (transpose E) E = identity3.
Hypothesis Hdet : det3 E = Fin 1.
Hypothesis Hd : 0 <= d.
Hypothesis Hclose : mwithin d A E.

Lemma entries_close :
  - d <= m00 - e00 <= d /\
  - d <= m01 - e01 <= d /\
  - d <= m02 - e02 <= d /\
  - d <= m10 - e10 <= d /\
  - d <= m11 - e11 <= d /\
  - d <= m12 - e12 <= d /\
  - d <= m20 - e20 <= d /\
  - d <= m21 - e21 <= d /\
  - d <= m22 - e22 <= d.
Proof.
  destruct Hclose as ((H00 & H01 & H02) & (H10 & H11 & H12) & (H20 & H21 & H22)).
  cbn in *.
  apply Rabs_le_between in H00, H01, H02, H10, H11, H12, H20, H21, H22.
  repeat split; lra.
Qed.

Lemma orthogonal_equations :
  e00 * e00 + e10 * e10 + e20 * e20 = 1 /\
  e00 * e01 + e10 * e11 + e20 * e21 = 0 /\
  e00 * e02 + e10 * e12 + e20 * e22 = 0 /\
  e01 * e00 + e11 * e10 + e21 * e20 = 0 /\
  e01 * e01 + e11 * e11 + e21 * e21 = 1 /\
  e01 * e02 + e11 * e12 + e21 * e22 = 0 /\
  e02 * e00 + e12 * e10 + e22 * e20 = 0 /\
  e02 * e01 + e12 * e11 + e22 * e21 = 0 /\
  e02 * e02 + e12 * e12 + e22 * e22 = 1.
Proof.
  unfold E, matmul, vecmat, dot3, identity3, f0, f1 in Horth.
  cbn [transpose col0 col1 col2 row0 row1 row2 vx vy vz fmul fadd] in Horth.
  injection Horth as H00 H01 H02 H10 H11 H12 H20 H21 H22.
  repeat split; assumption.
Qed.

Lemma entries_bounded :
  -1 <= e00 <= 1 /\
  -1 <= e01 <= 1 /\
  -1 <= e02 <= 1 /\
  -1 <= e10 <= 1 /\
  -1 <= e11 <= 1 /\
  -1 <= e12 <= 1 /\
  -1 <= e20 <= 1 /\
  -1 <= e21 <= 1 /\
  -1 <= e22 <= 1.
Proof.
  destruct orthogonal_equations as (H00 & _ & _ & _ & H11 & _ & _ & _ & H22).
  repeat split; nra.
Qed.

Lemma perturbed_orthogonal :
  mwithin (3 * (2 * d + d * d)) (matmul (transpose A) A) identity3.
Proof.
  destruct entries_close as (C00 & C01 & C02 & C10 & C11 & C12 & C20 & C21 & C22).
  destruct entries_bounded as (B00 & B01 & B02 & B10 & B11 & B12 & B20 & B21 & B22).
  destruct orthogonal_equations as (O00 & O01 & O02 & O10 & O11 & O12 & O20 & O21 & O22).
  pose proof (prod_perturb d e00 e00 m00 m00 B00 B00 C00 C00).
  pose proof (prod_perturb d e10 e10 m10 m10 B10 B10 C10 C10).
  pose proof (prod_perturb d e20 e20 m20 m20 B20 B20 C20 C20).
  pose proof (prod_perturb d e00 e01 m00 m01 B00 B01 C00 C01).
  pose proof (prod_perturb d e10 e11 m10 m11 B10 B11 C10 C11).
  pose proof (prod_perturb d e20 e21 m20 m21 B20 B21 C20 C21).
  pose proof (prod_perturb d e00 e02 m00 m02 B00 B02 C00 C02).
  pose proof (prod_perturb d e10 e12 m10 m12 B10 B12 C10 C12).
  pose proof (prod_perturb d e20 e22 m20 m22 B20 B22 C20 C22).
  pose proof (prod_perturb d e01 e01 m01 m01 B01 B01 C01 C01).
  pose proof (prod_perturb d e11 e11 m11 m11 B11 B11 C11 C11).
  pose proof (prod_perturb d e21 e21 m21 m21 B21 B21 C21 C21).
  pose proof (prod_perturb d e01 e02 m01 m02 B01 B02 C01 C02).
  pose proof (prod_perturb d e11 e12 m11 m12 B11 B12 C11 C12).
  pose proof (prod_perturb d e21 e22 m21 m22 B21 B22 C21 C22).
  pose proof (prod_perturb d e02 e02 m02 m02 B02 B02 C02 C02).
  pose proof (prod_perturb d e12 e12 m12 m12 B12 B12 C12 C12).
  pose proof (prod_perturb d e22 e22 m22 m22 B22 B22 C22 C22).
  unfold A, mwithin, vwithin, fwithin, matmul, vecmat, dot3, identity3, f0, f1.
  cbn [transpose col0 col1 col2 row0 row1 row2 vx vy vz fmul fadd].
  repeat split; apply Rabs_le; lra.
Qed.

Lemma perturbed_det :
  fwithin (6 * (3 * d + 3 * (d * d) + d * d * d)) (det3 A) (Fin 1).
Proof.
  destruct entries_close as (C00 & C01 & C02 & C10 & C11 & C12 & C20 & C21 & C22).
  destruct entries_bounded as (B00 & B01 & B02 & B10 & B11 & B12 & B20 & B21 & B22).
  pose proof (triple_perturb d e00 e11 e22 m00 m11 m22 Hd B00 B11 B22 C00 C11 C22).
  pose proof (triple_perturb d e00 e12 e21 m00 m12 m21 Hd B00 B12 B21 C00 C12 C21).
  pose proof (triple_perturb d e01 e12 e20 m01 m12 m20 Hd B01 B12 B20 C01 C12 C20).
  pose proof (triple_perturb d e01 e10 e22 m01 m10 m22 Hd B01 B10 B22 C01 C10 C22).
  pose proof (triple_perturb d e02 e10 e21 m02 m10 m21 Hd B02 B10 B21 C02 C10 C21).
  pose proof (triple_perturb d e02 e11 e20 m02 m11 m20 Hd B02 B11 B20 C02 C11 C20).
  unfold E, det3, dot3, cross in Hdet.
  cbn [row0 row1 row2 vx vy vz fmul fadd] in Hdet. rewrite !fsub_fin in Hdet.
  cbn [fmul fadd] in Hdet. injection Hdet as Hdet'.
  unfold A, fwithin, det3, dot3, cross.
  cbn [row0 row1 row2 vx vy vz fmul fadd]. rewrite !fsub_fin. cbn [fmul fadd].
  apply Rabs_le. lra.
Qed.

End PerturbedRotation.


Lemma fwithin_weaken (t1 t2 : R) (a b : npfloat) :
  t1 <= t2 -> fwithin t1 a b -> fwithin t2 a b.
Proof. intros H. destruct a, b; cbn; try tauto. lra. Qed.

Lemma vwithin_weaken (t1 t2 : R) (u v : vec3) :
  t1 <= t2 -> vwithin t1 u v -> vwithin t2 u v.
Proof. intros H (H1 & H2 & H3). repeat split; eapply fwithin_weaken; eassumption. Qed.

Lemma mwithin_weaken (t1 t2 : R) (a b : mat3) :
  t1 <= t2 -> mwithin t1 a b -> mwithin t2 a b.
Proof. intros H (H1 & H2 & H3). repeat split; eapply vwithin_weaken; eassumption. Qed.

Lemma round_rotmat_close (e00 e01 e02 e10 e11 e12 e20 e21 e22 : R) :
  let E := M3 (V3 (Fin e00) (Fin e01) (Fin e02))
              (V3 (Fin e10) (Fin e11) (Fin e12))
              (V3 (Fin e20) (Fin e21) (Fin e22)) in
  mwithin RotationSets.round8_tol (RotationSets.round_rotmat E) E.
Proof.
  cbv zeta. unfold mwithin, vwithin, fwithin, RotationSets.round_rotmat, vmap.
  cbn [row0 row1 row2 vx vy vz fround8].
  repeat split; apply round8_close.
Qed.

Lemma fill_rotmat_scale (w x y z k : R) :
  w * w + x * x + y * y + z * z <> 0 -> k <> 0 ->
  RotationSets.exact_rotmat (k * w) (k * x) (k * y) (k * z) = RotationSets.exact_rotmat w x y z.
Proof.
  intros Hnz Hk. unfold RotationSets.exact_rotmat.
  assert (Hnz' : k * w * (k * w) + k * x * (k * x) + k * y * (k * y) + k * z * (k * z) <> 0).
  { replace (k * w * (k * w) + k * x * (k * x) + k * y * (k * y) + k * z * (k * z))
      with (k * k * (w * w + x * x + y * y + z * z)) by ring.
    apply Rmult_integral_contrapositive_currified; [nra | exact Hnz]. }
  f_equal; f_equal; f_equal; field; split; assumption.
Qed.

(** C2: for every finite quaternion (w, x, y, z) that is not zero, whatever
    its length, [quats_to_rotmats] divides by the squared norm (the matrix does
    not change when the quaternion is scaled) and returns the matrix [M] that
    is, entry by entry, the rounding to 8 decimal places of a matrix [E] with
    [E.T @ E] the identity and determinant 1; so [M.T @ M] is the identity
    within 4e-8 and the determinant of [M] is 1 within 1e-7. *)
Theorem quats_to_rotmats_rotation (quaternions : list quat) (i : nat) (w x y z : R) :
  quaternions !! i = Some (Quat (Fin w) (Fin x) (Fin y) (Fin z)) ->
  w * w + x * x + y * y + z * z <> 0 ->
  exists E M : mat3,
    RotationSets.fill_rotmat (Quat (Fin w) (Fin x) (Fin y) (Fin z)) = E /\
    (forall k : R, k <> 0 ->
       RotationSets.fill_rotmat (Quat (Fin (k * w)) (Fin (k * x)) (Fin (k * y)) (Fin (k * z)))
       = E) /\
    matmul (transpose E) E = identity3 /\
    det3 E = Fin 1 /\
    RotationSets.quats_to_rotmats quaternions !! i = Some M /\
    M = RotationSets.round_rotmat E /\
    mwithin (1 / 200000000) M E /\
    mwithin (1 / 25000000) (matmul (transpose M) M) identity3 /\
    fwithin (1 / 10000000) (det3 M) (Fin 1).
Proof.
  intros Hi Hnz.
  exists (RotationSets.exact_rotmat w x y z), (RotationSets.round_rotmat (RotationSets.exact_rotmat w x y z)).
  pose proof (exact_rotmat_orthogonal w x y z Hnz) as Horth.
  pose proof (exact_rotmat_det w x y z Hnz) as Hdet.
  assert (Hclose : mwithin RotationSets.round8_tol (RotationSets.round_rotmat (RotationSets.exact_rotmat w x y z))
                           (RotationSets.exact_rotmat w x y z)) by apply round_rotmat_close.
  assert (Hd : 0 <= RotationSets.round8_tol) by (unfold RotationSets.round8_tol; lra).
  split; [now apply fill_rotmat_fin |].
  split.
  { intros k Hk. rewrite fill_rotmat_fin.
    - now apply fill_rotmat_scale.
    - replace (k * w * (k * w) + k * x * (k * x) + k * y * (k * y) + k * z * (k * z))
        with (k * k * (w * w + x * x + y * y + z * z)) by ring.
      apply Rmult_integral_contrapositive_currified; [nra | exact Hnz]. }
  split; [exact Horth |]. split; [exact Hdet |].
  split.
  { unfold RotationSets.quats_to_rotmats. rewrite list_lookup_fmap, Hi. cbn.
    unfold RotationSets.rotmat_of_quat. now rewrite fill_rotmat_fin. }
  split; [reflexivity |].
  split; [exact Hclose |].
  split.
  - eapply mwithin_weaken; [| exact (perturbed_orthogonal _ _ _ _ _ _ _ _ _ _ _ _ _ _ _ _ _ _ _ Horth Hclose)].
    unfold RotationSets.round8_tol. lra.
  - eapply fwithin_weaken; [| exact (perturbed_det _ _ _ _ _ _ _ _ _ _ _ _ _ _ _ _ _ _ _ Horth Hdet Hd Hclose)].
    unfold RotationSets.round8_tol. lra.
Qed.

Lemma quats_to_rotmats_rotation_witness :
  [Quat (Fin 2) (Fin 0) (Fin 0) (Fin 0)] !! 0%nat = Some (Quat (Fin 2) (Fin 0) (Fin 0) (Fin 0)) /\
  2 * 2 + 0 * 0 + 0 * 0 + 0 * 0 <> 0 /\
  exists M : mat3,
    RotationSets.quats_to_rotmats [Quat (Fin 2) (Fin 0) (Fin 0) (Fin 0)] !! 0%nat = Some M /\
    mwithin (1 / 25000000) (matmul (transpose M) M) identity3 /\
    fwithin (1 / 10000000) (det3 M) (Fin 1).
Proof.
  split; [reflexivity |]. split; [lra |].
  destruct (quats_to_rotmats_rotation [Quat (Fin 2) (Fin 0) (Fin 0) (Fin 0)] 0 2 0 0 0)
    as (E & M & _ & _ & _ & _ & HM & _ & _ & Horth & Hdet); [reflexivity | lra |].
  exists M. split; [exact HM |]. split; [exact Horth | exact Hdet].
Defined.

(* ================================================================= *)
(** ** RotationSets.random_rotation and RotationSets.local *)



Lemma fle_fin_false (x y : R) : y < x -> fle (Fin x) (Fin y) = false.
Proof. intros H. unfold fle. destruct (Rle_dec x y); [lra | reflexivity]. Qed.

Lemma choose_pair_step (fuel : nat) (u : RotationSets.stream) (pos : nat) :
  RotationSets.choose_pair (S fuel) u pos =
  if Rle_dec 1 (RotationSets.sqnorm_at u pos) then RotationSets.choose_pair fuel u (pos + 2)
  else Some (Fin (u pos), Fin (u (S pos)), Fin (RotationSets.sqnorm_at u pos), (pos + 2)%nat).
Proof.
  cbn [RotationSets.choose_pair fsquare fmul fadd]. unfold fle, RotationSets.sqnorm_at.
  destruct (Rle_dec _ _); reflexivity.
Qed.

(** The pair that is returned was drawn from the stream and lies inside the
    unit disc. *)
Lemma choose_pair_inside (fuel : nat) (u : RotationSets.stream) (pos : nat)
    (e1 e2 s : npfloat) (pos' : nat) :
  RotationSets.choose_pair fuel u pos = Some (e1, e2, s, pos') ->
  exists i : nat,
    e1 = Fin (u i) /\ e2 = Fin (u (S i)) /\ s = Fin (RotationSets.sqnorm_at u i) /\
    RotationSets.sqnorm_at u i < 1 /\ pos' = (i + 2)%nat.
Proof.
  revert pos. induction fuel as [| fuel IH]; intros pos H; [discriminate |].
  rewrite choose_pair_step in H.
  destruct (Rle_dec 1 (RotationSets.sqnorm_at u pos)) as [Hrej | Hacc].
  - exact (IH _ H).
  - injection H as <- <- <- <-. exists pos. repeat split; try reflexivity. lra.
Qed.

(** With [k] rejected pairs before the first accepted one, [k + 1] rounds
    are enough. *)
Lemma choose_pair_returns (k fuel : nat) (u : RotationSets.stream) (pos : nat) :
  (forall j : nat, (j < k)%nat -> 1 <= RotationSets.sqnorm_at u (pos + 2 * j)) ->
  RotationSets.sqnorm_at u (pos + 2 * k) < 1 ->
  (k < fuel)%nat ->
  RotationSets.choose_pair fuel u pos =
  Some (Fin (u (pos + 2 * k)%nat), Fin (u (S (pos + 2 * k))),
        Fin (RotationSets.sqnorm_at u (pos + 2 * k)), (pos + 2 * k + 2)%nat).
Proof.
  revert fuel pos. induction k as [| k IH]; intros fuel pos Hrej Hacc Hfuel.
  - destruct fuel as [| fuel]; [lia |]. rewrite choose_pair_step.
    replace (pos + 2 * 0)%nat with pos in * by lia.
    destruct (Rle_dec 1 (RotationSets.sqnorm_at u pos)); [lra | reflexivity].
  - destruct fuel as [| fuel]; [lia |]. rewrite choose_pair_step.
    pose proof (Hrej 0%nat ltac:(lia)) as H0.
    replace (pos + 2 * 0)%nat with pos in H0 by lia.
    destruct (Rle_dec 1 (RotationSets.sqnorm_at u pos)) as [_ | Hn]; [| lra].
    replace (pos + 2 * S k)%nat with (pos + 2 + 2 * k)%nat in * by lia.
    apply IH; [| exact Hacc | lia].
    intros j Hj. specialize (Hrej (S j) ltac:(lia)).
    now replace (pos + 2 + 2 * j)%nat with (pos + 2 * S j)%nat by lia.
Qed.

(** The point on the sphere for finite variates with [s2 > 0]. *)
Lemma point_on_sphere_fin (e1 e2 e3 e4 : R) :
  e1 * e1 + e2 * e2 < 1 -> 0 < e3 * e3 + e4 * e4 ->
  RotationSets.point_on_sphere (Fin e1) (Fin e2) (Fin (e1 * e1 + e2 * e2))
                               (Fin e3) (Fin e4) (Fin (e3 * e3 + e4 * e4))
  = Quat (Fin e1) (Fin e2)
         (Fin (e3 * sqrt ((1 - (e1 * e1 + e2 * e2)) / (e3 * e3 + e4 * e4))))
         (Fin (e4 * sqrt ((1 - (e1 * e1 + e2 * e2)) / (e3 * e3 + e4 * e4)))).
Proof.
  intros H1 H2. unfold RotationSets.point_on_sphere.
  rewrite fsub_fin, fdiv_fin by lra.
  rewrite fsqrt_fin by (apply Rlt_le, Rdiv_lt_0_compat; lra).
  reflexivity.
Qed.

Lemma sphere_point_unit_norm (e1 e2 e3 e4 : R) :
  e1 * e1 + e2 * e2 < 1 -> 0 < e3 * e3 + e4 * e4 ->
  quat_norm
    (Quat (Fin e1) (Fin e2)
          (Fin (e3 * sqrt ((1 - (e1 * e1 + e2 * e2)) / (e3 * e3 + e4 * e4))))
          (Fin (e4 * sqrt ((1 - (e1 * e1 + e2 * e2)) / (e3 * e3 + e4 * e4)))))
  = Fin 1.
Proof.
  intros H1 H2. unfold quat_norm. cbn [qw qx qy qz fsquare fmul fadd].
  set (s1 := e1 * e1 + e2 * e2) in *. set (s2 := e3 * e3 + e4 * e4) in *.
  set (r := sqrt ((1 - s1) / s2)).
  assert (Hr : r * r = (1 - s1) / s2).
  { apply sqrt_sqrt, Rlt_le, Rdiv_lt_0_compat; lra. }
  assert (Hsum : s1 + e3 * r * (e3 * r) + e4 * r * (e4 * r) = 1).
  { replace (s1 + e3 * r * (e3 * r) + e4 * r * (e4 * r))
      with (s1 + s2 * (r * r)) by (unfold s2; ring).
    rewrite Hr. field. lra. }
  rewrite Hsum, fsqrt_fin by lra. now rewrite sqrt_1.
Qed.


Lemma random_rotation_inside (fuel : nat) (u : RotationSets.stream) (pos : nat)
    (q : quat) (pos' : nat) :
  RotationSets.random_rotation fuel u pos = Some (q, pos') ->
  exists i1 i2 : nat,
    RotationSets.sqnorm_at u i1 < 1 /\ RotationSets.sqnorm_at u i2 < 1 /\
    q = RotationSets.point_on_sphere
          (Fin (u i1)) (Fin (u (S i1))) (Fin (RotationSets.sqnorm_at u i1))
          (Fin (u i2)) (Fin (u (S i2))) (Fin (RotationSets.sqnorm_at u i2)).
Proof.
  unfold RotationSets.random_rotation. intros H.
  destruct (RotationSets.choose_pair fuel u pos) as [[[[e1 e2] s1] p1] |] eqn:H1;
    [| discriminate].
  destruct (RotationSets.choose_pair fuel u p1) as [[[[e3 e4] s2] p2] |] eqn:H2;
    [| discriminate].
  injection H as <- <-.
  apply choose_pair_inside in H1 as (i1 & -> & -> & -> & Hs1 & _).
  apply choose_pair_inside in H2 as (i2 & -> & -> & -> & Hs2 & _).
  exists i1, i2. repeat split; assumption.
Qed.

(** The rotation angle of a drawn quaternion is finite and not negative. *)
Lemma random_rotation_angle (fuel : nat) (u : RotationSets.stream) (pos : nat)
    (q : quat) (pos' : nat) :
  RotationSets.random_rotation fuel u pos = Some (q, pos') ->
  exists w : R, qw q = Fin w /\ -1 < w < 1 /\
    fmul (Fin 2) (farccos (qw q)) = Fin (2 * acos w) /\ 0 <= 2 * acos w.
Proof.
  intros H. apply random_rotation_inside in H as (i1 & i2 & Hs1 & _ & ->).
  unfold RotationSets.sqnorm_at in Hs1. exists (u i1). cbn [RotationSets.point_on_sphere qw].
  assert (Hw : -1 < u i1 < 1) by (split; nra).
  split; [reflexivity |]. split; [exact Hw |].
  rewrite farccos_fin by lra. split; [reflexivity |].
  pose proof (acos_bound (u i1)). lra.
Qed.

(** C6: when, after [k1] rejected pairs, the pair (e1, e2) is accepted with
    s1 = e1^2 + e2^2 < 1 and, after [k2] more rejected pairs, the pair (e3, e4)
    is accepted with 0 < s2 = e3^2 + e4^2 < 1, [random_rotation] returns the
    quaternion (e1, e2, e3 * sqrt((1 - s1) / s2), e4 * sqrt((1 - s1) / s2)),
    and its norm is exactly 1. *)
Theorem random_rotation_unit_quaternion
    (fuel k1 k2 : nat) (u : RotationSets.stream) (pos : nat) :
  let i1 := (pos + 2 * k1)%nat in
  let i2 := (i1 + 2 + 2 * k2)%nat in
  let e1 := u i1 in let e2 := u (S i1) in
  let e3 := u i2 in let e4 := u (S i2) in
  let s1 := e1 * e1 + e2 * e2 in
  let s2 := e3 * e3 + e4 * e4 in
  (forall j : nat, (j < k1)%nat -> 1 <= RotationSets.sqnorm_at u (pos + 2 * j)) ->
  (forall j : nat, (j < k2)%nat -> 1 <= RotationSets.sqnorm_at u (i1 + 2 + 2 * j)) ->
  s1 < 1 -> s2 < 1 -> 0 < s2 ->
  (k1 < fuel)%nat -> (k2 < fuel)%nat ->
  exists q : quat,
    RotationSets.random_rotation fuel u pos = Some (q, (i2 + 2)%nat) /\
    q = Quat (Fin e1) (Fin e2) (Fin (e3 * sqrt ((1 - s1) / s2)))
             (Fin (e4 * sqrt ((1 - s1) / s2))) /\
    quat_norm q = Fin 1.
Proof.
  cbv zeta. intros Hrej1 Hrej2 Hs1 Hs2 Hpos Hf1 Hf2.
  eexists. split; [| split; [reflexivity |]].
  - unfold RotationSets.random_rotation.
    rewrite (choose_pair_returns k1 fuel u pos Hrej1 Hs1 Hf1).
    rewrite (choose_pair_returns k2 fuel u (pos + 2 * k1 + 2) Hrej2 Hs2 Hf2).
    unfold RotationSets.sqnorm_at. now rewrite point_on_sphere_fin.
  - now apply sphere_point_unit_norm.
Qed.

(** *** local *)




Lemma random_rotation_unit_quaternion_witness :
  exists q : quat,
    RotationSets.random_rotation 1 (fun _ => 1 / 2) 0 = Some (q, 4%nat) /\
    quat_norm q = Fin 1.
Proof.
  destruct (random_rotation_unit_quaternion 1 0 0 (fun _ => 1 / 2) 0)
    as (q & Hq & _ & Hn); try lia; try lra; try (intros j Hj; lia).
  exists q. split; [exact Hq | exact Hn].
Defined.




(* ================================================================= *)
(** ** BackboneRotator and Translator *)







Lemma BackboneRotator_call_ok (self : BackboneRotator.t) (torsions : list npfloat)
    (s : coords) :
  length torsions = BackboneRotator.ndofs self ->
  BackboneRotator.call self torsions s =
  for_each (zip4 (map deg2rad (rev torsions)) (BackboneRotator._origins self)
                 (BackboneRotator._aligners self) (BackboneRotator._atoms_to_rotate self))
           BackboneRotator.rotate_one (BackboneRotator._starting_coor self).
Proof.
  intros H. unfold BackboneRotator.call. rewrite H, Nat.eqb_refl. reflexivity.
Qed.



(** *** Parameter vectors of the wrong length *)

Lemma BackboneRotator_call_wrong_length (self : BackboneRotator.t)
    (torsions : list npfloat) (s : coords) :
  length torsions <> BackboneRotator.ndofs self ->
  BackboneRotator.call self torsions s = (inl AssertionError, s).
Proof.
  intros H. unfold BackboneRotator.call.
  apply Nat.eqb_neq in H. rewrite H. reflexivity.
Qed.

Lemma broadcast_add_wrong_length (coor : coords) (trans : list npfloat) :
  length trans <> 3%nat -> length trans <> 1%nat ->
  broadcast_add coor trans = inl ValueError_broadcast.
Proof.
  intros H3 H1. destruct trans as [| a [| b [| c [| d trans]]]]; cbn in *;
    try reflexivity; congruence.
Qed.

(** C8 (amended): the backbone rotator fails with an assertion error, and
    changes nothing, when the number of torsions differs from its degrees of
    freedom; the ligand translator declares no number of degrees of freedom
    and checks nothing itself: the addition raises NumPy's broadcasting error
    for a vector of a length other than 3 and 1, a vector of length 3 is added
    to every atom, and a vector of length 1 is broadcast to the three
    coordinates of every atom. *)
Theorem wrong_length_parameter_vector :
  (forall (self : BackboneRotator.t) (torsions : list npfloat) (s : coords),
     length torsions <> BackboneRotator.ndofs self ->
     BackboneRotator.call self torsions s = (inl AssertionError, s)) /\
  (forall (self : Translator.t) (trans : list npfloat) (s : coords),
     length trans <> 3%nat -> length trans <> 1%nat ->
     Translator.call self trans s = (inl ValueError_broadcast, s)) /\
  (forall (self : Translator.t) (a b c : npfloat) (s : coords),
     Translator.call self [a; b; c] s
     = (inr tt, map (fun v => vadd v (V3 a b c)) (Translator.coor_to_translate self))) /\
  (forall (self : Translator.t) (a : npfloat) (s : coords),
     Translator.call self [a] s
     = (inr tt, map (fun v => vadd v (V3 a a a)) (Translator.coor_to_translate self))).
Proof.
  split; [exact BackboneRotator_call_wrong_length |].
  split; [| split; reflexivity].
  intros self trans s H3 H1. unfold Translator.call, bind, lift.
  now rewrite broadcast_add_wrong_length.
Qed.

Lemma wrong_length_parameter_vector_witness :
  let self := BackboneRotator.Build 2 [V3 f1 f0 f0] [] [] [] in
  length [Fin 30] <> BackboneRotator.ndofs self /\
  BackboneRotator.call self [Fin 30] [V3 f0 f0 f0] = (inl AssertionError, [V3 f0 f0 f0]).
Proof.
  cbv zeta. split; [cbn; lia |].
  apply (proj1 wrong_length_parameter_vector). cbn. lia.
Defined.

(** A translation vector of length 1 given to the translator of a ligand of
    one atom: no exception, every coordinate is shifted. *)
Lemma Translator_length_one_is_applied :
  let self := Translator.Build [V3 (Fin 0) (Fin 0) (Fin 0)] in
  length [Fin 5] <> 3%nat /\
  Translator.call self [Fin 5] [V3 (Fin 0) (Fin 0) (Fin 0)]
  = (inr tt, [V3 (Fin (0 + 5)) (Fin (0 + 5)) (Fin (0 + 5))]).
Proof. cbv zeta. split; [cbn; lia | reflexivity]. Qed.

(* ================================================================= *)
(** ** Radians and degrees *)


Lemma cos_period_Z (x : R) (m : Z) : cos (x + 2 * IZR m * PI) = cos x.
Proof.
  destruct (Z_le_gt_dec 0 m) as [Hm | Hm].
  - rewrite <- (Z2Nat.id m) by exact Hm. rewrite <- INR_IZR_INZ. apply cos_period.
  - rewrite <- (cos_period (x + 2 * IZR m * PI) (Z.to_nat (- m))).
    rewrite INR_IZR_INZ, Z2Nat.id by lia. rewrite opp_IZR. f_equal. ring.
Qed.

Lemma cos_int_PI_one (k : Z) : cos (IZR k * PI) = 1 -> exists m : Z, k = (2 * m)%Z.
Proof.
  intros H. destruct (Z.Even_or_Odd k) as [[m ->] | [m ->]]; [now exists m |].
  exfalso. rewrite plus_IZR, mult_IZR in H.
  replace ((2 * IZR m + 1) * PI) with (PI + 2 * IZR m * PI) in H by ring.
  rewrite cos_period_Z, cos_PI in H. lra.
Qed.

(** Two angles with the same cosine and the same sine differ by a whole
    number of turns. *)
Lemma same_cos_sin (a b : R) :
  cos a = cos b -> sin a = sin b -> exists m : Z, a - b = 2 * PI * IZR m.
Proof.
  intros Hc Hs.
  pose proof (sin2_cos2 b) as Hb. unfold Rsqr in Hb.
  assert (Hsin : sin (a - b) = 0) by (rewrite sin_minus, Hc, Hs; ring).
  assert (Hcos : cos (a - b) = 1) by (rewrite cos_minus, Hc, Hs; lra).
  apply sin_eq_0_0 in Hsin as [k Hk]. rewrite Hk in Hcos.
  apply cos_int_PI_one in Hcos as [m ->]. exists m.
  rewrite Hk, mult_IZR. ring.
Qed.

Lemma Rz_fin_inj (a b : R) :
  Rz (Fin a) = Rz (Fin b) -> cos a = cos b /\ sin a = sin b.
Proof. unfold Rz. cbn. intros H. injection H as Hc _ Hs _. split; congruence. Qed.

Lemma deg2rad_fin (a : R) : deg2rad (Fin a) = Fin (a * (PI / 180)).
Proof. reflexivity. Qed.

(** C9: [BondRotator.__call__] passes its angle to [Rz] as it is (radians),
    the chi, CB-angle, bisecting-angle and backbone rotators pass
    [deg2rad(angle)]; for every angle [a] that is not a multiple of
    2 pi / (1 - pi / 180), the one angle where both agree up to whole turns,
    [Rz(a)] and [Rz(deg2rad(a))] differ. *)
Theorem BondRotator_radians_others_degrees (a : R) :
  (forall k : Z, a * (1 - PI / 180) <> 2 * PI * IZR k) ->
  (forall self : BondRotator.t,
     BondRotator.rotation self (Fin a) = matmul (BondRotator._forward self) (Rz (Fin a))) /\
  (forall self : ChiRotator.t,
     ChiRotator.rotation self (Fin a)
     = matmul (ChiRotator._forward self) (Rz (Fin (a * (PI / 180))))) /\
  (forall self : CBAngleRotator.t,
     CBAngleRotator.rotation self (Fin a)
     = matmul (CBAngleRotator._forward self) (Rz (Fin (a * (PI / 180))))) /\
  (forall self : BisectingAngleRotator.t,
     BisectingAngleRotator.rotation self (Fin a)
     = matmul (BisectingAngleRotator._forward self) (Rz (Fin (a * (PI / 180))))) /\
  (forall aligner : ZAxisAligner.t,
     BackboneRotator.rotation aligner (deg2rad (Fin a))
     = matmul (matmul (ZAxisAligner.forward_rotation aligner) (Rz (Fin (a * (PI / 180)))))
              (ZAxisAligner.backward_rotation aligner)) /\
  Rz (Fin a) <> Rz (Fin (a * (PI / 180))).
Proof.
  intros Hno. repeat (split; [reflexivity |]).
  intros Heq. apply Rz_fin_inj in Heq as [Hc Hs].
  destruct (same_cos_sin _ _ Hc Hs) as [m Hm].
  apply (Hno m). rewrite <- Hm. ring.
Qed.

Lemma one_is_no_coincidence (k : Z) : 1 * (1 - PI / 180) <> 2 * PI * IZR k.
Proof.
  pose proof PI_4 as H4. pose proof PI2_3_2 as H3.
  destruct (Z_lt_le_dec k 0) as [Hneg | Hnn].
  - assert (IZR k <= -1) by (apply IZR_le; lia). nra.
  - destruct (Z.eq_dec k 0%Z) as [-> | Hk]; [lra |].
    assert (1 <= IZR k) by (apply IZR_le; lia). nra.
Qed.

Lemma BondRotator_radians_others_degrees_witness :
  (forall k : Z, 1 * (1 - PI / 180) <> 2 * PI * IZR k) /\
  Rz (Fin 1) <> Rz (Fin (1 * (PI / 180))).
Proof.
  split; [exact one_is_no_coincidence |].
  apply (BondRotator_radians_others_degrees 1 one_is_no_coincidence).
Defined.

(* ================================================================= *)
(** ** CBAngleRotator *)


Lemma length_indices_where {A : Type} (p : A -> bool) (l : list A) (i : nat) :
  length (indices_where p l i) = length (List.filter p l).
Proof.
  revert i. induction l as [| x l IH]; intros i; [reflexivity |].
  cbn. destruct (p x); cbn; now rewrite IH.
Qed.

Lemma length_select_angle (names : list string) :
  length (select_name names angle_names true)
  = (count_name names "CA" + count_name names "CB" + count_name names "CG")%nat.
Proof.
  unfold select_name, count_name. rewrite length_indices_where.
  induction names as [| n names IH]; [reflexivity |].
  cbn [List.filter angle_names existsb].
  rewrite (String.eqb_sym "CA" n), (String.eqb_sym "CB" n), (String.eqb_sym "CG" n).
  destruct (String.eqb_spec n "CA") as [-> | H1].
  { cbn. cbn in IH. rewrite IH. lia. }
  destruct (String.eqb_spec n "CB") as [-> | H2].
  { cbn. cbn in IH. rewrite IH. lia. }
  destruct (String.eqb_spec n "CG") as [-> | H3]; cbn; cbn in IH; rewrite IH; lia.
Qed.

(** The alignment never raises the configuration error. *)
Lemma ZAxisAligner_init_not_RuntimeError (axis : vec3) :
  ZAxisAligner.init axis <> inl RuntimeError.
Proof.
  unfold ZAxisAligner.init. cbv zeta.
  destruct (negb _); discriminate.
Qed.

Lemma np_take_not_RuntimeError (arr : coords) (sel : list nat) :
  np_take arr sel <> inl RuntimeError.
Proof. unfold np_take. destruct (mapM _ _); discriminate. Qed.

Lemma or_raise_IndexError_not_RuntimeError {A : Type} (o : option A) :
  or_raise IndexError o <> inl RuntimeError.
Proof. destruct o; discriminate. Qed.

Lemma CBAngleRotator_init_state (names : list string) (s : coords) :
  (CBAngleRotator.init names s).2 = s.
Proof.
  unfold CBAngleRotator.init, bind, lift, raise, ret, extract_coor, get_xyz.
  destruct (negb _); [reflexivity |].
  repeat match goal with
         | |- context [match ?x with inl _ => _ | inr _ => _ end] => destruct x
         | |- context [match ?x with (_, _) => _ end] => destruct x eqn:?
         end; try reflexivity.
  all: cbn in *; congruence.
Qed.

Lemma bind_raises {S A B : Type} (m : M S A) (k : A -> M S B) (s : S) (e : exn) :
  (bind m k s).1 = inl e ->
  (m s).1 = inl e \/ exists (a : A) (s' : S), (k a s').1 = inl e.
Proof.
  unfold bind. destruct (m s) as [[e' | a] s'] eqn:Hm; simpl.
  - intros H. left. injection H as ->. reflexivity.
  - intros H. right. exists a, s'. exact H.
Qed.

Lemma get_xyz_not_RuntimeError (sel : list nat) (s : coords) :
  (get_xyz sel s).1 <> inl RuntimeError.
Proof. apply np_take_not_RuntimeError. Qed.

(** A lifted computation raises what the computation raises. *)
Lemma lift_not_RuntimeError {A : Type} (r : exn + A) (s : coords) :
  r <> inl RuntimeError -> (lift r s).1 <> inl RuntimeError.
Proof. intros H. exact H. Qed.

Lemma CBAngleRotator_init_RuntimeError (names : list string) (s : coords) :
  (CBAngleRotator.init names s).1 = inl RuntimeError <->
  length (select_name names angle_names true) <> 3%nat.
Proof.
  unfold CBAngleRotator.init. fold angle_names.
  destruct (Nat.eqb_spec (length (select_name names angle_names true)) 3) as [Heq | Hne];
    cbn [negb].
  - split; [| contradiction]. intros H. exfalso.
    apply bind_raises in H as [H | (cb & s1 & H)];
      [exact (get_xyz_not_RuntimeError _ _ H) |].
    apply bind_raises in H as [H | (origin & s2 & H)];
      [exact (lift_not_RuntimeError _ _ (or_raise_IndexError_not_RuntimeError _) H) |].
    apply bind_raises in H as [H | (c & s3 & H)];
      [exact (get_xyz_not_RuntimeError _ _ H) |].
    apply bind_raises in H as [H | (ac & s4 & H)];
      [exact (get_xyz_not_RuntimeError _ _ H) |].
    apply bind_raises in H as [H | (a0 & s5 & H)];
      [exact (lift_not_RuntimeError _ _ (or_raise_IndexError_not_RuntimeError _) H) |].
    apply bind_raises in H as [H | (a1 & s6 & H)];
      [exact (lift_not_RuntimeError _ _ (or_raise_IndexError_not_RuntimeError _) H) |].
    apply bind_raises in H as [H | (al & s7 & H)];
      [exact (lift_not_RuntimeError _ _ (ZAxisAligner_init_not_RuntimeError _) H) |].
    discriminate H.
  - split; [intros _; exact Hne | reflexivity].
Qed.

(** C7 (amended): [CBAngleRotator.__init__] fails with the configuration
    error (RuntimeError) if and only if the number of atoms named CA, CB or CG
    in the residue is not 3; with exactly one atom of each name it does not
    fail with the configuration error; and it never changes the
    coordinates. *)
Theorem CBAngleRotator_init_configuration_error (names : list string) (s : coords) :
  let n := length (select_name names ["CA"; "CB"; "CG"]%string true) in
  n = (count_name names "CA" + count_name names "CB" + count_name names "CG")%nat /\
  ((CBAngleRotator.init names s).1 = inl RuntimeError <-> n <> 3%nat) /\
  (count_name names "CA" = 1%nat -> count_name names "CB" = 1%nat ->
   count_name names "CG" = 1%nat ->
   (CBAngleRotator.init names s).1 <> inl RuntimeError) /\
  (CBAngleRotator.init names s).2 = s.
Proof.
  cbv zeta. fold angle_names.
  split; [apply length_select_angle |].
  split; [apply CBAngleRotator_init_RuntimeError |].
  split; [| apply CBAngleRotator_init_state].
  intros HA HB HG H. apply CBAngleRotator_init_RuntimeError in H.
  apply H. rewrite length_select_angle. lia.
Qed.


Lemma Fin_eq (x y : R) : x = y -> Fin x = Fin y.
Proof. now intros ->. Qed.

(** The parallel-to-Z case, stated on finite components. *)
Lemma ZAxisAligner_init_z_parallel_fin (x y z : R) :
  x = 0 -> y = 0 ->
  ZAxisAligner.init (V3 (Fin x) (Fin y) (Fin z)) = inl (ValueError_axis (V3 NaN NaN NaN)).
Proof. intros -> ->. apply ZAxisAligner_init_z_parallel. Qed.

Lemma planar_residue_fails :
  (CBAngleRotator.init planar_names planar_coor).1
  = inl (ValueError_axis (V3 NaN NaN NaN)).
Proof.
  unfold CBAngleRotator.init, planar_names, planar_coor.
  cbn -[ZAxisAligner.init norm vdiv cross].
  match goal with
  | |- context [cross ?a ?b] =>
      assert (Hc : cross a b = V3 (Fin 0) (Fin 0) (Fin 1))
        by (unfold cross, vsub, fsub; cbn [vx vy vz fmul fadd fneg];
            f_equal; apply Fin_eq; ring)
  end.
  rewrite Hc.
  assert (Hn : norm (V3 (Fin 0) (Fin 0) (Fin 1)) = Fin 1).
  { unfold norm, dot3. cbn [vx vy vz fmul fadd]. rewrite fsqrt_fin by lra.
    apply Fin_eq. replace (0 * 0 + 0 * 0 + 1 * 1) with 1 by ring. apply sqrt_1. }
  rewrite Hn. unfold vdiv, vmap. cbn [vx vy vz]. rewrite !fdiv_fin by lra.
  rewrite ZAxisAligner_init_z_parallel_fin by lra. reflexivity.
Qed.

Lemma CBAngleRotator_init_configuration_error_witness :
  count_name planar_names "CA" = 1%nat /\ count_name planar_names "CB" = 1%nat /\
  count_name planar_names "CG" = 1%nat /\
  (CBAngleRotator.init planar_names planar_coor).1 <> inl RuntimeError.
Proof.
  repeat split; try reflexivity.
  apply (CBAngleRotator_init_configuration_error planar_names planar_coor); reflexivity.
Defined.

(** A residue with exactly one CA, CB and CG whose three atoms lie in the XY
    plane: the construction fails (with the ValueError of the alignment); a
    residue with two CA, one CB and no CG: no configuration error. *)
Lemma CBAngleRotator_init_counterexample :
  (count_name planar_names "CA" = 1%nat /\ count_name planar_names "CB" = 1%nat /\
   count_name planar_names "CG" = 1%nat /\
   (CBAngleRotator.init planar_names planar_coor).1
   = inl (ValueError_axis (V3 NaN NaN NaN)))
  /\
  (count_name doubled_names "CA" = 2%nat /\ count_name doubled_names "CG" = 0%nat /\
   (CBAngleRotator.init doubled_names planar_coor).1 <> inl RuntimeError).
Proof.
  split.
  - repeat split; try reflexivity. apply planar_residue_fails.
  - repeat split; try reflexivity.
    intros H. apply CBAngleRotator_init_RuntimeError in H. apply H. reflexivity.
Qed.

(* ================================================================= *)
(** ** BondRotator *)


(** *** Index assignment *)

Lemma scatter_length (l : list (nat * vec3)) (arr : coords) :
  length (fold_left (fun acc (iv : nat * vec3) => <[iv.1 := iv.2]> acc) l arr)
  = length arr.
Proof.
  revert arr. induction l as [| iv l IH]; intros arr; [reflexivity |].
  cbn [fold_left]. rewrite IH. apply length_insert.
Qed.

Lemma scatter_lookup_other (l : list (nat * vec3)) (arr : coords) (i : nat) :
  (forall iv, iv ∈ l -> iv.1 <> i) ->
  fold_left (fun acc (iv : nat * vec3) => <[iv.1 := iv.2]> acc) l arr !! i = arr !! i.
Proof.
  revert arr. induction l as [| iv l IH]; intros arr H; [reflexivity |].
  cbn [fold_left]. rewrite IH.
  - apply list_lookup_insert_ne. apply H. left.
  - intros iv' Hin. apply H. now right.
Qed.

Lemma np_put_frame (arr : coords) (sel : list nat) (rows new : coords) :
  np_put arr sel rows = inr new ->
  length new = length arr /\
  forall i : nat, i ∉ sel -> new !! i = arr !! i.
Proof.
  unfold np_put. cbv zeta.
  destruct (negb (length _ =? length sel)%nat); [discriminate |].
  destruct (negb (forallb _ sel)); [discriminate |].
  intros H. injection H as <-. split; [apply scatter_length |].
  intros i Hi. apply scatter_lookup_other.
  intros [j v] Hin Heq. cbn in Heq. subst j. apply Hi.
  apply elem_of_zip_l in Hin. exact Hin.
Qed.

Lemma np_put_returns (arr : coords) (sel : list nat) (rows : coords) :
  length rows = length sel ->
  Forall (fun i => (i < length arr)%nat) sel ->
  exists new, np_put arr sel rows = inr new.
Proof.
  intros Hlen Hsel. unfold np_put. cbv zeta.
  assert (Hall : forallb (fun i => (i <? length arr)%nat) sel = true).
  { apply forallb_forall. intros i Hi. apply Nat.ltb_lt.
    rewrite Forall_forall in Hsel. apply Hsel. now apply list_elem_of_In. }
  destruct rows as [| r [| r' rows]].
  - rewrite Hlen, Nat.eqb_refl, Hall. cbn [negb]. eauto.
  - rewrite length_replicate, Nat.eqb_refl, Hall. cbn [negb]. eauto.
  - rewrite Hlen, Nat.eqb_refl, Hall. cbn [negb]. eauto.
Qed.

Lemma np_take_spec (arr : coords) (sel : list nat) (rows : coords) :
  np_take arr sel = inr rows ->
  length rows = length sel /\ Forall (fun i => (i < length arr)%nat) sel.
Proof.
  unfold np_take. destruct (mapM _ sel) as [r |] eqn:H; [| discriminate].
  intros Heq. injection Heq as <-. apply mapM_Some_1 in H.
  split; [symmetry; eapply Forall2_length, H |].
  induction H as [| i v sel r Hi _ IH]; constructor; [| exact IH].
  now apply lookup_lt_Some in Hi.
Qed.


(** *** The traversal of the connectivity graph *)

Lemma indices_where_spec {A : Type} (p : A -> bool) (l : list A) (i x : nat) :
  x ∈ indices_where p l i ->
  exists (j : nat) (y : A), x = (i + j)%nat /\ l !! j = Some y /\ p y = true.
Proof.
  revert i. induction l as [| a l IH]; intros i H; cbn in H.
  - now apply elem_of_nil in H.
  - destruct (p a) eqn:Hp.
    + apply elem_of_cons in H as [-> | H].
      * exists 0%nat, a. repeat split; [lia | assumption].
      * apply IH in H as (j & y & -> & Hj & Hy). exists (S j), y.
        repeat split; [lia | assumption | assumption].
    + apply IH in H as (j & y & -> & Hj & Hy). exists (S j), y.
      repeat split; [lia | assumption | assumption].
Qed.

Lemma flatnonzero_spec (row : list bool) (b : nat) :
  b ∈ flatnonzero row -> row !! b = Some true.
Proof.
  intros H. apply indices_where_spec in H as (j & y & -> & Hj & Hy).
  cbn in *. now subst y.
Qed.

Lemma mem_spec (b : nat) (atoms : list nat) : mem b atoms = true <-> b ∈ atoms.
Proof.
  unfold mem. rewrite existsb_exists, list_elem_of_In. split.
  - intros (x & Hx & Heq). apply Nat.eqb_eq in Heq. now subst.
  - intros H. exists b. split; [exact H | apply Nat.eqb_refl].
Qed.

Lemma find_neighbours_unfold (fuel : nat) (conn : list (list bool)) (root curr : nat)
    (st : list nat * nat) :
  BondRotator._find_neighbours_recursively (S fuel) conn root curr st =
  match conn !! curr with
  | None => Some (inl IndexError)
  | Some row =>
      fold_left (dfs_step fuel conn root) (flatnonzero row)
                (Some (inr (st.1 ++ [curr], st.2)))
  end.
Proof. reflexivity. Qed.

Lemma dfs_fold_stuck (fuel : nat) (conn : list (list bool)) (root : nat)
    (bs : list nat) (acc : option (exn + list nat * nat)) (res : list nat * nat) :
  fold_left (dfs_step fuel conn root) bs acc = Some (inr res) ->
  exists st, acc = Some (inr st).
Proof.
  revert acc. induction bs as [| b bs IH]; intros acc H; cbn in H.
  - eauto.
  - apply IH in H as [st H]. destruct acc as [[e | st'] |]; cbn in H; try discriminate.
    eauto.
Qed.

Section Soundness.
Variables (conn : list (list bool)) (root start : nat).

Lemma find_neighbours_sound (fuel : nat) :
  forall (curr : nat) (st res : list nat * nat),
    BondRotator._find_neighbours_recursively fuel conn root curr st = Some (inr res) ->
    sound conn root start st.1 -> reachable conn root start curr ->
    sound conn root start res.1.
Proof.
  induction fuel as [| fuel IH]; intros curr st res H Hst Hcurr; [discriminate |].
  rewrite find_neighbours_unfold in H.
  destruct (conn !! curr) as [row |] eqn:Hrow; [| discriminate].
  assert (Hbonds : forall b, b ∈ flatnonzero row -> bonded conn curr b).
  { intros b Hb. exists row. split; [exact Hrow | now apply flatnonzero_spec]. }
  assert (Hinit : sound conn root start (st.1 ++ [curr])).
  { destruct Hst as [Hroot Hall]. split.
    - apply elem_of_app. now left.
    - intros a Ha. apply elem_of_app in Ha as [Ha | Ha]; [now apply Hall |].
      apply list_elem_of_singleton in Ha as ->. now right. }
  clear Hrow Hst. revert H Hinit Hbonds.
  generalize (st.1 ++ [curr]) as atoms. generalize (st.2) as found.
  generalize (flatnonzero row) as bs. clear st row.
  induction bs as [| b bs IHbs]; intros found atoms H Hatoms Hbonds.
  - cbn in H. injection H as <-. exact Hatoms.
  - cbn [fold_left] in H.
    destruct (dfs_fold_stuck _ _ _ _ _ _ H) as [[atoms' found'] Hstep].
    rewrite Hstep in H.
    apply (IHbs _ _ H); [| intros b' Hb'; apply Hbonds; now right].
    unfold dfs_step in Hstep. cbv zeta in Hstep.
    destruct (mem b atoms) eqn:Hmem.
    + injection Hstep as <- _. exact Hatoms.
    + apply (IH b _ _ Hstep); [exact Hatoms |].
      apply (reach_step conn root start curr b Hcurr).
      * apply Hbonds. now left.
      * intros ->. destruct Hatoms as [Hroot _].
        apply mem_spec in Hroot. congruence.
Qed.
End Soundness.


Lemma ebind_inr {A B : Type} (r : exn + A) (k : A -> exn + B) (b : B) :
  ebind r k = inr b -> exists a, r = inr a /\ k a = inr b.
Proof. destruct r as [e | a]; cbn; [discriminate | eauto]. Qed.

Lemma BondRotator_align_spec (a1 a2 : string) (root : nat) (conn : list (list bool))
    (atoms : list nat) (found : nat) (coor : coords) (rot : BondRotator.t) :
  BondRotator.align a1 a2 root conn atoms found coor = inr rot ->
  BondRotator.atoms_to_rotate rot = atoms /\
  length (BondRotator._coor_to_rotate rot) = length atoms /\
  Forall (fun i => (i < length coor)%nat) atoms.
Proof.
  unfold BondRotator.align. intros H.
  apply ebind_inr in H as (rows & Hrows & H).
  apply ebind_inr in H as (t & _ & H).
  apply ebind_inr in H as (c1 & _ & H).
  apply ebind_inr in H as (aligner & _ & H).
  injection H as <-. cbn.
  apply np_take_spec in Hrows as [Hlen Hall].
  split; [reflexivity |]. split; [| exact Hall].
  now rewrite !length_map.
Qed.

Lemma BondRotator_init_spec (fuel : nat) (names : list string) (conn : list (list bool))
    (coor : coords) (a1 a2 : string) (rot : BondRotator.t) :
  BondRotator.init fuel names conn coor a1 a2 = Some (inr rot) ->
  exists (root start : nat) (found : nat),
    index_of names a1 = Some root /\ index_of names a2 = Some start /\
    BondRotator._find_neighbours_recursively fuel conn root start ([root], 0%nat)
    = Some (inr (BondRotator.atoms_to_rotate rot, found)) /\
    length (BondRotator._coor_to_rotate rot) = length (BondRotator.atoms_to_rotate rot) /\
    Forall (fun i => (i < length coor)%nat) (BondRotator.atoms_to_rotate rot).
Proof.
  unfold BondRotator.init. intros H.
  destruct (index_of names a1) as [root |]; [| discriminate].
  destruct (index_of names a2) as [start |]; [| discriminate].
  destruct (BondRotator._find_neighbours_recursively fuel conn root start ([root], 0%nat))
    as [[e | [atoms found]] |] eqn:Hdfs; try discriminate.
  injection H as H. apply BondRotator_align_spec in H as (Hat & Hlen & Hall).
  exists root, start, found. rewrite Hat. repeat split; assumption.
Qed.

(** C4: for every angle, [BondRotator.__call__] returns a new array of the
    length of the ligand's coordinates and leaves the ligand's coordinates as
    they are; every atom that is not the root and is not reached from the
    second atom without passing through the root has, in the returned array,
    the ligand's current coordinates. *)
Theorem BondRotator_call_frame (fuel : nat) (names : list string)
    (conn : list (list bool)) (coor0 : coords) (a1 a2 : string) (rot : BondRotator.t) :
  BondRotator.init fuel names conn coor0 a1 a2 = Some (inr rot) ->
  exists root start : nat,
    index_of names a1 = Some root /\ index_of names a2 = Some start /\
    forall (angle : npfloat) (coor : coords),
      length coor = length coor0 ->
      exists new : coords,
        BondRotator.call rot angle coor = (inr new, coor) /\
        length new = length coor /\
        forall i : nat,
          ~ BondRotator.moved conn root start i -> new !! i = coor !! i.
Proof.
  intros Hinit.
  apply BondRotator_init_spec in Hinit
    as (root & start & found & Hroot & Hstart & Hdfs & Hlen & Hall).
  exists root, start. split; [exact Hroot |]. split; [exact Hstart |].
  intros angle coor Hcoor.
  unfold BondRotator.call, bind, get, lift. cbv zeta.
  destruct (np_put_returns coor (BondRotator.atoms_to_rotate rot)
              (map (fun v => vadd (matvec (BondRotator.rotation rot angle) v)
                                  (BondRotator._t rot))
                   (BondRotator._coor_to_rotate rot))) as [new Hnew].
  { now rewrite length_map. }
  { now rewrite Hcoor. }
  exists new. rewrite Hnew. split; [reflexivity |].
  apply np_put_frame in Hnew as [Hl Hframe]. split; [exact Hl |].
  intros i Hi. apply Hframe. intros Hin. apply Hi.
  apply (find_neighbours_sound conn root start) in Hdfs.
  - destruct Hdfs as [_ Hall']. now apply Hall'.
  - split; [now apply list_elem_of_singleton |].
    intros a Ha. apply list_elem_of_singleton in Ha as ->. now left.
  - constructor.
Qed.


(** *** The traversal returns: the number of atoms bounds its depth *)

Lemma filter_length_le {A : Type} (p q : A -> bool) (l : list A) :
  (forall x, p x = true -> q x = true) ->
  (length (List.filter p l) <= length (List.filter q l))%nat.
Proof.
  intros H. induction l as [| x l IH]; [reflexivity |]. cbn.
  destruct (p x) eqn:Hp.
  - rewrite (H x Hp). cbn. lia.
  - destruct (q x); cbn; lia.
Qed.

Lemma filter_length_lt {A : Type} (p q : A -> bool) (l : list A) (x : A) :
  (forall y, p y = true -> q y = true) ->
  In x l -> p x = false -> q x = true ->
  (length (List.filter p l) < length (List.filter q l))%nat.
Proof.
  intros H Hin Hp Hq. induction l as [| y l IH]; [contradiction |].
  destruct Hin as [-> | Hin]; cbn.
  - rewrite Hp, Hq. cbn. pose proof (filter_length_le p q l H). lia.
  - specialize (IH Hin). destruct (p y) eqn:Hpy.
    + rewrite (H y Hpy). cbn. lia.
    + destruct (q y); cbn; lia.
Qed.

Lemma mem_false (b : nat) (atoms : list nat) : mem b atoms = false <-> b ∉ atoms.
Proof.
  rewrite <- mem_spec. destruct (mem b atoms); split; congruence.
Qed.

Lemma unvisited_mono (n : nat) (A B : list nat) :
  (forall a, a ∈ A -> a ∈ B) -> (unvisited n B <= unvisited n A)%nat.
Proof.
  intros H. apply filter_length_le. intros x Hx.
  apply negb_true_iff in Hx. apply negb_true_iff.
  apply mem_false. apply mem_false in Hx. auto.
Qed.

Lemma unvisited_visit (n : nat) (A : list nat) (b : nat) :
  (b < n)%nat -> b ∉ A -> (unvisited n (A ++ [b]) < unvisited n A)%nat.
Proof.
  intros Hb Hnot. apply (filter_length_lt _ _ _ b).
  - intros y Hy. apply negb_true_iff in Hy. apply negb_true_iff.
    apply mem_false. apply mem_false in Hy. intros Hin. apply Hy.
    apply elem_of_app. now left.
  - apply in_seq. lia.
  - apply negb_false_iff, mem_spec, elem_of_app. right. now apply list_elem_of_singleton.
  - apply negb_true_iff, mem_false, Hnot.
Qed.

Lemma flatnonzero_lt (row : list bool) (b : nat) :
  b ∈ flatnonzero row -> (b < length row)%nat.
Proof. intros H. apply flatnonzero_spec in H. now apply lookup_lt_Some in H. Qed.

Lemma find_neighbours_returns (n : nat) (conn : list (list bool)) (root : nat) :
  square n conn ->
  forall (fuel curr : nat) (st : list nat * nat),
    (curr < n)%nat -> (unvisited n (st.1 ++ [curr]) < fuel)%nat ->
    exists res : list nat * nat,
      BondRotator._find_neighbours_recursively fuel conn root curr st = Some (inr res) /\
      forall a, a ∈ st.1 ++ [curr] -> a ∈ res.1.
Proof.
  intros [Hn Hrows] fuel. induction fuel as [| fuel IH]; intros curr st Hcurr Hfuel; [lia |].
  rewrite find_neighbours_unfold.
  destruct (conn !! curr) as [row |] eqn:Hrow.
  2: { apply lookup_ge_None in Hrow. lia. }
  assert (Hlen : length row = n).
  { rewrite Forall_forall in Hrows. apply Hrows. eapply list_elem_of_lookup_2, Hrow. }
  assert (Hbs : forall b, b ∈ flatnonzero row -> (b < n)%nat).
  { intros b Hb. rewrite <- Hlen. now apply flatnonzero_lt. }
  assert (Hle : (unvisited n (st.1 ++ [curr]) <= fuel)%nat) by lia.
  clear Hrow Hlen Hfuel. revert Hle Hbs.
  generalize (st.1 ++ [curr]) as atoms. generalize (st.2) as found.
  generalize (flatnonzero row) as bs. clear st row Hcurr.
  induction bs as [| b bs IHbs]; intros found atoms Hle Hbs.
  - cbn. eauto.
  - cbn [fold_left]. unfold dfs_step at 2. cbv zeta.
    destruct (mem b atoms) eqn:Hmem.
    + apply IHbs; [exact Hle | intros b' Hb'; apply Hbs; now right].
    + apply mem_false in Hmem.
      assert (Hb : (b < n)%nat) by (apply Hbs; now left).
      pose proof (unvisited_visit n atoms b Hb Hmem) as Hlt.
      destruct (IH b (atoms, if (b =? root)%nat then S found else found) Hb)
        as ([atoms' found'] & -> & Hsub); [cbn; lia |].
      cbn [fst] in Hsub.
      destruct (IHbs found' atoms') as (res & Hres & Hsub').
      * pose proof (unvisited_mono n (atoms ++ [b]) atoms' Hsub). lia.
      * intros b' Hb'. apply Hbs. now right.
      * exists res. split; [exact Hres |].
        intros a Ha. apply Hsub', Hsub, elem_of_app. now left.
Qed.


Lemma index_of_lt (names : list string) (a : string) (i : nat) :
  index_of names a = Some i -> (i < length names)%nat.
Proof.
  revert i. induction names as [| n names IH]; intros i H; [discriminate |].
  cbn in H. destruct (String.eqb n a).
  - injection H as <-. cbn. lia.
  - destruct (index_of names a) as [j |]; [| discriminate].
    injection H as <-. specialize (IH j eq_refl). cbn. lia.
Qed.

Lemma unvisited_le (n : nat) (atoms : list nat) : (unvisited n atoms <= n)%nat.
Proof.
  unfold unvisited. etransitivity; [apply List.filter_length_le |].
  now rewrite length_seq.
Qed.

(** [__init__] returns (a rotator or an exception) on a square connectivity
    matrix as soon as the fuel exceeds the number of atoms. *)
Lemma BondRotator_init_returns (n fuel : nat) (names : list string)
    (conn : list (list bool)) (coor : coords) (a1 a2 : string) :
  square n conn -> length names = n -> (n < fuel)%nat ->
  exists r, BondRotator.init fuel names conn coor a1 a2 = Some r.
Proof.
  intros Hsq Hnames Hfuel. unfold BondRotator.init.
  destruct (index_of names a1) as [root |] eqn:H1; [| eauto].
  destruct (index_of names a2) as [start |] eqn:H2; [| eauto].
  apply index_of_lt in H2. rewrite Hnames in H2.
  destruct (find_neighbours_returns n conn root Hsq fuel start ([root], 0%nat) H2)
    as ([atoms found] & -> & _); [| eauto].
  pose proof (unvisited_le n (([root], 0%nat).1 ++ [start])). lia.
Qed.

(** The alignment succeeds for a finite axis that is not parallel to Z. *)
Lemma ZAxisAligner_init_ok (a0 a1 a2 : R) :
  a0 * a0 + a1 * a1 <> 0 ->
  exists al, ZAxisAligner.init (V3 (Fin a0) (Fin a1) (Fin a2)) = inr al.
Proof.
  intros Hp. rewrite ZAxisAligner_init_eq. cbv zeta.
  rewrite (checked_axis_fin a0 a1 a2 Hp), allclose_zaxis. cbn [negb]. eauto.
Qed.

Lemma chain_init :
  exists rot, BondRotator.init 5 chain_names chain_conn chain_coor "A" "B" = Some (inr rot).
Proof.
  unfold BondRotator.init, chain_names, chain_conn, chain_coor.
  cbn -[BondRotator.align].
  unfold BondRotator.align. cbn -[ZAxisAligner.init norm2 vdiv vsub].
  unfold vsub, vdiv, vmap, norm2, fsub.
  cbn [vx vy vz fneg fadd fmul].
  rewrite fsqrt_fin by lra.
  assert (Hs : sqrt ((1 + - 0) * (1 + - 0) + (0 + - 0) * (0 + - 0)) = 1).
  { replace ((1 + - 0) * (1 + - 0) + (0 + - 0) * (0 + - 0)) with 1 by ring. apply sqrt_1. }
  rewrite Hs, !fdiv_fin by lra.
  destruct (ZAxisAligner_init_ok ((1 + - 0) / 1) ((0 + - 0) / 1) ((0 + - 0) / 1)) as [al ->];
    [lra |].
  cbn. eauto.
Qed.

Lemma chain_D_not_moved : ~ BondRotator.moved chain_conn 0 1 3.
Proof.
  intros [H | H]; [discriminate |].
  assert (Hinv : forall i, reachable chain_conn 0 1 i -> i = 1%nat \/ i = 2%nat).
  { clear H. intros i H. induction H as [| u v _ IH (row & Hrow & Hv) Hne]; [now left |].
    destruct IH as [-> | ->]; cbn in Hrow; injection Hrow as <-.
    - destruct v as [| [| [| [| v]]]]; cbn in Hv; try discriminate; auto. congruence.
    - destruct v as [| [| [| [| v]]]]; cbn in Hv; try discriminate; auto. }
  destruct (Hinv 3%nat H) as [H3 | H3]; discriminate.
Qed.

Lemma BondRotator_call_frame_witness :
  exists rot,
    BondRotator.init 5 chain_names chain_conn chain_coor "A" "B" = Some (inr rot) /\
    exists new : coords,
      BondRotator.call rot (Fin 1) chain_coor = (inr new, chain_coor) /\
      length new = length chain_coor /\
      new !! 3%nat = chain_coor !! 3%nat.
Proof.
  destruct chain_init as [rot Hrot]. exists rot. split; [exact Hrot |].
  destruct (BondRotator_call_frame 5 chain_names chain_conn chain_coor "A" "B" rot Hrot)
    as (root & start & Hroot & Hstart & Hcall).
  injection Hroot as <-. injection Hstart as <-.
  destruct (Hcall (Fin 1) chain_coor eq_refl) as (new & Hnew & Hlen & Hframe).
  exists new. split; [exact Hnew |]. split; [exact Hlen |].
  apply Hframe, chain_D_not_moved.
Defined.

(* ================================================================= *)
(** ** Further properties of ZAxisAligner *)

Ltac fin_entries :=
  repeat match goal with
         | |- M3 _ _ _ = M3 _ _ _ => f_equal
         | |- V3 _ _ _ = V3 _ _ _ => f_equal
         | |- Fin _ = Fin _ => apply Fin_eq
         end.

(** What a successful construction has computed. *)
Lemma ZAxisAligner_init_inr (axis : vec3) (al : ZAxisAligner.t) :
  ZAxisAligner.init axis = inr al ->
  exists a0 a1 a2 theta phi : R,
    axis = V3 (Fin a0) (Fin a1) (Fin a2) /\ a0 * a0 + a1 * a1 <> 0 /\
    cos theta = a0 / sqrt (a0 * a0 + a1 * a1) /\
    sin theta = a1 / sqrt (a0 * a0 + a1 * a1) /\
    cos phi = a2 / sqrt (a0 * a0 + a1 * a1)
              / sqrt (1 + a2 / sqrt (a0 * a0 + a1 * a1) * (a2 / sqrt (a0 * a0 + a1 * a1))) /\
    sin phi = 1 / sqrt (1 + a2 / sqrt (a0 * a0 + a1 * a1) * (a2 / sqrt (a0 * a0 + a1 * a1))) /\
    al = ZAxisAligner.Build (Rz (Fin theta)) (Ry (Fin phi))
           (matmul (transpose (Ry (Fin phi))) (transpose (Rz (Fin theta))))
           (matmul (Rz (Fin theta)) (Ry (Fin phi))).
Proof.
  rewrite ZAxisAligner_init_eq. cbv zeta. intros H.
  destruct (checked_axis_cases axis) as [(a0 & a1 & a2 & -> & Hp & Hc) | Hnan].
  - rewrite Hc, allclose_zaxis in H. cbn [negb] in H.
    destruct (xaxis_angle_fin a0 a1 a2 Hp) as (theta & Et & Hct & Hst).
    destruct (zaxis_angle_fin a0 a1 a2 Hp) as (phi & Ep & Hcp & Hsp).
    rewrite Et, Ep in H. injection H as <-.
    exists a0, a1, a2, theta, phi. repeat split; assumption.
  - rewrite (allclose_nan_x _ _ Hnan) in H. discriminate.
Qed.

(** X1: [ZAxisAligner.__init__] succeeds exactly for an axis whose three
    components are finite and whose X and Y components are not both zero;
    for every other axis (parallel to Z, zero, or with a NaN or an infinite
    component) it raises. *)
Theorem ZAxisAligner_init_succeeds_iff (axis : vec3) :
  (exists al, ZAxisAligner.init axis = inr al) <->
  (exists a0 a1 a2 : R,
     axis = V3 (Fin a0) (Fin a1) (Fin a2) /\ a0 * a0 + a1 * a1 <> 0).
Proof.
  split.
  - intros [al H]. apply ZAxisAligner_init_inr in H
      as (a0 & a1 & a2 & _ & _ & -> & Hp & _). eauto.
  - intros (a0 & a1 & a2 & -> & Hp). now apply ZAxisAligner_init_ok.
Qed.

Lemma transpose_matmul_fin (theta phi : R) :
  transpose (matmul (Rz (Fin theta)) (Ry (Fin phi)))
  = matmul (transpose (Ry (Fin phi))) (transpose (Rz (Fin theta))).
Proof.
  unfold matmul, vecmat, dot3.
  cbn [Rz Ry transpose col0 col1 col2 row0 row1 row2 vx vy vz fcos fsin fneg fmul fadd f0 f1].
  unfold transpose, col0, col1, col2. cbn [row0 row1 row2 vx vy vz].
  fin_entries; ring.
Qed.

(** X2: for an aligner that was constructed, [backward_rotation] is the
    transpose of [forward_rotation], their product is the identity, and
    [forward_rotation] takes the Z axis to the normalised axis. *)
Theorem ZAxisAligner_forward_is_inverse (axis : vec3) (al : ZAxisAligner.t) :
  ZAxisAligner.init axis = inr al ->
  ZAxisAligner.backward_rotation al = transpose (ZAxisAligner.forward_rotation al) /\
  matmul (ZAxisAligner.backward_rotation al) (ZAxisAligner.forward_rotation al) = identity3 /\
  matvec (ZAxisAligner.forward_rotation al) zaxis = vdiv axis (norm axis).
Proof.
  intros H. apply ZAxisAligner_init_inr in H
    as (a0 & a1 & a2 & theta & phi & -> & Hp & Hct & Hst & Hcp & Hsp & ->).
  cbn [ZAxisAligner.backward_rotation ZAxisAligner.forward_rotation].
  split; [symmetry; apply transpose_matmul_fin |]. split.
  - pose proof (sin2_cos2 theta) as Ht. pose proof (sin2_cos2 phi) as Hph.
    unfold Rsqr in Ht, Hph.
    unfold matmul, vecmat, dot3, identity3, f0, f1.
    cbn [Rz Ry transpose col0 col1 col2 row0 row1 row2 vx vy vz fcos fsin fneg fmul fadd f0 f1].
    clear Hct Hst Hcp Hsp.
    set (c := cos theta) in *. set (s := sin theta) in *.
    set (C := cos phi) in *. set (S := sin phi) in *.
    fin_entries; nsatz.
  - rewrite unit_axis_fin by exact Hp. rewrite full_norm_factor by exact Hp.
    pose proof (planar_pos a0 a1 Hp) as Hpos.
    pose proof (polar_pos a0 a1 a2) as Hn.
    unfold matvec, matmul, vecmat, dot3, zaxis, f0, f1.
    cbn [Rz Ry transpose col0 col1 col2 row0 row1 row2 vx vy vz fcos fsin fneg fmul fadd f0 f1].
    rewrite Hct, Hst, Hcp, Hsp.
    set (p := sqrt (a0 * a0 + a1 * a1)) in *.
    set (n := sqrt (1 + a2 / p * (a2 / p))) in *.
    fin_entries; field; lra.
Qed.

Lemma ZAxisAligner_forward_is_inverse_witness :
  exists al : ZAxisAligner.t,
    ZAxisAligner.init (V3 (Fin 1) (Fin 0) (Fin 0)) = inr al /\
    matmul (ZAxisAligner.backward_rotation al) (ZAxisAligner.forward_rotation al)
    = identity3.
Proof.
  destruct (ZAxisAligner_init_ok 1 0 0 ltac:(lra)) as [al H].
  exists al. split; [exact H |].
  exact (proj1 (proj2 (ZAxisAligner_forward_is_inverse _ al H))).
Defined.

(* ================================================================= *)
(** ** Periodicity of the rotations *)

Lemma Rz_period (x : R) : Rz (Fin (x + 2 * PI)) = Rz (Fin x).
Proof.
  unfold Rz. cbn [fcos fsin fneg].
  replace (x + 2 * PI) with (x + 2 * INR 1 * PI) by (cbn; ring).
  now rewrite cos_period, sin_period.
Qed.

Lemma deg2rad_plus_360 (a : R) : (a + 360) * (PI / 180) = a * (PI / 180) + 2 * PI.
Proof. field. Qed.

(** X3: a call of the chi, CB-angle and bisecting-angle rotators with the
    angle [a + 360] writes the coordinates of the call with [a], the backbone
    rotator uses the same matrix for both torsions, and a call of the bond
    rotator with [a + 2 pi] returns the array of the call with [a]. *)
Theorem rotations_are_periodic (a : R) :
  (forall (self : ChiRotator.t) (s : coords),
     ChiRotator.call self (Fin (a + 360)) s = ChiRotator.call self (Fin a) s) /\
  (forall (self : CBAngleRotator.t) (s : coords),
     CBAngleRotator.call self (Fin (a + 360)) s = CBAngleRotator.call self (Fin a) s) /\
  (forall (self : BisectingAngleRotator.t) (s : coords),
     BisectingAngleRotator.call self (Fin (a + 360)) s
     = BisectingAngleRotator.call self (Fin a) s) /\
  (forall aligner : ZAxisAligner.t,
     BackboneRotator.rotation aligner (deg2rad (Fin (a + 360)))
     = BackboneRotator.rotation aligner (deg2rad (Fin a))) /\
  (forall (self : BondRotator.t) (s : coords),
     BondRotator.call self (Fin (a + 2 * PI)) s = BondRotator.call self (Fin a) s).
Proof.
  assert (H : Rz (deg2rad (Fin (a + 360))) = Rz (deg2rad (Fin a))).
  { rewrite !deg2rad_fin, deg2rad_plus_360. apply Rz_period. }
  unfold ChiRotator.call, CBAngleRotator.call, BisectingAngleRotator.call, BondRotator.call,
    ChiRotator.rotation, CBAngleRotator.rotation, BisectingAngleRotator.rotation,
    BackboneRotator.rotation, BondRotator.rotation.
  rewrite H, Rz_period. repeat split; reflexivity.
Qed.

(** Rotating by an angle of cosine 1 and sine 0 in the aligned frame and
    going back gives the vector one started from. *)
Lemma aligned_round_trip (theta phi a x y z : R) :
  cos a = 1 -> sin a = 0 ->
  matvec (matmul (matmul (Rz (Fin theta)) (Ry (Fin phi))) (Rz (Fin a)))
         (matvec (matmul (transpose (Ry (Fin phi))) (transpose (Rz (Fin theta))))
                 (V3 (Fin x) (Fin y) (Fin z)))
  = V3 (Fin x) (Fin y) (Fin z).
Proof.
  intros Hc Hs.
  pose proof (sin2_cos2 theta) as Ht. pose proof (sin2_cos2 phi) as Hp.
  unfold Rsqr in Ht, Hp.
  unfold matvec, matmul, vecmat, dot3.
  cbn [Rz Ry transpose col0 col1 col2 row0 row1 row2 vx vy vz fcos fsin fneg fmul fadd f0 f1].
  rewrite Hc, Hs. clear Hc Hs.
  set (c := cos theta) in *. set (s := sin theta) in *.
  set (C := cos phi) in *. set (S := sin phi) in *.
  fin_entries; nsatz.
Qed.

(** A multiple of the aligned axis is left where it is by the rotation by
    any angle. *)
Lemma aligned_axis_fixed (a0 a1 a2 theta phi a k : R) :
  a0 * a0 + a1 * a1 <> 0 ->
  cos theta = a0 / sqrt (a0 * a0 + a1 * a1) ->
  sin theta = a1 / sqrt (a0 * a0 + a1 * a1) ->
  cos phi = a2 / sqrt (a0 * a0 + a1 * a1)
            / sqrt (1 + a2 / sqrt (a0 * a0 + a1 * a1) * (a2 / sqrt (a0 * a0 + a1 * a1))) ->
  sin phi = 1 / sqrt (1 + a2 / sqrt (a0 * a0 + a1 * a1) * (a2 / sqrt (a0 * a0 + a1 * a1))) ->
  matvec (matmul (matmul (Rz (Fin theta)) (Ry (Fin phi))) (Rz (Fin a)))
         (matvec (matmul (transpose (Ry (Fin phi))) (transpose (Rz (Fin theta))))
                 (V3 (Fin (k * a0)) (Fin (k * a1)) (Fin (k * a2))))
  = V3 (Fin (k * a0)) (Fin (k * a1)) (Fin (k * a2)).
Proof.
  intros Hp Hct Hst Hcp Hsp.
  pose proof (planar_pos a0 a1 Hp) as Hpos. pose proof (planar_sq a0 a1 Hp) as Hsq.
  pose proof (polar_pos a0 a1 a2) as Hn. pose proof (polar_sq a0 a1 a2) as Hnsq.
  pose proof (sin2_cos2 a) as Ha. unfold Rsqr in Ha.
  unfold matvec, matmul, vecmat, dot3.
  cbn [Rz Ry transpose col0 col1 col2 row0 row1 row2 vx vy vz fcos fsin fneg fmul fadd f0 f1].
  rewrite Hct, Hst, Hcp, Hsp. clear Hct Hst Hcp Hsp.
  set (p := sqrt (a0 * a0 + a1 * a1)) in *.
  set (n := sqrt (1 + a2 / p * (a2 / p))) in *.
  set (ca := cos a) in *. set (sa := sin a) in *.
  assert (Hsq2 : a1 * a1 = p * p - a0 * a0) by lra.
  assert (Hn2 : n * n * (p * p) = p * p + a2 * a2).
  { rewrite Hnsq. field. lra. }
  clearbody p n ca sa.
  fin_entries; field_simplify_eq; try lra; clear Hnsq Hsq2 Hp Hpos Hn Ha; cbn [pow]; nsatz.
Qed.

(* ================================================================= *)
(** ** Further properties of BondRotator *)

Lemma indices_where_complete {A : Type} (p : A -> bool) (l : list A) (i j : nat) (y : A) :
  l !! j = Some y -> p y = true -> (i + j)%nat ∈ indices_where p l i.
Proof.
  revert i j. induction l as [| a l IH]; intros i j Hj Hy; [discriminate |].
  destruct j as [| j]; cbn in Hj.
  - injection Hj as ->. cbn. rewrite Hy, Nat.add_0_r. left.
  - cbn. replace (i + S j)%nat with (S i + j)%nat by lia.
    destruct (p a); [right |]; now apply IH.
Qed.

Lemma flatnonzero_complete (row : list bool) (b : nat) :
  row !! b = Some true -> b ∈ flatnonzero row.
Proof. intros H. apply (indices_where_complete (fun b : bool => b) row 0 b true H eq_refl). Qed.

Section Traversal.
Variables (conn : list (list bool)) (root : nat).

Lemma find_neighbours_shape (fuel : nat) :
  forall (curr : nat) (st res : list nat * nat),
    BondRotator._find_neighbours_recursively fuel conn root curr st = Some (inr res) ->
    exists extra : list nat,
      res.1 = st.1 ++ curr :: extra /\
      (forall x, x ∈ extra -> x ∉ st.1 ++ [curr]) /\
      NoDup extra /\
      (forall u, u ∈ curr :: extra -> closed_in conn res.1 u).
Proof.
  induction fuel as [| fuel IH]; intros curr st res H; [discriminate |].
  rewrite find_neighbours_unfold in H.
  destruct (conn !! curr) as [row |] eqn:Hrow; [| discriminate].
  assert (Hfold : forall (bs : list nat) (found : nat) (atoms : list nat),
             fold_left (dfs_step fuel conn root) bs (Some (inr (atoms, found)))
             = Some (inr res) ->
             exists extra : list nat,
               res.1 = atoms ++ extra /\
               (forall x, x ∈ extra -> x ∉ atoms) /\
               NoDup extra /\
               (forall u, u ∈ extra -> closed_in conn res.1 u) /\
               (forall b, b ∈ bs -> b ∈ res.1)).
  { clear H Hrow. induction bs as [| b bs IHbs]; intros found atoms H.
    - cbn in H. injection H as <-. exists []. cbn. rewrite app_nil_r.
      repeat split; try constructor; intros x Hx; now apply elem_of_nil in Hx.
    - cbn [fold_left] in H.
      destruct (dfs_fold_stuck _ _ _ _ _ _ H) as [[atoms' found'] Hstep].
      rewrite Hstep in H. apply IHbs in H as (e2 & Hres & Hnew2 & Hnd2 & Hcl2 & Hbs).
      unfold dfs_step in Hstep. cbv zeta in Hstep.
      destruct (mem b atoms) eqn:Hmem.
      + injection Hstep as <- _. exists e2. repeat split; try assumption.
        intros b' Hb'. apply elem_of_cons in Hb' as [-> | Hb']; [| now apply Hbs].
        rewrite Hres. apply elem_of_app. left. now apply mem_spec.
      + apply IH in Hstep as (e1 & Hat & Hnew1 & Hnd1 & Hcl1). cbn [fst] in Hat, Hnew1.
        apply mem_false in Hmem.
        assert (Hsub : forall x, x ∈ atoms' -> x ∈ res.1).
        { intros x Hx. rewrite Hres. apply elem_of_app. now left. }
        exists (b :: e1 ++ e2). split; [| split; [| split; [| split]]].
        * rewrite Hres, Hat. now rewrite <- app_assoc.
        * intros x Hx Hin. apply elem_of_cons in Hx as [-> | Hx]; [contradiction |].
          apply elem_of_app in Hx as [Hx | Hx].
          -- apply (Hnew1 x Hx). apply elem_of_app. now left.
          -- apply (Hnew2 x Hx). rewrite Hat. apply elem_of_app. now left.
        * apply NoDup_cons. split.
          -- intros Hin. apply elem_of_app in Hin as [Hin | Hin].
             ++ apply (Hnew1 b Hin). apply elem_of_app. right. left.
             ++ apply (Hnew2 b Hin). rewrite Hat. apply elem_of_app. right. left.
          -- apply NoDup_app. split; [exact Hnd1 |]. split; [| exact Hnd2].
             intros x Hx1 Hx2. apply (Hnew2 x Hx2). rewrite Hat.
             apply elem_of_app. right. now right.
        * intros u Hu. apply elem_of_cons in Hu as [-> | Hu].
          -- intros b' Hb'. apply Hsub. apply (Hcl1 b); [left | exact Hb'].
          -- apply elem_of_app in Hu as [Hu | Hu]; [| now apply Hcl2].
             intros b' Hb'. apply Hsub. apply (Hcl1 u); [now right | exact Hb'].
        * intros b' Hb'. apply elem_of_cons in Hb' as [-> | Hb']; [| now apply Hbs].
          apply Hsub. rewrite Hat. apply elem_of_app. right. left. }
  apply Hfold in H as (extra & Hres & Hnew & Hnd & Hcl & Hbs).
  exists extra. split; [now rewrite Hres, <- app_assoc |].
  split; [exact Hnew |]. split; [exact Hnd |].
  intros u Hu. apply elem_of_cons in Hu as [-> | Hu]; [| now apply Hcl].
  intros b (row' & Hrow' & Hb). rewrite Hrow in Hrow'. injection Hrow' as <-.
  apply Hbs. now apply flatnonzero_complete.
Qed.

(** Every atom reached from [start] is collected. *)
Lemma find_neighbours_complete (fuel start found : nat) (res : list nat * nat) :
  BondRotator._find_neighbours_recursively fuel conn root start ([root], found)
  = Some (inr res) ->
  forall i : nat, reachable conn root start i -> i ∈ res.1.
Proof.
  intros H. apply find_neighbours_shape in H as (extra & Hres & _ & _ & Hcl).
  cbn [fst] in Hres.
  intros i Hi. induction Hi as [| u v Hu IH Hb Hne].
  - rewrite Hres. right. left.
  - assert (Hcalled : u ∈ start :: extra).
    { rewrite Hres in IH. apply elem_of_cons in IH as [-> | IH]; [| exact IH].
      (* [u] is the root: it is reached only as the start *)
      inversion Hu; subst; [left | contradiction]. }
    exact (Hcl u Hcalled v Hb).
Qed.
End Traversal.

Lemma index_of_None (names : list string) (a : string) :
  index_of names a = None <-> a ∉ names.
Proof.
  induction names as [| n names IH]; cbn.
  - split; [intros _ H; now apply elem_of_nil in H | reflexivity].
  - destruct (String.eqb_spec n a) as [-> | Hne].
    + split; [discriminate | intros H; exfalso; apply H; left].
    + destruct (index_of names a) as [i |]; cbn.
      * split; [discriminate |]. intros H.
        assert (Hnot : a ∉ names) by (intros Hin; apply H; now right).
        apply IH in Hnot. discriminate.
      * split; [| reflexivity]. intros _ H. apply elem_of_cons in H as [-> | H];
          [contradiction | now apply IH in H].
Qed.

(** X4: [BondRotator.__init__] raises the [ValueError] of [list.index]
    when one of the two atom names is not a name of the ligand, before it
    looks at the connectivity or the coordinates. *)
Theorem BondRotator_init_missing_atom (fuel : nat) (names : list string)
    (conn : list (list bool)) (coor : coords) (a1 a2 : string) :
  a1 ∉ names \/ a2 ∉ names ->
  BondRotator.init fuel names conn coor a1 a2 = Some (inl ValueError_index).
Proof.
  intros H. unfold BondRotator.init.
  destruct (index_of names a1) as [root |] eqn:H1; [| reflexivity].
  destruct (index_of names a2) as [start |] eqn:H2; [| reflexivity].
  exfalso. destruct H as [H | H]; apply index_of_None in H; congruence.
Qed.

Lemma BondRotator_init_missing_atom_witness :
  BondRotator.init 5 chain_names chain_conn chain_coor "Z" "B"
  = Some (inl ValueError_index).
Proof.
  apply BondRotator_init_missing_atom. left. unfold chain_names. intros H.
  repeat (apply elem_of_cons in H as [H | H]; [discriminate |]).
  inversion H.
Defined.

(** Everything [__init__] has computed when it returns a rotator. *)
Lemma BondRotator_init_inv (fuel : nat) (names : list string) (conn : list (list bool))
    (coor : coords) (a1 a2 : string) (rot : BondRotator.t) :
  BondRotator.init fuel names conn coor a1 a2 = Some (inr rot) ->
  exists (root start found : nat) (extra : list nat) (rows : coords) (t c1 : vec3)
         (al : ZAxisAligner.t),
    index_of names a1 = Some root /\ index_of names a2 = Some start /\
    BondRotator._find_neighbours_recursively fuel conn root start ([root], 0%nat)
    = Some (inr (root :: start :: extra, found)) /\
    (forall x, x ∈ extra -> x <> root /\ x <> start) /\
    np_take coor (root :: start :: extra) = inr rows /\
    coor !! root = Some t /\
    map (fun v => vsub v t) rows !! 1%nat = Some c1 /\
    ZAxisAligner.init (vdiv c1 (norm2 (vx c1) (vy c1))) = inr al /\
    rot = BondRotator.Build a1 a2 root conn (root :: start :: extra) found
            (map (matvec (ZAxisAligner.backward_rotation al))
                 (map (fun v => vsub v t) rows))
            t (ZAxisAligner.forward_rotation al).
Proof.
  unfold BondRotator.init. intros H.
  destruct (index_of names a1) as [root |]; [| discriminate].
  destruct (index_of names a2) as [start |]; [| discriminate].
  destruct (BondRotator._find_neighbours_recursively fuel conn root start ([root], 0%nat))
    as [[e | [atoms found]] |] eqn:Hdfs; try discriminate.
  injection H as H.
  pose proof (find_neighbours_shape conn root fuel start _ _ Hdfs)
    as (extra & Hat & Hnew & _ & _).
  cbn [fst] in Hat, Hnew. cbn [app] in Hat. subst atoms.
  unfold BondRotator.align in H.
  apply ebind_inr in H as (rows & Hrows & H).
  apply ebind_inr in H as (t & Ht & H).
  apply ebind_inr in H as (c1 & Hc1 & H).
  apply ebind_inr in H as (al & Hal & H).
  injection H as <-.
  exists root, start, found, extra, rows, t, c1, al.
  split; [reflexivity |]. split; [reflexivity |]. split; [exact Hdfs |].
  split.
  { intros x Hx. split; intros ->.
    - apply (Hnew root Hx). left.
    - apply (Hnew start Hx). right. left. }
  split; [exact Hrows |].
  split; [destruct (coor !! root); [now injection Ht as -> | discriminate] |].
  split; [destruct (map _ rows !! 1%nat); [now injection Hc1 as -> | discriminate] |].
  split; [exact Hal | reflexivity].
Qed.

(** X5: after [BondRotator.__init__], [atoms_to_rotate] starts with the
    root and the second atom, lists no atom after the root twice, and holds
    exactly the root and the atoms reached from the second atom along bonds
    without entering the root. *)
Theorem BondRotator_atoms_to_rotate_exact (fuel : nat) (names : list string)
    (conn : list (list bool)) (coor : coords) (a1 a2 : string) (rot : BondRotator.t) :
  BondRotator.init fuel names conn coor a1 a2 = Some (inr rot) ->
  exists (root start : nat) (extra : list nat),
    index_of names a1 = Some root /\ index_of names a2 = Some start /\
    BondRotator.atoms_to_rotate rot = root :: start :: extra /\
    NoDup (start :: extra) /\
    forall i : nat,
      i ∈ BondRotator.atoms_to_rotate rot <-> BondRotator.moved conn root start i.
Proof.
  intros H. apply BondRotator_init_inv in H
    as (root & start & found & extra & rows & t & c1 & al
        & H1 & H2 & Hdfs & Hnew & _ & _ & _ & _ & ->).
  exists root, start, extra. cbn [BondRotator.atoms_to_rotate].
  split; [exact H1 |]. split; [exact H2 |]. split; [reflexivity |].
  split.
  - pose proof (find_neighbours_shape conn root fuel start _ _ Hdfs)
      as (extra' & Hat & Hnew' & Hnd & _).
    cbn [fst app] in Hat. injection Hat as <-.
    apply NoDup_cons. split; [| exact Hnd].
    intros Hin. now destruct (Hnew start Hin).
  - intros i. split.
    + intros Hi.
      apply (find_neighbours_sound conn root start) in Hdfs.
      * destruct Hdfs as [_ Hall]. now apply Hall.
      * split; [now apply list_elem_of_singleton |].
        intros a Ha. apply list_elem_of_singleton in Ha as ->. now left.
      * constructor.
    + intros [-> | Hi]; [left |].
      exact (find_neighbours_complete conn root fuel start 0 _ Hdfs i Hi).
Qed.

Lemma BondRotator_atoms_to_rotate_exact_witness :
  exists (rot : BondRotator.t) (extra : list nat),
    BondRotator.init 5 chain_names chain_conn chain_coor "A" "B" = Some (inr rot) /\
    BondRotator.atoms_to_rotate rot = 0%nat :: 1%nat :: extra /\
    NoDup (1%nat :: extra).
Proof.
  destruct chain_init as [rot H].
  destruct (BondRotator_atoms_to_rotate_exact _ _ _ _ _ _ _ H)
    as (root & start & extra & H1 & H2 & Hat & Hnd & _).
  cbn in H1, H2. injection H1 as <-. injection H2 as <-.
  exists rot, extra. split; [exact H |]. split; [exact Hat | exact Hnd].
Defined.

Lemma dfs_fold_none (fuel : nat) (conn : list (list bool)) (root : nat) (bs : list nat) :
  fold_left (dfs_step fuel conn root) bs None = None.
Proof. induction bs as [| b bs IH]; [reflexivity | exact IH]. Qed.

(** A traversal that returns with some fuel returns the same with more. *)
Lemma find_neighbours_more_fuel (conn : list (list bool)) (root : nat) (fuel : nat) :
  forall (curr : nat) (st : list nat * nat) (r : exn + list nat * nat),
    BondRotator._find_neighbours_recursively fuel conn root curr st = Some r ->
    BondRotator._find_neighbours_recursively (S fuel) conn root curr st = Some r.
Proof.
  induction fuel as [| fuel IH]; intros curr st r H; [discriminate |].
  rewrite find_neighbours_unfold in H. rewrite find_neighbours_unfold.
  destruct (conn !! curr) as [row |]; [| exact H].
  revert H. generalize (Some (inr (st.1 ++ [curr], st.2)) : option (exn + list nat * nat)).
  induction (flatnonzero row) as [| b bs IHbs]; intros acc H; [exact H |].
  cbn [fold_left] in *.
  destruct acc as [[e | [atoms found]] |]; try exact (IHbs _ H).
  unfold dfs_step at 2 in H. unfold dfs_step at 2. cbv zeta in *.
  destruct (mem b atoms); [exact (IHbs _ H) |].
  destruct (BondRotator._find_neighbours_recursively fuel conn root b
              (atoms, if (b =? root)%nat then S found else found)) as [r' |] eqn:Hr.
  - rewrite (IH _ _ _ Hr). exact (IHbs _ H).
  - now rewrite dfs_fold_none in H.
Qed.

Lemma find_neighbours_fuel_le (conn : list (list bool)) (root : nat) (fuel fuel' : nat)
    (curr : nat) (st : list nat * nat) (r : exn + list nat * nat) :
  (fuel <= fuel')%nat ->
  BondRotator._find_neighbours_recursively fuel conn root curr st = Some r ->
  BondRotator._find_neighbours_recursively fuel' conn root curr st = Some r.
Proof.
  intros Hle H. induction Hle as [| fuel' _ IH]; [exact H |].
  now apply find_neighbours_more_fuel.
Qed.

(** X6: on a square connectivity matrix the traversal of
    [_find_neighbours_recursively] never nests deeper than the number of
    atoms, rings included: with more fuel than atoms [__init__] returns, a
    rotator or an exception, and what it returns does not depend on the
    fuel. *)
Theorem BondRotator_init_terminates (n fuel fuel' : nat) (names : list string)
    (conn : list (list bool)) (coor : coords) (a1 a2 : string) :
  square n conn -> length names = n -> (n < fuel)%nat -> (n < fuel')%nat ->
  (exists r, BondRotator.init fuel names conn coor a1 a2 = Some r) /\
  BondRotator.init fuel' names conn coor a1 a2 = BondRotator.init fuel names conn coor a1 a2.
Proof.
  intros Hsq Hnames Hfuel Hfuel'.
  split; [now apply (BondRotator_init_returns n) |].
  unfold BondRotator.init.
  destruct (index_of names a1) as [root |] eqn:H1; [| reflexivity].
  destruct (index_of names a2) as [start |] eqn:H2; [| reflexivity].
  apply index_of_lt in H2. rewrite Hnames in H2.
  pose proof (unvisited_le n (([root], 0%nat).1 ++ [start])) as Hu.
  destruct (find_neighbours_returns n conn root Hsq (S n) start ([root], 0%nat) H2)
    as (res & Hres & _); [lia |].
  rewrite (find_neighbours_fuel_le conn root (S n) fuel _ _ _ ltac:(lia) Hres).
  rewrite (find_neighbours_fuel_le conn root (S n) fuel' _ _ _ ltac:(lia) Hres).
  reflexivity.
Qed.

Lemma BondRotator_init_terminates_witness :
  (exists r, BondRotator.init 5 chain_names chain_conn chain_coor "A" "B" = Some r) /\
  BondRotator.init 9 chain_names chain_conn chain_coor "A" "B"
  = BondRotator.init 5 chain_names chain_conn chain_coor "A" "B".
Proof.
  apply (BondRotator_init_terminates 4); [| reflexivity | lia | lia].
  split; [reflexivity | repeat constructor].
Defined.

Lemma vfinite_inv (v : vec3) :
  vfinite v = true -> exists x y z : R, v = V3 (Fin x) (Fin y) (Fin z).
Proof.
  destruct v as [[x | | |] [y | | |] [z | | |]]; cbn; try discriminate. eauto.
Qed.

Lemma inf_times_not_fin (r q : R) (pos : bool) : inf_times r pos <> Fin q.
Proof.
  unfold inf_times. destruct (Rlt_dec 0 r); [destruct pos; discriminate |].
  destruct (Rlt_dec r 0); [destruct pos; discriminate | discriminate].
Qed.

Lemma fdiv_fin_inv (x y q : R) : fdiv (Fin x) (Fin y) = Fin q -> y <> 0 /\ q = x / y.
Proof.
  unfold fdiv. destruct (Req_dec_T y 0) as [-> | Hy].
  - intros H. now apply inf_times_not_fin in H.
  - intros H. injection H as <-. now split.
Qed.

Lemma scatter_same (l : list (nat * vec3)) (arr : coords) :
  (forall iv, iv ∈ l -> arr !! iv.1 = Some iv.2) ->
  fold_left (fun acc (iv : nat * vec3) => <[iv.1 := iv.2]> acc) l arr = arr.
Proof.
  induction l as [| iv l IH]; intros H; [reflexivity |].
  cbn [fold_left].
  assert (E : <[iv.1 := iv.2]> arr = arr) by (apply list_insert_id, H; left).
  rewrite E.
  apply IH. intros iv' Hin. apply H. now right.
Qed.

Lemma np_take_rows (arr : coords) (sel : list nat) (rows : coords) :
  np_take arr sel = inr rows -> Forall2 (fun i v => arr !! i = Some v) sel rows.
Proof.
  unfold np_take. destruct (mapM _ sel) as [r |] eqn:H; [| discriminate].
  intros Heq. injection Heq as <-. now apply mapM_Some_1.
Qed.

(** Writing back the rows that were read changes nothing. *)
Lemma np_put_take (arr : coords) (sel : list nat) (rows : coords) :
  np_take arr sel = inr rows -> np_put arr sel rows = inr arr.
Proof.
  intros H. pose proof (np_take_spec _ _ _ H) as [Hlen Hall].
  pose proof (np_take_rows _ _ _ H) as Hrows.
  unfold np_put. cbv zeta.
  assert (Hsame : match rows with [r] => replicate (length sel) r | _ => rows end = rows).
  { destruct rows as [| r [| r' rows]]; try reflexivity.
    cbn in Hlen. rewrite <- Hlen. reflexivity. }
  rewrite Hsame, Hlen, Nat.eqb_refl. cbn [negb].
  assert (Hin : forallb (fun i => (i <? length arr)%nat) sel = true).
  { apply forallb_forall. intros i Hi. apply Nat.ltb_lt.
    rewrite Forall_forall in Hall. apply Hall. now apply list_elem_of_In. }
  rewrite Hin. cbn [negb]. f_equal. apply scatter_same.
  intros [i v] Hiv. cbn.
  apply list_elem_of_lookup_1 in Hiv as [k Hk].
  apply lookup_zip_with_Some in Hk as (i' & v' & Heq & Hi & Hv).
  injection Heq as -> ->.
  exact (Forall2_lookup_lr _ _ _ _ _ _ Hrows Hi Hv).
Qed.

(** The transformation of one cached row by [__call__], for an aligner that
    was constructed, finite coordinates and an angle of cosine 1 and sine 0. *)
Lemma aligned_row_round_trip (axis : vec3) (al : ZAxisAligner.t) (a : R) (v t : vec3) :
  ZAxisAligner.init axis = inr al ->
  cos a = 1 -> sin a = 0 -> vfinite v = true -> vfinite t = true ->
  vadd (matvec (matmul (ZAxisAligner.forward_rotation al) (Rz (Fin a)))
               (matvec (ZAxisAligner.backward_rotation al) (vsub v t))) t = v.
Proof.
  intros Hal Hc Hs Hv Ht.
  apply ZAxisAligner_init_inr in Hal
    as (a0 & a1 & a2 & theta & phi & _ & _ & _ & _ & _ & _ & ->).
  apply vfinite_inv in Hv as (x & y & z & ->).
  apply vfinite_inv in Ht as (tx & ty & tz & ->).
  cbn [ZAxisAligner.backward_rotation ZAxisAligner.forward_rotation].
  unfold vsub, fsub. cbn [vx vy vz fneg fadd].
  rewrite (aligned_round_trip theta phi a _ _ _ Hc Hs).
  unfold vadd. cbn [vx vy vz fadd]. fin_entries; ring.
Qed.

(** The example inputs. *)
Lemma chain_coor_finite : Forall (fun v => vfinite v = true) chain_coor.
Proof. repeat constructor. Qed.

Lemma bent_coor_finite : Forall (fun v => vfinite v = true) bent_coor.
Proof. repeat constructor. Qed.

Lemma vsub_fin (x y z a b c : R) :
  vsub (V3 (Fin x) (Fin y) (Fin z)) (V3 (Fin a) (Fin b) (Fin c))
  = V3 (Fin (x - a)) (Fin (y - b)) (Fin (z - c)).
Proof. reflexivity. Qed.

Lemma vdiv_norm_fin (x y z : R) :
  x * x + y * y + z * z <> 0 ->
  vdiv (V3 (Fin x) (Fin y) (Fin z)) (norm (V3 (Fin x) (Fin y) (Fin z)))
  = V3 (Fin (x / sqrt (x * x + y * y + z * z))) (Fin (y / sqrt (x * x + y * y + z * z)))
       (Fin (z / sqrt (x * x + y * y + z * z))).
Proof.
  intros H.
  assert (0 < sqrt (x * x + y * y + z * z)) by (apply sqrt_lt_R0; nra).
  unfold vdiv, vmap, norm, dot3. cbn [vx vy vz fmul fadd].
  rewrite fsqrt_fin by nra. rewrite !fdiv_fin by lra. reflexivity.
Qed.

Lemma bent_CB_init :
  exists rot, CBAngleRotator.init bent_names bent_coor = (inr rot, bent_coor).
Proof.
  unfold CBAngleRotator.init, bent_names, bent_coor.
  cbn -[ZAxisAligner.init norm vdiv cross vsub].
  unfold bind, lift, ret.
  cbn -[ZAxisAligner.init norm vdiv cross vsub].
  rewrite !vsub_fin. unfold cross, fsub. cbn [vx vy vz fmul fadd fneg].
  rewrite vdiv_norm_fin.
  2:{ replace (1 - 0) with 1 by ring. replace (0 - 0) with 0 by ring. lra. }
  match goal with
  | |- context [ZAxisAligner.init (V3 (Fin ?a) (Fin ?b) (Fin ?c))] =>
      destruct (ZAxisAligner_init_ok a b c) as [al ->]
  end.
  - replace ((1 - 0) * (1 - 0) + - ((0 - 0) * (0 - 0))) with 1 by ring.
    replace ((0 - 0) * (0 - 0) + - ((0 - 0) * (1 - 0))) with 0 by ring.
    replace ((0 - 0) * (0 - 0) + - ((1 - 0) * (0 - 0))) with 0 by ring.
    replace (1 * 1 + 0 * 0 + 0 * 0) with 1 by ring. rewrite sqrt_1. lra.
  - eauto.
Qed.

Lemma bent_Bisecting_init :
  exists rot, BisectingAngleRotator.init bent_names bent_coor = (inr rot, bent_coor).
Proof.
  unfold BisectingAngleRotator.init, bent_names, bent_coor.
  cbn -[ZAxisAligner.init norm vdiv vadd vsub].
  unfold bind, lift, ret.
  cbn -[ZAxisAligner.init norm vdiv vadd vsub].
  rewrite !vsub_fin.
  rewrite !vdiv_norm_fin by (replace (1 - 0) with 1 by ring; replace (0 - 0) with 0 by ring; lra).
  replace (1 - 0) with 1 by ring. replace (0 - 0) with 0 by ring.
  replace (0 * 0 + 1 * 1 + 0 * 0) with 1 by ring.
  replace (0 * 0 + 0 * 0 + 1 * 1) with 1 by ring. rewrite sqrt_1.
  unfold vadd. cbn [vx vy vz fadd].
  replace (0 / 1 + 0 / 1) with 0 by field.
  replace (0 / 1 + 1 / 1) with 1 by field.
  replace (1 / 1 + 0 / 1) with 1 by field.
  rewrite vdiv_norm_fin by lra.
  match goal with
  | |- context [ZAxisAligner.init (V3 (Fin ?a) (Fin ?b) (Fin ?c))] =>
      destruct (ZAxisAligner_init_ok a b c) as [al ->]
  end.
  - assert (0 < sqrt (0 * 0 + 1 * 1 + 1 * 1)) by (apply sqrt_lt_R0; lra).
    assert (0 < 1 / sqrt (0 * 0 + 1 * 1 + 1 * 1)) by (apply Rdiv_lt_0_compat; lra).
    nra.
  - eauto.
Qed.

Lemma Forall2_lookup_finite (arr : coords) (sel : list nat) (rows : coords) :
  Forall (fun v => vfinite v = true) arr ->
  Forall2 (fun i v => arr !! i = Some v) sel rows ->
  Forall (fun v => vfinite v = true) rows.
Proof.
  intros Hfin H. induction H as [| i v sel rows Hi _ IH]; constructor; [| exact IH].
  exact (Forall_lookup_1 _ _ _ _ Hfin Hi).
Qed.

Lemma map_id_on {A : Type} (f : A -> A) (P : A -> Prop) (l : list A) :
  (forall x, P x -> f x = x) -> Forall P l -> map f l = l.
Proof.
  intros Hf H. induction H as [| x l Hx _ IH]; [reflexivity |].
  cbn. now rewrite (Hf x Hx), IH.
Qed.

(** X7: with finite coordinates, the rotator called with the angle 0 on
    the coordinates it was constructed from returns those coordinates, and
    leaves the ligand's as they are. *)
Theorem BondRotator_call_zero_restores (fuel : nat) (names : list string)
    (conn : list (list bool)) (coor0 : coords) (a1 a2 : string) (rot : BondRotator.t) :
  BondRotator.init fuel names conn coor0 a1 a2 = Some (inr rot) ->
  Forall (fun v => vfinite v = true) coor0 ->
  BondRotator.call rot (Fin 0) coor0 = (inr coor0, coor0).
Proof.
  intros Hinit Hfin.
  apply BondRotator_init_inv in Hinit
    as (root & start & found & extra & rows & t & c1 & al
        & _ & _ & _ & _ & Hrows & Ht & _ & Hal & ->).
  unfold BondRotator.call, bind, get, lift, BondRotator.rotation. cbv zeta.
  cbn [BondRotator._coor_to_rotate BondRotator._t BondRotator._forward
       BondRotator.atoms_to_rotate].
  assert (Htfin : vfinite t = true) by exact (Forall_lookup_1 _ _ _ _ Hfin Ht).
  pose proof (Forall2_lookup_finite _ _ _ Hfin (np_take_rows _ _ _ Hrows)) as Hrfin.
  rewrite !map_map.
  rewrite (map_id_on _ (fun v => vfinite v = true) rows); [| | exact Hrfin].
  - now rewrite (np_put_take _ _ _ Hrows).
  - intros v Hv. apply (aligned_row_round_trip _ al 0 v t Hal cos_0 sin_0 Hv Htfin).
Qed.

Lemma BondRotator_call_zero_restores_witness :
  exists rot : BondRotator.t,
    BondRotator.init 5 chain_names chain_conn chain_coor "A" "B" = Some (inr rot) /\
    BondRotator.call rot (Fin 0) chain_coor = (inr chain_coor, chain_coor).
Proof.
  destruct chain_init as [rot H]. exists rot. split; [exact H |].
  exact (BondRotator_call_zero_restores _ _ _ _ _ _ _ H chain_coor_finite).
Defined.

Lemma scatter_lookup_head (l : list (nat * vec3)) (arr : coords) (i : nat) (v : vec3) :
  (i < length arr)%nat -> (forall iv, iv ∈ l -> iv.1 <> i) ->
  fold_left (fun acc (iv : nat * vec3) => <[iv.1 := iv.2]> acc) l (<[i := v]> arr) !! i
  = Some v.
Proof.
  intros Hi Hl. rewrite scatter_lookup_other by exact Hl.
  now apply list_lookup_insert_eq.
Qed.

(** X8: the two atoms of the bond lie on the axis: for every angle and
    whatever the ligand's coordinates are at the call, the returned array
    has, for both of them, the coordinates they had at construction. *)
Theorem BondRotator_bond_atoms_fixed (fuel : nat) (names : list string)
    (conn : list (list bool)) (coor0 : coords) (a1 a2 : string) (rot : BondRotator.t) :
  BondRotator.init fuel names conn coor0 a1 a2 = Some (inr rot) ->
  Forall (fun v => vfinite v = true) coor0 ->
  index_of names a1 <> index_of names a2 ->
  exists root start : nat,
    index_of names a1 = Some root /\ index_of names a2 = Some start /\
    forall (a : R) (coor : coords),
      length coor = length coor0 ->
      exists new : coords,
        BondRotator.call rot (Fin a) coor = (inr new, coor) /\
        new !! root = coor0 !! root /\ new !! start = coor0 !! start.
Proof.
  intros Hinit Hfin Hne.
  apply BondRotator_init_inv in Hinit
    as (root & start & found & extra & rows & t & c1 & al
        & H1 & H2 & _ & Hnew & Hrows & Ht & Hc1 & Hal & ->).
  exists root, start. split; [exact H1 |]. split; [exact H2 |].
  assert (Hrs : root <> start) by (intros ->; apply Hne; congruence).
  intros a coor Hlen.
  pose proof (np_take_spec _ _ _ Hrows) as [_ Hall].
  pose proof (np_take_rows _ _ _ Hrows) as Hf2.
  inversion Hf2 as [| i0 r0 sel0 rows0 Hr0 Hf2' E1 E2]; subst.
  inversion Hf2' as [| i1 r1 sel1 rows1 Hr1 Hf2'' E1 E2]; subst.
  rewrite Ht in Hr0. injection Hr0 as <-.
  cbn in Hc1. injection Hc1 as <-.
  assert (Htfin : vfinite t = true) by exact (Forall_lookup_1 _ _ _ _ Hfin Ht).
  assert (Hsfin : vfinite r1 = true) by exact (Forall_lookup_1 _ _ _ _ Hfin Hr1).
  apply vfinite_inv in Htfin as (tx & ty & tz & ->).
  apply vfinite_inv in Hsfin as (sx & sy & sz & ->).
  (* the aligner of the bond direction *)
  pose proof Hal as Hal'.
  apply ZAxisAligner_init_inr in Hal'
    as (a0 & a1' & a2' & theta & phi & Haxis & Hp & Hct & Hst & Hcp & Hsp & ->).
  unfold vsub, fsub, vdiv, vmap in Haxis. cbn [vx vy vz fneg fadd] in Haxis.
  rewrite norm2_fin in Haxis. injection Haxis as Hx Hy Hz.
  apply fdiv_fin_inv in Hx as [Hk Hx]. apply fdiv_fin_inv in Hy as [_ Hy].
  apply fdiv_fin_inv in Hz as [_ Hz].
  set (k := sqrt ((sx + - tx) * (sx + - tx) + (sy + - ty) * (sy + - ty))) in *.
  (* the two rows that are written at the root and at the second atom *)
  unfold BondRotator.call, bind, get, lift, BondRotator.rotation. cbv zeta.
  cbn [BondRotator._coor_to_rotate BondRotator._t BondRotator._forward
       BondRotator.atoms_to_rotate ZAxisAligner.forward_rotation
       ZAxisAligner.backward_rotation].
  cbn [map].
  assert (Row0 :
    vadd (matvec (matmul (matmul (Rz (Fin theta)) (Ry (Fin phi))) (Rz (Fin a)))
            (matvec (matmul (transpose (Ry (Fin phi))) (transpose (Rz (Fin theta))))
               (vsub (V3 (Fin tx) (Fin ty) (Fin tz)) (V3 (Fin tx) (Fin ty) (Fin tz)))))
         (V3 (Fin tx) (Fin ty) (Fin tz))
    = V3 (Fin tx) (Fin ty) (Fin tz)).
  { unfold vsub, fsub. cbn [vx vy vz fneg fadd].
    replace (V3 (Fin (tx + - tx)) (Fin (ty + - ty)) (Fin (tz + - tz)))
      with (V3 (Fin (0 * a0)) (Fin (0 * a1')) (Fin (0 * a2')))
      by (fin_entries; ring).
    rewrite (aligned_axis_fixed a0 a1' a2' theta phi a 0 Hp Hct Hst Hcp Hsp).
    unfold vadd. cbn [vx vy vz fadd]. fin_entries; ring. }
  assert (Row1 :
    vadd (matvec (matmul (matmul (Rz (Fin theta)) (Ry (Fin phi))) (Rz (Fin a)))
            (matvec (matmul (transpose (Ry (Fin phi))) (transpose (Rz (Fin theta))))
               (vsub (V3 (Fin sx) (Fin sy) (Fin sz)) (V3 (Fin tx) (Fin ty) (Fin tz)))))
         (V3 (Fin tx) (Fin ty) (Fin tz))
    = V3 (Fin sx) (Fin sy) (Fin sz)).
  { unfold vsub, fsub. cbn [vx vy vz fneg fadd].
    replace (V3 (Fin (sx + - tx)) (Fin (sy + - ty)) (Fin (sz + - tz)))
      with (V3 (Fin (k * a0)) (Fin (k * a1')) (Fin (k * a2')))
      by (fin_entries; subst a0 a1' a2'; field; exact Hk).
    rewrite (aligned_axis_fixed a0 a1' a2' theta phi a k Hp Hct Hst Hcp Hsp).
    unfold vadd. cbn [vx vy vz fadd]. fin_entries; subst a0 a1' a2'; field; exact Hk. }
  rewrite Row0, Row1.
  match goal with
  | |- context [np_put coor ?sel ?rows'] =>
      destruct (np_put_returns coor sel rows') as [new Hnew']
  end.
  { cbn. rewrite !length_map. f_equal. f_equal.
    symmetry. eapply Forall2_length, Hf2''. }
  { now rewrite Hlen. }
  exists new. rewrite Hnew'. split; [reflexivity |].
  (* read the result of the assignment *)
  unfold np_put in Hnew'. cbv zeta in Hnew'.
  destruct (negb (length _ =? length _)%nat); [discriminate |].
  destruct (negb (forallb _ _)); [discriminate |].
  injection Hnew' as <-. cbn [zip zip_with fold_left fst snd].
  inversion Hall as [| ? ? Hroot Hall' ]; subst.
  inversion Hall' as [| ? ? Hstart _ ]; subst.
  rewrite <- Hlen in Hroot, Hstart.
  split.
  - rewrite scatter_lookup_other.
    + etransitivity;
        [apply list_lookup_insert_ne; intros E; apply Hrs; now symmetry |].
      rewrite Ht. now apply list_lookup_insert_eq.
    + intros [j v] Hin Heq. cbn in Heq. subst j.
      apply elem_of_zip_l in Hin. now destruct (Hnew root Hin).
  - rewrite Hr1. apply scatter_lookup_head.
    + pose proof (length_insert coor root (V3 (Fin tx) (Fin ty) (Fin tz))) as E.
      unfold coords in *. lia.
    + intros [j v] Hin Heq. cbn in Heq. subst j.
      apply elem_of_zip_l in Hin. now destruct (Hnew start Hin).
Qed.

Lemma BondRotator_bond_atoms_fixed_witness :
  exists (rot : BondRotator.t) (new : coords),
    BondRotator.init 5 chain_names chain_conn chain_coor "A" "B" = Some (inr rot) /\
    BondRotator.call rot (Fin 1) chain_coor = (inr new, chain_coor) /\
    new !! 0%nat = chain_coor !! 0%nat /\ new !! 1%nat = chain_coor !! 1%nat.
Proof.
  destruct chain_init as [rot H].
  destruct (BondRotator_bond_atoms_fixed _ _ _ _ _ _ _ H chain_coor_finite)
    as (root & start & H1 & H2 & Hcall); [cbn; congruence |].
  cbn in H1, H2. injection H1 as <-. injection H2 as <-.
  destruct (Hcall 1 chain_coor eq_refl) as (new & Hnew & H0 & Hs).
  exists rot, new. repeat split; assumption.
Defined.

(** An index that is assigned gets a value that does not depend on the array
    it is assigned in. *)
Lemma scatter_agree (l : list (nat * vec3)) (arr arr' : coords) (i : nat) :
  length arr = length arr' ->
  i ∈ l.*1 \/ arr !! i = arr' !! i ->
  fold_left (fun acc (iv : nat * vec3) => <[iv.1 := iv.2]> acc) l arr !! i
  = fold_left (fun acc (iv : nat * vec3) => <[iv.1 := iv.2]> acc) l arr' !! i.
Proof.
  revert arr arr'. induction l as [| [j v] l IH]; intros arr arr' Hlen H.
  - destruct H as [H | H]; [inversion H | exact H].
  - cbn [fold_left fst snd]. apply IH.
    + pose proof (length_insert arr j v) as E1. pose proof (length_insert arr' j v) as E2.
      unfold coords in *. lia.
    + destruct (decide (i ∈ l.*1)) as [Hin | Hnin]; [now left |]. right.
      destruct (decide (i = j)) as [-> | Hne].
      * destruct (Nat.lt_ge_cases j (length arr)) as [Hlt | Hge].
        -- etransitivity; [now apply list_lookup_insert_eq |].
           symmetry. apply list_lookup_insert_eq. unfold coords in *. lia.
        -- etransitivity; [apply lookup_ge_None_2 |].
           ++ pose proof (length_insert arr j v) as E1. unfold coords in *. lia.
           ++ symmetry. apply lookup_ge_None_2.
              pose proof (length_insert arr' j v) as E2. unfold coords in *. lia.
      * destruct H as [H | H].
        -- cbn in H. apply elem_of_cons in H as [-> | H]; [congruence | contradiction].
        -- etransitivity; [apply list_lookup_insert_ne; congruence |].
           etransitivity; [exact H |].
           symmetry. apply list_lookup_insert_ne. congruence.
Qed.

Lemma np_put_agree (arr arr' : coords) (sel : list nat) (rows new new' : coords) (i : nat) :
  length arr = length arr' ->
  np_put arr sel rows = inr new -> np_put arr' sel rows = inr new' ->
  i ∈ sel -> new !! i = new' !! i.
Proof.
  unfold np_put. cbv zeta. intros Hlen.
  destruct (negb (length _ =? length sel)%nat) eqn:Hl; [discriminate |].
  apply negb_false_iff, Nat.eqb_eq in Hl.
  destruct (negb (forallb (fun i => (i <? length arr)%nat) sel)); [discriminate |].
  destruct (negb (forallb (fun i => (i <? length arr')%nat) sel)); [discriminate |].
  intros H H' Hi. injection H as <-. injection H' as <-.
  apply scatter_agree; [exact Hlen |]. left.
  rewrite fst_zip by lia. exact Hi.
Qed.

(** X9: the rows that [BondRotator.__call__] returns for the root and the
    atoms reached from the second atom are computed from the coordinates
    saved at construction: they are the same for any two arrays of
    coordinates the ligand may hold at the call. *)
Theorem BondRotator_call_moved_from_cache (fuel : nat) (names : list string)
    (conn : list (list bool)) (coor0 : coords) (a1 a2 : string) (rot : BondRotator.t) :
  BondRotator.init fuel names conn coor0 a1 a2 = Some (inr rot) ->
  exists root start : nat,
    index_of names a1 = Some root /\ index_of names a2 = Some start /\
    forall (angle : npfloat) (coor coor' : coords),
      length coor = length coor0 -> length coor' = length coor0 ->
      exists new new' : coords,
        BondRotator.call rot angle coor = (inr new, coor) /\
        BondRotator.call rot angle coor' = (inr new', coor') /\
        forall i : nat, BondRotator.moved conn root start i -> new !! i = new' !! i.
Proof.
  intros Hinit.
  pose proof (BondRotator_init_spec _ _ _ _ _ _ _ Hinit)
    as (root & start & found & H1 & H2 & Hdfs & Hlen & Hall).
  exists root, start. split; [exact H1 |]. split; [exact H2 |].
  intros angle coor coor' Hc Hc'.
  unfold BondRotator.call, bind, get, lift. cbv zeta.
  set (rows := map _ (BondRotator._coor_to_rotate rot)).
  assert (Hrows : length rows = length (BondRotator.atoms_to_rotate rot)).
  { unfold rows. now rewrite length_map. }
  destruct (np_put_returns coor _ rows Hrows) as [new Hnew]; [now rewrite Hc |].
  destruct (np_put_returns coor' _ rows Hrows) as [new' Hnew']; [now rewrite Hc' |].
  exists new, new'. rewrite Hnew, Hnew'. split; [reflexivity |]. split; [reflexivity |].
  intros i Hi.
  apply (np_put_agree coor coor' (BondRotator.atoms_to_rotate rot) rows new new' i);
    try assumption; [congruence |].
  destruct Hi as [-> | Hi].
  - pose proof (find_neighbours_shape conn root fuel start _ _ Hdfs) as (extra & Hat & _).
    cbn [fst app] in Hat. rewrite Hat. left.
  - exact (find_neighbours_complete conn root fuel start 0 _ Hdfs i Hi).
Qed.

Lemma BondRotator_call_moved_from_cache_witness :
  exists (rot : BondRotator.t) (new new' : coords),
    BondRotator.init 5 chain_names chain_conn chain_coor "A" "B" = Some (inr rot) /\
    BondRotator.call rot (Fin 1) chain_coor = (inr new, chain_coor) /\
    BondRotator.call rot (Fin 1) (map (fun v => vadd v (V3 f1 f1 f1)) chain_coor)
    = (inr new', map (fun v => vadd v (V3 f1 f1 f1)) chain_coor) /\
    new !! 2%nat = new' !! 2%nat.
Proof.
  destruct chain_init as [rot H].
  destruct (BondRotator_call_moved_from_cache _ _ _ _ _ _ _ H)
    as (root & start & H1 & H2 & Hcall).
  cbn in H1, H2. injection H1 as <-. injection H2 as <-.
  destruct (Hcall (Fin 1) chain_coor (map (fun v => vadd v (V3 f1 f1 f1)) chain_coor)
              eq_refl eq_refl) as (new & new' & Hn & Hn' & Hsame).
  exists rot, new, new'. split; [exact H |]. split; [exact Hn |]. split; [exact Hn' |].
  apply Hsame. right. apply reach_step with 1%nat.
  - apply reach_start.
  - exists [true; false; true; false]. split; reflexivity.
  - discriminate.
Defined.

(* ================================================================= *)
(** ** Further properties of CBAngleRotator and BisectingAngleRotator *)

Lemma bind_inr {S A B : Type} (m : M S A) (k : A -> M S B) (s s2 : S) (b : B) :
  bind m k s = (inr b, s2) ->
  exists (a : A) (s1 : S), m s = (inr a, s1) /\ k a s1 = (inr b, s2).
Proof.
  unfold bind. destruct (m s) as [[e | a] s1]; [discriminate |]. eauto.
Qed.

Lemma get_xyz_inr (sel : list nat) (s s1 : coords) (rows : coords) :
  get_xyz sel s = (inr rows, s1) -> s1 = s /\ np_take s sel = inr rows.
Proof. unfold get_xyz. intros H. injection H as H <-. now split. Qed.

Lemma lift_inr {A : Type} (r : exn + A) (s s1 : coords) (a : A) :
  lift r s = (inr a, s1) -> s1 = s /\ r = inr a.
Proof. unfold lift. intros H. injection H as -> <-. now split. Qed.

Lemma or_raise_inr {A : Type} (e : exn) (o : option A) (a : A) :
  or_raise e o = inr a -> o = Some a.
Proof. destruct o; cbn; [now intros [= ->] | discriminate]. Qed.

(** Everything [CBAngleRotator.__init__] has computed when it succeeds. *)
Lemma CBAngleRotator_init_inv (names : list string) (s s' : coords)
    (rot : CBAngleRotator.t) :
  CBAngleRotator.init names s = (inr rot, s') ->
  exists (cb rows axis_coor : coords) (origin axis : vec3) (al : ZAxisAligner.t),
    s' = s /\
    np_take s (select_name names ["CB"]%string true) = inr cb /\
    cb !! 0%nat = Some origin /\
    np_take s (select_name names backbone_and_CB false) = inr rows /\
    ZAxisAligner.init axis = inr al /\
    rot = CBAngleRotator.Build (select_name names backbone_and_CB false) origin
            (map (matvec (ZAxisAligner.backward_rotation al))
                 (map (fun v => vsub v origin) rows))
            (ZAxisAligner.forward_rotation al).
Proof.
  unfold CBAngleRotator.init. destruct (negb _); [discriminate |]. intros H.
  apply bind_inr in H as (cb & s1 & Hcb & H).
  apply get_xyz_inr in Hcb as [-> Hcb].
  apply bind_inr in H as (origin & s2 & Ho & H).
  apply lift_inr in Ho as [-> Ho]. apply or_raise_inr in Ho.
  apply bind_inr in H as (rows & s3 & Hrows & H).
  apply get_xyz_inr in Hrows as [-> Hrows].
  apply bind_inr in H as (ac & s4 & Hac & H).
  apply get_xyz_inr in Hac as [-> Hac].
  apply bind_inr in H as (a0 & s5 & Ha0 & H). apply lift_inr in Ha0 as [-> _].
  apply bind_inr in H as (a1 & s6 & Ha1 & H). apply lift_inr in Ha1 as [-> _].
  apply bind_inr in H as (al & s7 & Hal & H). apply lift_inr in Hal as [-> Hal].
  unfold ret in H. injection H as <- <-.
  exists cb, rows, ac, origin, (vdiv (cross a0 a1) (norm (cross a0 a1))), al.
  repeat split; try assumption; reflexivity.
Qed.

(** X10: constructing a [CBAngleRotator] changes no coordinate and, with
    finite coordinates, a call with the angle 0 on the coordinates of the
    construction writes back what is there. *)
Theorem CBAngleRotator_call_zero_restores (names : list string) (s s' : coords)
    (rot : CBAngleRotator.t) :
  CBAngleRotator.init names s = (inr rot, s') ->
  Forall (fun v => vfinite v = true) s ->
  s' = s /\ CBAngleRotator.call rot (Fin 0) s = (inr tt, s).
Proof.
  intros Hinit Hfin.
  apply CBAngleRotator_init_inv in Hinit
    as (cb & rows & ac & origin & axis & al & -> & Hcb & Ho & Hrows & Hal & ->).
  split; [reflexivity |].
  assert (Hofin : vfinite origin = true).
  { pose proof (Forall2_lookup_finite _ _ _ Hfin (np_take_rows _ _ _ Hcb)) as Hc.
    exact (Forall_lookup_1 _ _ _ _ Hc Ho). }
  pose proof (Forall2_lookup_finite _ _ _ Hfin (np_take_rows _ _ _ Hrows)) as Hrfin.
  unfold CBAngleRotator.call, CBAngleRotator.rotation, set_xyz. cbv zeta.
  cbn [CBAngleRotator._coor_to_rotate CBAngleRotator._origin CBAngleRotator._forward
       CBAngleRotator.atoms_to_rotate].
  rewrite deg2rad_fin, !map_map.
  rewrite (map_id_on _ (fun v => vfinite v = true) rows); [| | exact Hrfin].
  - now rewrite (np_put_take _ _ _ Hrows).
  - intros v Hv. apply (aligned_row_round_trip _ al _ v origin Hal); try assumption.
    + rewrite Rmult_0_l. apply cos_0.
    + rewrite Rmult_0_l. apply sin_0.
Qed.

Lemma CBAngleRotator_call_zero_restores_witness :
  exists rot : CBAngleRotator.t,
    CBAngleRotator.init bent_names bent_coor = (inr rot, bent_coor) /\
    CBAngleRotator.call rot (Fin 0) bent_coor = (inr tt, bent_coor).
Proof.
  destruct bent_CB_init as [rot H]. exists rot. split; [exact H |].
  exact (proj2 (CBAngleRotator_call_zero_restores _ _ _ _ H bent_coor_finite)).
Defined.

(** Everything [BisectingAngleRotator.__init__] has computed when it succeeds. *)
Lemma BisectingAngleRotator_init_inv (names : list string) (s s' : coords)
    (rot : BisectingAngleRotator.t) :
  BisectingAngleRotator.init names s = (inr rot, s') ->
  exists (cb rows : coords) (origin axis : vec3) (al : ZAxisAligner.t),
    s' = s /\
    length (select_name names ["CA"; "CB"; "CG"]%string true) = 3%nat /\
    np_take s (select_name names ["CB"]%string true) = inr cb /\
    cb !! 0%nat = Some origin /\
    np_take s (select_name names backbone_and_CB false) = inr rows /\
    ZAxisAligner.init axis = inr al /\
    rot = BisectingAngleRotator.Build (select_name names backbone_and_CB false) origin
            (map (matvec (ZAxisAligner.backward_rotation al))
                 (map (fun v => vsub v origin) rows))
            (ZAxisAligner.forward_rotation al).
Proof.
  unfold BisectingAngleRotator.init.
  destruct (Nat.eqb_spec (length (select_name names ["CA"; "CB"; "CG"]%string true)) 3)
    as [Hthree | _]; [| discriminate].
  cbn [negb]. intros H.
  apply bind_inr in H as (cb & s1 & Hcb & H).
  apply get_xyz_inr in Hcb as [-> Hcb].
  apply bind_inr in H as (origin & s2 & Ho & H).
  apply lift_inr in Ho as [-> Ho]. apply or_raise_inr in Ho.
  apply bind_inr in H as (rows & s3 & Hrows & H).
  apply get_xyz_inr in Hrows as [-> Hrows].
  apply bind_inr in H as (ac & s4 & Hac & H).
  apply get_xyz_inr in Hac as [-> Hac].
  apply bind_inr in H as (a0 & s5 & Ha0 & H). apply lift_inr in Ha0 as [-> _].
  apply bind_inr in H as (a1 & s6 & Ha1 & H). apply lift_inr in Ha1 as [-> _].
  apply bind_inr in H as (al & s7 & Hal & H). apply lift_inr in Hal as [-> Hal].
  unfold ret in H. injection H as <- <-.
  exists cb, rows, origin,
    (vdiv (vadd (vdiv a0 (norm a0)) (vdiv a1 (norm a1)))
          (norm (vadd (vdiv a0 (norm a0)) (vdiv a1 (norm a1))))), al.
  repeat split; try assumption; reflexivity.
Qed.

(** X11: constructing a [BisectingAngleRotator] changes no coordinate and,
    with finite coordinates, a call with the angle 0 on the coordinates of
    the construction writes back what is there. *)
Theorem BisectingAngleRotator_call_zero_restores (names : list string) (s s' : coords)
    (rot : BisectingAngleRotator.t) :
  BisectingAngleRotator.init names s = (inr rot, s') ->
  Forall (fun v => vfinite v = true) s ->
  s' = s /\ BisectingAngleRotator.call rot (Fin 0) s = (inr tt, s).
Proof.
  intros Hinit Hfin.
  apply BisectingAngleRotator_init_inv in Hinit
    as (cb & rows & origin & axis & al & -> & _ & Hcb & Ho & Hrows & Hal & ->).
  split; [reflexivity |].
  assert (Hofin : vfinite origin = true).
  { pose proof (Forall2_lookup_finite _ _ _ Hfin (np_take_rows _ _ _ Hcb)) as Hc.
    exact (Forall_lookup_1 _ _ _ _ Hc Ho). }
  pose proof (Forall2_lookup_finite _ _ _ Hfin (np_take_rows _ _ _ Hrows)) as Hrfin.
  unfold BisectingAngleRotator.call, BisectingAngleRotator.rotation, set_xyz. cbv zeta.
  cbn [BisectingAngleRotator._coor_to_rotate BisectingAngleRotator._origin
       BisectingAngleRotator._forward BisectingAngleRotator.atoms_to_rotate].
  rewrite deg2rad_fin, !map_map.
  rewrite (map_id_on _ (fun v => vfinite v = true) rows); [| | exact Hrfin].
  - now rewrite (np_put_take _ _ _ Hrows).
  - intros v Hv. apply (aligned_row_round_trip _ al _ v origin Hal); try assumption.
    + rewrite Rmult_0_l. apply cos_0.
    + rewrite Rmult_0_l. apply sin_0.
Qed.

Lemma BisectingAngleRotator_call_zero_restores_witness :
  exists rot : BisectingAngleRotator.t,
    BisectingAngleRotator.init bent_names bent_coor = (inr rot, bent_coor) /\
    BisectingAngleRotator.call rot (Fin 0) bent_coor = (inr tt, bent_coor).
Proof.
  destruct bent_Bisecting_init as [rot H]. exists rot. split; [exact H |].
  exact (proj2 (BisectingAngleRotator_call_zero_restores _ _ _ _ H bent_coor_finite)).
Defined.

Lemma select_name_spec (names values : list string) (eq : bool) (i : nat) :
  i ∈ select_name names values eq <->
  exists n : string, names !! i = Some n /\
                     Bool.eqb (existsb (String.eqb n) values) eq = true.
Proof.
  unfold select_name. split.
  - intros H. apply indices_where_spec in H as (j & y & -> & Hy & Hp). eauto.
  - intros (n & Hn & Hp).
    exact (indices_where_complete
             (fun n => Bool.eqb (existsb (String.eqb n) values) eq) names 0 i n Hn Hp).
Qed.

Lemma existsb_eqb_elem (n : string) (values : list string) :
  n ∈ values -> existsb (String.eqb n) values = true.
Proof.
  intros H. apply existsb_exists. exists n. split; [now apply list_elem_of_In |].
  apply String.eqb_refl.
Qed.

(** X12: for every angle (NaN and the infinities included) a call of a
    constructed [CBAngleRotator] on coordinates of the same length raises
    nothing, keeps the number of atoms, and leaves every atom named N, CA,
    C, O, CB, H, HA, HB2 or HB3 where it is. *)
Theorem CBAngleRotator_call_keeps_backbone (names : list string) (s s' : coords)
    (rot : CBAngleRotator.t) :
  CBAngleRotator.init names s = (inr rot, s') ->
  forall (angle : npfloat) (cur : coords),
    length cur = length s ->
    exists new : coords,
      CBAngleRotator.call rot angle cur = (inr tt, new) /\
      length new = length cur /\
      forall (i : nat) (n : string),
        names !! i = Some n -> n ∈ backbone_and_CB -> new !! i = cur !! i.
Proof.
  intros Hinit angle cur Hlen.
  apply CBAngleRotator_init_inv in Hinit
    as (cb & rows & ac & origin & axis & al & -> & _ & _ & Hrows & _ & ->).
  apply np_take_spec in Hrows as [Hl Hall].
  unfold CBAngleRotator.call, set_xyz. cbv zeta.
  cbn [CBAngleRotator._coor_to_rotate CBAngleRotator._origin CBAngleRotator.atoms_to_rotate].
  destruct (np_put_returns cur (select_name names backbone_and_CB false)
              (map (fun v => vadd (matvec (CBAngleRotator.rotation
                      (CBAngleRotator.Build (select_name names backbone_and_CB false) origin
                         (map (matvec (ZAxisAligner.backward_rotation al))
                              (map (fun v => vsub v origin) rows))
                         (ZAxisAligner.forward_rotation al)) angle) v) origin)
                   (map (matvec (ZAxisAligner.backward_rotation al))
                        (map (fun v => vsub v origin) rows))))
    as [new Hnew].
  { now rewrite !length_map. }
  { now rewrite Hlen. }
  rewrite Hnew. exists new. split; [reflexivity |].
  apply np_put_frame in Hnew as [Hln Hframe]. split; [exact Hln |].
  intros i n Hn Hin. apply Hframe. intros Hsel.
  apply select_name_spec in Hsel as (n' & Hn' & Hp).
  rewrite Hn in Hn'. injection Hn' as <-.
  now rewrite (existsb_eqb_elem n _ Hin) in Hp.
Qed.

Lemma CBAngleRotator_call_keeps_backbone_witness :
  exists (rot : CBAngleRotator.t) (new : coords),
    CBAngleRotator.init bent_names bent_coor = (inr rot, bent_coor) /\
    CBAngleRotator.call rot (Fin 30) bent_coor = (inr tt, new) /\
    new !! 1%nat = bent_coor !! 1%nat.
Proof.
  destruct bent_CB_init as [rot H].
  destruct (CBAngleRotator_call_keeps_backbone _ _ _ _ H (Fin 30) bent_coor eq_refl)
    as (new & Hcall & _ & Hkeep).
  exists rot, new. split; [exact H |]. split; [exact Hcall |].
  apply (Hkeep 1%nat "CA"%string eq_refl). unfold backbone_and_CB. right. left.
Defined.

(* ================================================================= *)
(** ** GlobalRotator *)

Lemma fold_vadd_fin (l : coords) (ax ay az : R) :
  Forall (fun v => vfinite v = true) l ->
  fold_left vadd l (V3 (Fin ax) (Fin ay) (Fin az))
  = V3 (Fin (ax + column_sum vx l)) (Fin (ay + column_sum vy l))
       (Fin (az + column_sum vz l)).
Proof.
  intros H. revert ax ay az. induction H as [| v l Hv _ IH]; intros ax ay az.
  - cbn. now rewrite !Rplus_0_r.
  - apply vfinite_inv in Hv as (x & y & z & ->).
    cbn [fold_left].
    change (vadd (V3 (Fin ax) (Fin ay) (Fin az)) (V3 (Fin x) (Fin y) (Fin z)))
      with (V3 (Fin (ax + x)) (Fin (ay + y)) (Fin (az + z))).
    rewrite IH. unfold column_sum. cbn [fold_right vx vy vz real_of].
    fin_entries; ring.
Qed.

Lemma mean0_fin (l : coords) :
  Forall (fun v => vfinite v = true) l -> l <> [] ->
  GlobalRotator.mean0 l
  = V3 (Fin (column_sum vx l / INR (length l))) (Fin (column_sum vy l / INR (length l)))
       (Fin (column_sum vz l / INR (length l))).
Proof.
  intros H Hne. unfold GlobalRotator.mean0, f0. rewrite (fold_vadd_fin l 0 0 0 H).
  assert (Hn : INR (length l) <> 0).
  { apply not_0_INR. destruct l; [congruence | cbn; lia]. }
  unfold vdiv, vmap. cbn [vx vy vz]. rewrite !fdiv_fin by exact Hn.
  now rewrite !Rplus_0_l.
Qed.

Lemma centered_back (v c : vec3) :
  vfinite v = true -> vfinite c = true ->
  vadd (matvec identity3 (vsub v c)) c = v.
Proof.
  intros Hv Hc.
  apply vfinite_inv in Hv as (x & y & z & ->).
  apply vfinite_inv in Hc as (cx & cy & cz & ->).
  unfold identity3, f0, f1, matvec, dot3, vsub, vadd, fsub.
  cbn [row0 row1 row2 vx vy vz fneg fadd fmul]. fin_entries; ring.
Qed.

Lemma Int_part_IZR' (n : Z) : Int_part (IZR n) = n.
Proof.
  unfold Int_part.
  assert (H : (n + 1)%Z = up (IZR n)).
  { apply tech_up; rewrite plus_IZR; lra. }
  rewrite <- H. lia.
Qed.

Lemma round8_IZR (n : Z) : round8 (IZR n) = IZR n.
Proof.
  unfold round8, rint.
  replace (IZR n * 100000000) with (IZR (n * 100000000)) by (rewrite mult_IZR; reflexivity).
  rewrite Int_part_IZR'.
  replace (IZR (n * 100000000) - IZR (n * 100000000)) with 0 by ring.
  destruct (Rlt_dec 0 (1 / 2)) as [_ | H]; [| exfalso; lra].
  rewrite mult_IZR. field.
Qed.

Lemma rotmat_of_identity : RotationSets.rotmat_of_quat quat_identity = identity3.
Proof.
  unfold RotationSets.rotmat_of_quat, RotationSets.fill_rotmat, quat_identity, fsquare.
  cbn [qw qx qy qz fmul fadd].
  rewrite fdiv_fin by lra. unfold fsub. cbn [fmul fadd fneg].
  unfold RotationSets.round_rotmat, vmap, identity3, f0, f1.
  cbn [row0 row1 row2 vx vy vz fround8].
  pose proof (round8_IZR 0) as H0. pose proof (round8_IZR 1) as H1.
  fin_entries;
    match goal with
    | |- round8 ?x = 0 => replace x with 0 by (field; lra); exact H0
    | |- round8 ?x = 1 => replace x with 1 by (field; lra); exact H1
    end.
Qed.

Lemma GlobalRotator_center_finite (center : option vec3) (s0 : coords) :
  Forall (fun v => vfinite v = true) s0 ->
  match center with Some c => vfinite c = true | None => s0 <> [] end ->
  vfinite (match center with None => GlobalRotator.mean0 s0 | Some c => c end) = true.
Proof.
  intros Hfin Hc. destruct center as [c |]; [exact Hc |].
  now rewrite (mean0_fin s0 Hfin Hc).
Qed.

(** X13: for a ligand with finite coordinates, and a finite centre or, with
    no centre given, at least one atom, a call of the [GlobalRotator] with
    the identity matrix, which is the matrix [quats_to_rotmats] gives for
    the identity quaternion, sets the coordinates of the construction,
    whatever the ligand holds at the call. *)
Theorem GlobalRotator_identity_restores (center : option vec3) (s0 : coords) :
  Forall (fun v => vfinite v = true) s0 ->
  match center with Some c => vfinite c = true | None => s0 <> [] end ->
  exists g : GlobalRotator.t,
    GlobalRotator.init center s0 = (inr g, s0) /\
    RotationSets.quats_to_rotmats [quat_identity] = [identity3] /\
    forall s : coords, GlobalRotator.call g identity3 s = (inr tt, s0).
Proof.
  intros Hfin Hc. eexists. split; [reflexivity |].
  split; [cbn [RotationSets.quats_to_rotmats map]; now rewrite rotmat_of_identity |].
  intros s. unfold GlobalRotator.call, put.
  cbn [GlobalRotator._coor_to_rotate GlobalRotator._center]. f_equal.
  rewrite !map_map.
  pose proof (GlobalRotator_center_finite center s0 Hfin Hc) as Hcf.
  apply (map_id_on _ (fun v => vfinite v = true)); [| exact Hfin].
  intros v Hv. now apply centered_back.
Qed.

Lemma GlobalRotator_identity_restores_witness :
  exists g : GlobalRotator.t,
    GlobalRotator.init None chain_coor = (inr g, chain_coor) /\
    GlobalRotator.call g identity3 [] = (inr tt, chain_coor).
Proof.
  destruct (GlobalRotator_identity_restores None chain_coor chain_coor_finite)
    as (g & Hinit & _ & Hcall); [discriminate |].
  exists g. split; [exact Hinit | apply Hcall].
Defined.

Lemma column_sum_affine (r00 r01 r02 r10 r11 r12 r20 r21 r22 cx cy cz : R) (l : coords) :
  Forall (fun v => vfinite v = true) l ->
  let rot := M3 (V3 (Fin r00) (Fin r01) (Fin r02)) (V3 (Fin r10) (Fin r11) (Fin r12))
                (V3 (Fin r20) (Fin r21) (Fin r22)) in
  let c := V3 (Fin cx) (Fin cy) (Fin cz) in
  let l' := map (fun v => vadd (matvec rot (vsub v c)) c) l in
  let n := INR (length l) in
  let dx := column_sum vx l - n * cx in
  let dy := column_sum vy l - n * cy in
  let dz := column_sum vz l - n * cz in
  Forall (fun v => vfinite v = true) l' /\
  column_sum vx l' = r00 * dx + r01 * dy + r02 * dz + n * cx /\
  column_sum vy l' = r10 * dx + r11 * dy + r12 * dz + n * cy /\
  column_sum vz l' = r20 * dx + r21 * dy + r22 * dz + n * cz.
Proof.
  intros H. cbv zeta. induction H as [| v l Hv _ (IH0 & IHx & IHy & IHz)].
  - cbn. repeat split; try constructor; ring.
  - apply vfinite_inv in Hv as (x & y & z & ->).
    cbn [map length]. rewrite S_INR.
    unfold column_sum in *. cbn [fold_right].
    rewrite IHx, IHy, IHz.
    unfold matvec, dot3, vsub, vadd, fsub.
    cbn [row0 row1 row2 vx vy vz fneg fadd fmul real_of].
    repeat split; try ring.
    constructor; [reflexivity | exact IH0].
Qed.

Lemma mfinite_inv (m : mat3) :
  mfinite m = true ->
  exists r00 r01 r02 r10 r11 r12 r20 r21 r22 : R,
    m = M3 (V3 (Fin r00) (Fin r01) (Fin r02)) (V3 (Fin r10) (Fin r11) (Fin r12))
           (V3 (Fin r20) (Fin r21) (Fin r22)).
Proof.
  destruct m as [a b c]. unfold mfinite. cbn [row0 row1 row2].
  intros H. apply andb_prop in H as [H Hc]. apply andb_prop in H as [Ha Hb].
  apply vfinite_inv in Ha as (? & ? & ? & ->).
  apply vfinite_inv in Hb as (? & ? & ? & ->).
  apply vfinite_inv in Hc as (? & ? & ? & ->).
  repeat eexists.
Qed.

(** X14: a [GlobalRotator] constructed without a centre rotates about the
    mean of the coordinates: for every matrix with finite entries, a
    rotation or not, the coordinates it sets have the number of rows and the
    mean of the coordinates of the construction. *)
Theorem GlobalRotator_keeps_centroid (s0 : coords) (rotmat : mat3) :
  Forall (fun v => vfinite v = true) s0 -> s0 <> [] -> mfinite rotmat = true ->
  exists (g : GlobalRotator.t) (s1 : coords),
    GlobalRotator.init None s0 = (inr g, s0) /\
    (forall s : coords, GlobalRotator.call g rotmat s = (inr tt, s1)) /\
    length s1 = length s0 /\
    GlobalRotator.mean0 s1 = GlobalRotator.mean0 s0.
Proof.
  intros Hfin Hne Hm.
  apply mfinite_inv in Hm
    as (r00 & r01 & r02 & r10 & r11 & r12 & r20 & r21 & r22 & ->).
  eexists. eexists. split; [reflexivity |].
  split; [intros s; unfold GlobalRotator.call, put;
          cbn [GlobalRotator._coor_to_rotate GlobalRotator._center];
          rewrite !map_map; reflexivity |].
  split; [now rewrite length_map |].
  rewrite (mean0_fin s0 Hfin Hne).
  set (n := INR (length s0)).
  assert (Hn : n <> 0).
  { apply not_0_INR. destruct s0; [congruence | cbn; lia]. }
  destruct (column_sum_affine r00 r01 r02 r10 r11 r12 r20 r21 r22
              (column_sum vx s0 / n) (column_sum vy s0 / n) (column_sum vz s0 / n)
              s0 Hfin) as (Hf' & Hx & Hy & Hz).
  fold n in Hx, Hy, Hz.
  rewrite mean0_fin; [| exact Hf' | destruct s0; [congruence | discriminate]].
  rewrite Hx, Hy, Hz, length_map. fold n.
  fin_entries; field; exact Hn.
Qed.

Lemma GlobalRotator_keeps_centroid_witness :
  exists (g : GlobalRotator.t) (s1 : coords),
    GlobalRotator.init None chain_coor = (inr g, chain_coor) /\
    GlobalRotator.call g (Rz (Fin 1)) chain_coor = (inr tt, s1) /\
    GlobalRotator.mean0 s1 = GlobalRotator.mean0 chain_coor.
Proof.
  destruct (GlobalRotator_keeps_centroid chain_coor (Rz (Fin 1)) chain_coor_finite)
    as (g & s1 & Hinit & Hcall & _ & Hmean); [discriminate | reflexivity |].
  exists g, s1. split; [exact Hinit |]. split; [apply Hcall | exact Hmean].
Defined.

(* ================================================================= *)
(** ** Further properties of BackboneRotator *)

Lemma elem_of_insert_unique (a x : nat) (l : list nat) :
  a ∈ insert_unique x l <-> a = x \/ a ∈ l.
Proof.
  induction l as [| y l IH]; cbn [insert_unique].
  - rewrite list_elem_of_singleton. split; [tauto | intros [H | H]; [exact H | inversion H]].
  - destruct (Nat.ltb_spec x y).
    + now rewrite elem_of_cons.
    + destruct (Nat.eqb_spec x y) as [-> | Hne].
      * rewrite elem_of_cons. tauto.
      * rewrite !elem_of_cons, IH. tauto.
Qed.

Lemma elem_of_np_unique (a : nat) (l : list nat) : a ∈ np_unique l <-> a ∈ l.
Proof.
  unfold np_unique. induction l as [| x l IH]; cbn [fold_right]; [reflexivity |].
  now rewrite elem_of_insert_unique, elem_of_cons, IH.
Qed.

Lemma insert_unique_increasing (x : nat) (l : list nat) :
  increasing l = true -> increasing (insert_unique x l) = true.
Proof.
  induction l as [| y l IH]; intros H; [reflexivity |].
  cbn [insert_unique].
  destruct (Nat.ltb_spec x y) as [Hlt | Hge].
  - cbn [increasing]. apply andb_true_intro. split; [now apply Nat.ltb_lt | exact H].
  - destruct (Nat.eqb_spec x y) as [-> | Hne]; [exact H |].
    destruct l as [| z l].
    + cbn. apply andb_true_intro. split; [apply Nat.ltb_lt; lia | reflexivity].
    + cbn [increasing] in H. apply andb_prop in H as [Hyz Hrest].
      specialize (IH Hrest). cbn [insert_unique] in IH |- *.
      destruct (Nat.ltb_spec x z) as [Hxz | Hxz].
      * cbn [increasing]. rewrite Hrest.
        apply Nat.ltb_lt in Hxz. rewrite Hxz.
        assert (E : (y <? x)%nat = true) by (apply Nat.ltb_lt; lia).
        now rewrite E.
      * destruct (Nat.eqb_spec x z) as [-> | Hxz'].
        -- cbn [increasing]. now rewrite Hyz, Hrest.
        -- change (increasing (y :: z :: insert_unique x l))
             with ((y <? z)%nat && increasing (z :: insert_unique x l)).
           now rewrite Hyz, IH.
Qed.

Lemma np_unique_increasing (l : list nat) : increasing (np_unique l) = true.
Proof.
  unfold np_unique. induction l as [| x l IH]; cbn [fold_right]; [reflexivity |].
  now apply insert_unique_increasing.
Qed.

Lemma elem_of_concat (a : nat) (ls : list (list nat)) :
  a ∈ concat ls <-> exists l : list nat, a ∈ l /\ l ∈ ls.
Proof.
  induction ls as [| l ls IH]; cbn [concat].
  - split; [intros H; inversion H | intros (l & _ & H); inversion H].
  - rewrite elem_of_app, IH. split.
    + intros [H | (l' & Ha & Hl)]; [exists l; split; [exact H | left] |].
      exists l'. split; [exact Ha | now right].
    + intros (l' & Ha & Hl). apply elem_of_cons in Hl as [-> | Hl]; [now left |].
      right. eauto.
Qed.

Lemma cumulative_snoc (sels : list (list nat)) (sel : list nat) :
  BackboneRotator.cumulative (sels ++ [sel])
  = BackboneRotator.cumulative sels
    ++ [np_unique (concat (BackboneRotator.cumulative sels) ++ sel)].
Proof. unfold BackboneRotator.cumulative. now rewrite fold_left_app. Qed.

Lemma cumulative_spec (sels : list (list nat)) :
  length (BackboneRotator.cumulative sels) = length sels /\
  forall (i : nat) (atoms : list nat),
    BackboneRotator.cumulative sels !! i = Some atoms ->
    increasing atoms = true /\
    forall a : nat,
      a ∈ atoms <-> exists (j : nat) (sel : list nat),
                      (j <= i)%nat /\ sels !! j = Some sel /\ a ∈ sel.
Proof.
  induction sels as [| sel sels [IHlen IH]] using rev_ind.
  - split; [reflexivity |]. intros i atoms H. destruct i; discriminate.
  - rewrite cumulative_snoc. split; [rewrite !length_app, IHlen; reflexivity |].
    intros i atoms H.
    destruct (Nat.lt_ge_cases i (length sels)) as [Hi | Hi].
    + rewrite lookup_app_l in H by lia.
      destruct (IH i atoms H) as [Hs Hmem]. split; [exact Hs |].
      intros a. rewrite Hmem. split; intros (j & s & Hj & Hjs & Ha); exists j, s.
      * split; [exact Hj |]. split; [| exact Ha]. rewrite lookup_app_l by lia. exact Hjs.
      * split; [exact Hj |]. split; [| exact Ha]. rewrite lookup_app_l in Hjs by lia. exact Hjs.
    + rewrite lookup_app_r in H by lia. rewrite IHlen in H.
      destruct (i - length sels)%nat eqn:Hd; [| destruct n; discriminate].
      assert (i = length sels) by lia. subst i.
      cbn in H. injection H as <-. split; [apply np_unique_increasing |].
      intros a. rewrite elem_of_np_unique, elem_of_app. split.
      * intros [Ha | Ha].
        -- apply elem_of_concat in Ha as (atoms' & Ha & Hin).
           apply list_elem_of_lookup_1 in Hin as [k Hk].
           pose proof (lookup_lt_Some _ _ _ Hk) as Hlt. rewrite IHlen in Hlt.
           destruct (IH k atoms' Hk) as [_ Hmem].
           destruct (proj1 (Hmem a) Ha) as (j & s & Hj & Hjs & Ha').
           exists j, s. split; [lia |]. split; [| exact Ha'].
           rewrite lookup_app_l by lia. exact Hjs.
        -- exists (length sels), sel. split; [lia |]. split; [| exact Ha].
           rewrite lookup_app_r by lia. now rewrite Nat.sub_diag.
      * intros (j & s & Hj & Hjs & Ha).
        destruct (Nat.lt_ge_cases j (length sels)) as [Hlt | Hge].
        -- left. rewrite lookup_app_l in Hjs by lia.
           destruct (lookup_lt_is_Some_2 (BackboneRotator.cumulative sels) j) as [atoms' Hk];
             [lia |].
           apply elem_of_concat. exists atoms'. split.
           ++ destruct (IH j atoms' Hk) as [_ Hmem]. apply Hmem. exists j, s. auto.
           ++ now apply list_elem_of_lookup_2 with j.
        -- right. assert (j = length sels) by lia. subst j.
           rewrite lookup_app_r in Hjs by lia. rewrite Nat.sub_diag in Hjs.
           now injection Hjs as ->.
Qed.

Lemma collect_inr (angles : list BackboneRotator.psi_phi)
    (c : list (list nat) * list ZAxisAligner.t * list vec3) :
  BackboneRotator.collect angles = inr c ->
  c.1.1 = backbone_selections angles /\
  length c.1.2 = (2 * length angles)%nat /\
  c.2 = concat (map (fun a => [BackboneRotator.psi_origin a; BackboneRotator.phi_origin a])
                    angles) /\
  Forall axes_align angles.
Proof.
  revert c. induction angles as [| a angles IH]; intros c; cbn [BackboneRotator.collect].
  - intros H. injection H as <-. cbn. repeat split; constructor.
  - intros H.
    apply ebind_inr in H as (al1 & H1 & H).
    apply ebind_inr in H as (al2 & H2 & H).
    apply ebind_inr in H as (rest & Hr & H).
    injection H as <-. destruct (IH rest Hr) as (Hs & Hl & Ho & Hall).
    cbn [fst snd]. unfold backbone_selections in *. cbn [map concat app length].
    rewrite Hs, Ho, Hl. repeat split; try lia.
    constructor; [| exact Hall]. split; eauto.
Qed.

Lemma collect_returns (angles : list BackboneRotator.psi_phi) :
  Forall axes_align angles -> exists c, BackboneRotator.collect angles = inr c.
Proof.
  induction 1 as [| a angles [[al1 H1] [al2 H2]] _ [c IH]]; cbn [BackboneRotator.collect].
  - eauto.
  - rewrite H1, H2, IH. cbn. eauto.
Qed.

Lemma turn_init (n_residues : nat) (s : coords) :
  exists self, BackboneRotator.init n_residues turn_angles s = (inr self, s).
Proof.
  unfold BackboneRotator.init, bind, get, lift, ret.
  destruct (collect_returns turn_angles) as [c ->]; [| eauto].
  repeat constructor; cbn; apply ZAxisAligner_init_ok; lra.
Qed.

(** X15: [BackboneRotator.__init__] succeeds exactly when the aligner of
    every psi and phi axis can be constructed. *)
Theorem BackboneRotator_init_succeeds_iff (n_residues : nat)
    (angles : list BackboneRotator.psi_phi) (s : coords) :
  (exists self, BackboneRotator.init n_residues angles s = (inr self, s))
  <-> Forall axes_align angles.
Proof.
  unfold BackboneRotator.init, bind, get, lift, ret. split.
  - intros [self H]. destruct (BackboneRotator.collect angles) as [e | c] eqn:Hc;
      [discriminate |]. now apply collect_inr in Hc.
  - intros H. apply collect_returns in H as [c ->]. eauto.
Qed.

(** What a successful construction has stored. *)
Lemma BackboneRotator_init_inv (n_residues : nat)
    (angles : list BackboneRotator.psi_phi) (s s' : coords) (self : BackboneRotator.t) :
  BackboneRotator.init n_residues angles s = (inr self, s') ->
  exists aligners : list ZAxisAligner.t,
    s' = s /\ length aligners = (2 * length angles)%nat /\
    self = BackboneRotator.Build (2 * n_residues) s aligners
             (concat (map (fun a => [BackboneRotator.psi_origin a;
                                     BackboneRotator.phi_origin a]) angles))
             (BackboneRotator.cumulative (backbone_selections angles)).
Proof.
  unfold BackboneRotator.init, bind, get, lift, ret.
  destruct (BackboneRotator.collect angles) as [e | c] eqn:Hc; [discriminate |].
  intros H. injection H as <- <-.
  apply collect_inr in Hc as (Hs & Hl & Ho & _).
  exists c.1.2. rewrite Hs, Ho. repeat split. exact Hl.
Qed.

(** X16: [BackboneRotator.__init__] changes no coordinate, saves the
    coordinates as the starting ones, declares two degrees of freedom for
    every residue and keeps one aligner, origin and atom set for every psi
    and phi; the atom set of index [i] is strictly increasing and holds
    exactly the atoms of the selections of index 0 to [i]. *)
Theorem BackboneRotator_init_atoms (n_residues : nat)
    (angles : list BackboneRotator.psi_phi) (s s' : coords) (self : BackboneRotator.t) :
  BackboneRotator.init n_residues angles s = (inr self, s') ->
  s' = s /\ BackboneRotator._starting_coor self = s /\
  BackboneRotator.ndofs self = (2 * n_residues)%nat /\
  length (BackboneRotator._aligners self) = (2 * length angles)%nat /\
  length (BackboneRotator._origins self) = (2 * length angles)%nat /\
  length (BackboneRotator._atoms_to_rotate self) = (2 * length angles)%nat /\
  forall (i : nat) (atoms : list nat),
    BackboneRotator._atoms_to_rotate self !! i = Some atoms ->
    increasing atoms = true /\
    forall a : nat,
      a ∈ atoms <-> exists (j : nat) (sel : list nat),
                      (j <= i)%nat /\ backbone_selections angles !! j = Some sel /\ a ∈ sel.
Proof.
  intros H. apply BackboneRotator_init_inv in H as (aligners & -> & Hl & ->).
  cbn [BackboneRotator._starting_coor BackboneRotator.ndofs BackboneRotator._aligners
       BackboneRotator._origins BackboneRotator._atoms_to_rotate].
  assert (Hlen : length (backbone_selections angles) = (2 * length angles)%nat).
  { unfold backbone_selections. clear. induction angles; cbn in *; lia. }
  destruct (cumulative_spec (backbone_selections angles)) as [Hcl Hcs].
  split; [reflexivity |]. split; [reflexivity |]. split; [reflexivity |].
  split; [exact Hl |].
  split; [clear; induction angles; cbn in *; lia |].
  split; [lia |].
  exact Hcs.
Qed.

Lemma BackboneRotator_init_atoms_witness :
  exists self : BackboneRotator.t,
    BackboneRotator.init 1 turn_angles chain_coor = (inr self, chain_coor) /\
    BackboneRotator.ndofs self = 2%nat /\
    length (BackboneRotator._atoms_to_rotate self) = 2%nat.
Proof.
  destruct (turn_init 1 chain_coor) as [self H].
  destruct (BackboneRotator_init_atoms _ _ _ _ _ H) as (_ & _ & Hn & _ & _ & Hl & _).
  exists self. split; [exact H |]. split; [exact Hn | exact Hl].
Defined.

Lemma rotate_one_frame (torsion : npfloat) (origin : vec3) (aligner : ZAxisAligner.t)
    (atoms : list nat) (s s' : coords) (r : exn + unit) :
  BackboneRotator.rotate_one (torsion, origin, aligner, atoms) s = (r, s') ->
  length s' = length s /\ forall i : nat, i ∉ atoms -> s' !! i = s !! i.
Proof.
  unfold BackboneRotator.rotate_one.
  destruct (feqb torsion f0); [intros H; injection H as <- <-; now split |].
  unfold bind, get_xyz, set_xyz.
  destruct (np_take s atoms) as [e | rows]; [intros H; injection H as <- <-; now split |].
  match goal with
  | |- context [np_put s atoms ?new] => destruct (np_put s atoms new) as [e | s2] eqn:Hput
  end.
  - intros H; injection H as <- <-; now split.
  - intros H; injection H as <- <-. now apply np_put_frame in Hput.
Qed.

Lemma for_each_frame (l : list (npfloat * vec3 * ZAxisAligner.t * list nat))
    (s s' : coords) (r : exn + unit) (i : nat) :
  for_each l BackboneRotator.rotate_one s = (r, s') ->
  (forall item, item ∈ l -> i ∉ item.2) ->
  s' !! i = s !! i.
Proof.
  revert s. induction l as [| [[[t o] al] atoms] l IH]; intros s H Hi.
  - cbn in H. injection H as <- <-. reflexivity.
  - cbn [for_each] in H. unfold bind in H.
    destruct (BackboneRotator.rotate_one (t, o, al, atoms) s) as [[e | []] s1] eqn:H1.
    + injection H as <- <-. apply rotate_one_frame in H1 as [_ H1].
      apply H1. apply (Hi (t, o, al, atoms)). left.
    + apply rotate_one_frame in H1 as [_ H1].
      rewrite (IH s1 H); [| intros item Hin; apply Hi; now right].
      apply H1. apply (Hi (t, o, al, atoms)). left.
Qed.

Lemma zip4_atoms {A B C D : Type} (la : list A) (lb : list B) (lc : list C) (ld : list D)
    (item : A * B * C * D) :
  item ∈ zip4 la lb lc ld -> item.2 ∈ ld.
Proof.
  revert lb lc ld. induction la as [| a la IH]; intros lb lc ld H.
  - cbn in H. inversion H.
  - destruct lb as [| b lb], lc as [| c lc], ld as [| d ld]; cbn in H; try (inversion H; fail).
    apply elem_of_cons in H as [-> | H]; [left |]. right. exact (IH _ _ _ H).
Qed.

(** X17: after a call of the [BackboneRotator] with as many torsions as
    degrees of freedom, whether it returns or raises on the way, every atom
    that is in none of the psi and phi selections has its starting
    coordinates. *)
Theorem BackboneRotator_call_moves_selected_only (n_residues : nat)
    (angles : list BackboneRotator.psi_phi) (s0 s0' : coords) (self : BackboneRotator.t) :
  BackboneRotator.init n_residues angles s0 = (inr self, s0') ->
  forall (torsions : list npfloat) (before after : coords) (r : exn + unit),
    length torsions = (2 * n_residues)%nat ->
    BackboneRotator.call self torsions before = (r, after) ->
    forall i : nat,
      (forall sel, sel ∈ backbone_selections angles -> i ∉ sel) ->
      after !! i = s0 !! i.
Proof.
  intros Hinit torsions before after r Hlen Hcall i Hi.
  apply BackboneRotator_init_inv in Hinit as (aligners & -> & _ & ->).
  rewrite BackboneRotator_call_ok in Hcall by exact Hlen.
  cbn [BackboneRotator._starting_coor BackboneRotator._origins BackboneRotator._aligners
       BackboneRotator._atoms_to_rotate] in Hcall.
  destruct (cumulative_spec (backbone_selections angles)) as [_ Hat].
  apply (for_each_frame _ _ _ _ i) in Hcall; [exact Hcall |].
  intros item Hin. apply zip4_atoms in Hin.
  apply list_elem_of_lookup_1 in Hin as [k Hk].
  destruct (Hat k _ Hk) as [_ Hmem]. intros Ha.
  apply Hmem in Ha as (j & sel & _ & Hj & Ha).
  apply (Hi sel); [| exact Ha]. now apply list_elem_of_lookup_2 with j.
Qed.

Lemma BackboneRotator_call_moves_selected_only_witness :
  exists self : BackboneRotator.t,
    BackboneRotator.init 1 turn_angles chain_coor = (inr self, chain_coor) /\
    forall (after : coords) (r : exn + unit),
      BackboneRotator.call self [Fin 10; Fin 20] [] = (r, after) ->
      after !! 0%nat = chain_coor !! 0%nat.
Proof.
  destruct (turn_init 1 chain_coor) as [self H]. exists self. split; [exact H |].
  intros after r Hcall.
  apply (BackboneRotator_call_moves_selected_only _ _ _ _ _ H [Fin 10; Fin 20] [] after r
           eq_refl Hcall).
  intros sel Hsel. unfold backbone_selections, turn_angles in Hsel. cbn in Hsel.
  intros Hin.
  repeat (apply elem_of_cons in Hsel as [-> | Hsel];
          [repeat (apply elem_of_cons in Hin as [Hin | Hin]; [discriminate |]);
           inversion Hin |]).
  inversion Hsel.
Defined.

(* ================================================================= *)
(** ** Further properties of RotationSets *)

(** X18: for a count of 1, 0 or below, [local] draws nothing and returns
    the identity quaternion alone, whatever the maximal angle. *)
Theorem local_single_rotation (fuel : nat) (u : RotationSets.stream)
    (max_angle : npfloat) (nrots : Z) :
  (nrots <= 1)%Z ->
  RotationSets.local fuel u max_angle nrots = Some [quat_identity].
Proof.
  intros H. unfold RotationSets.local.
  destruct fuel; cbn [RotationSets.local_loop length];
    (destruct (Z.ltb_spec (Z.of_nat 0) (nrots - 1)); [lia | reflexivity]).
Qed.

Lemma local_single_rotation_witness :
  RotationSets.local 0 (fun _ => 0) (Fin 10) 0 = Some [quat_identity].
Proof. apply local_single_rotation. lia. Defined.

Lemma acos_pos (w : R) : -1 < w < 1 -> 0 < acos w.
Proof.
  intros Hw. pose proof (acos_bound w) as [Hlo _].
  destruct (Rle_lt_or_eq_dec _ _ Hlo) as [H | H]; [exact H |].
  exfalso. pose proof (cos_acos w ltac:(lra)) as Hc.
  rewrite <- H, cos_0 in Hc. lra.
Qed.

Lemma local_loop_never_nonpositive (fuel : nat) (u : RotationSets.stream) (pos : nat)
    (m : R) (nrots : Z) (quats : list quat) :
  m <= 0 -> (Z.of_nat (length quats) < nrots - 1)%Z ->
  RotationSets.local_loop fuel u pos (Fin m) nrots quats = None.
Proof.
  intros Hm Hn. revert pos. induction fuel as [| fuel IH]; intros pos;
    cbn [RotationSets.local_loop];
    (destruct (Z.ltb_spec (Z.of_nat (length quats)) (nrots - 1)); [| lia]);
    [reflexivity |].
  destruct (RotationSets.random_rotation (S fuel) u pos) as [[q pos'] |] eqn:Hq;
    [| reflexivity].
  destruct (random_rotation_angle _ _ _ _ _ Hq) as (w & _ & Hw & -> & _).
  pose proof (acos_pos w Hw).
  rewrite fle_fin_false by lra. apply IH.
Qed.

(** X19: every rotation that [random_rotation] draws has an angle above 0,
    so with a maximal angle of 0 or below and a count of at least 2 the loop
    of [local] accepts nothing and never ends: no amount of fuel gives a
    result. *)
Theorem local_nonpositive_angle_never_returns (fuel : nat) (u : RotationSets.stream)
    (m : R) (nrots : Z) :
  m <= 0 -> (2 <= nrots)%Z ->
  RotationSets.local fuel u (Fin m) nrots = None.
Proof.
  intros Hm Hn. unfold RotationSets.local. rewrite deg2rad_fin.
  apply local_loop_never_nonpositive; [| cbn; lia].
  assert (0 < PI / 180) by (pose proof PI_RGT_0; lra). nra.
Qed.

Lemma local_nonpositive_angle_never_returns_witness :
  RotationSets.local 7 (fun _ => 1 / 2) (Fin 0) 2 = None.
Proof. apply local_nonpositive_angle_never_returns; [lra | lia]. Defined.



